(** * Ship-battles: navigation and formation core

    A shallow embedding of the navigation / formation layer of the
    Ship-battles simulation (js/ai.js, js/entities.js, js/game.js,
    js/input.js, js/config.js) together with the properties the
    specification states about it.

    Numbers.  JavaScript numbers are modelled by the type [jsnum]:
    a finite value carried as a real number, [NaN], or [Undefined]
    (a field that was never written).  Arithmetic on finite values is
    exact real arithmetic: rounding, overflow and the infinities are not
    modelled.  Every division met below has a divisor that is not zero,
    but for the division by [lookAhead] in [predictCollision], which is
    written with [jquot].  Pure geometry (obstacles, way-points,
    planners) is written directly over [R].

    Objects.  A roster is a list of ship records.  In-place mutation of
    an array element is an update of the list at that element's index;
    object identity ([other === ship], [c === island]) is the [sid] field
    of a ship and the [oid] field of an island. *)

From Stdlib Require Import Reals Lra Lia Psatz List Bool Arith ZArith.
Import ListNotations.
Local Open Scope R_scope.

(* ===================================================================== *)
(** * Part I.  The model                                                  *)
(* ===================================================================== *)

(** ** Comparisons on reals as booleans *)

Definition Rltb (a b : R) : bool := if Rlt_dec a b then true else false.
Definition Rleb (a b : R) : bool := if Rle_dec a b then true else false.
Definition Rgtb (a b : R) : bool := Rltb b a.
Definition Rgeb (a b : R) : bool := Rleb b a.
Definition Reqb (a b : R) : bool := if Req_dec_T a b then true else false.

(** ** The [Math] functions used by the code, over the reals *)

(** [clamp] of js/utils.js: [Math.max(lo, Math.min(hi, v))]. *)
Definition clamp (v lo hi : R) : R := Rmax lo (Rmin hi v).

(** [Math.sign]. *)
Definition sign (v : R) : R :=
  if Rlt_dec 0 v then 1 else if Rlt_dec v 0 then -1 else 0.

(** [Math.hypot] with two arguments. *)
Definition hypot (a b : R) : R := sqrt (a * a + b * b).

(** [dist2] of js/utils.js. *)
Definition dist2 (ax ay bx b_y : R) : R :=
  let dx := ax - bx in let dy := ay - b_y in dx * dx + dy * dy.

(** [Math.atan2(y, x)] (signed zeros are not distinguished). *)
Definition atan2 (y x : R) : R :=
  if Rlt_dec 0 x then atan (y / x)
  else if Rlt_dec x 0 then
         (if Rle_dec 0 y then atan (y / x) + PI else atan (y / x) - PI)
  else if Rlt_dec 0 y then PI / 2
  else if Rlt_dec y 0 then - (PI / 2)
  else 0.

(** [angleTo] of js/utils.js. *)
Definition angleTo (ax ay bx b_y : R) : R := atan2 (b_y - ay) (bx - ax).

(** [Math.ceil], as an integer. *)
Definition ceil (v : R) : Z := (1 - up (- v))%Z.

(** [Math.floor], as an integer. *)
Definition floorZ (v : R) : Z := (up v - 1)%Z.

(** [a % b]: the remainder has the sign of the dividend. *)
Definition fmod (a b : R) : R :=
  let q := a / b in
  a - b * IZR (if Rle_dec 0 q then floorZ q else ceil q).

(** [TAU] of js/config.js and [normAngle] of js/utils.js. *)
Definition TAU : R := PI * 2.

Definition normAngle (a : R) : R :=
  let a1 := fmod a TAU in
  let a2 := if Rlt_dec a1 (- PI) then a1 + TAU else a1 in
  if Rlt_dec PI a2 then a2 - TAU else a2.

(** The values of the loop variable of
    [for (let t = step; t <= limit; t += step)]. *)
Definition sampleTimes (step limit : R) : list R :=
  map (fun k => step * INR k) (seq 1 (Z.to_nat (floorZ (limit / step)))).

(** [a || d] on a finite number: [0] is falsy. *)
Definition Ror (a d : R) : R := if Req_dec_T a 0 then d else a.

(** ** JavaScript numbers that may be corrupt *)

Inductive jsnum : Type :=
| Num (r : R)
| NaN
| Undefined.

Coercion Num : R >-> jsnum.

Definition lift1 (f : R -> R) (a : jsnum) : jsnum :=
  match a with Num u => Num (f u) | _ => NaN end.

Definition lift2 (f : R -> R -> R) (a b : jsnum) : jsnum :=
  match a, b with Num u, Num v => Num (f u v) | _, _ => NaN end.

Definition cmp2 (f : R -> R -> bool) (a b : jsnum) : bool :=
  match a, b with Num u, Num v => f u v | _, _ => false end.

Definition jadd := lift2 Rplus.
Definition jsub := lift2 Rminus.
Definition jmul := lift2 Rmult.
Definition jdiv := lift2 Rdiv.
Definition jmax := lift2 Rmax.
Definition jmin := lift2 Rmin.
Definition jhypot := lift2 hypot.
Definition jatan2 := lift2 atan2.
Definition jopp := lift1 Ropp.
Definition jabs := lift1 Rabs.
Definition jsign := lift1 sign.
Definition jcos := lift1 cos.
Definition jsin := lift1 sin.
Definition jnormAngle := lift1 normAngle.
Definition jlt := cmp2 Rltb.
Definition jle := cmp2 Rleb.
Definition jgt := cmp2 Rgtb.
Definition jge := cmp2 Rgeb.

(** [isNaN(v)]: [undefined] converts to [NaN]. *)
Definition isNaN (a : jsnum) : bool :=
  match a with Num _ => false | _ => true end.

(** [v === undefined]. *)
Definition isUndefined (a : jsnum) : bool :=
  match a with Undefined => true | _ => false end.

(** [v || 0]: [NaN], [undefined] and [0] are falsy. *)
Definition orZero (a : jsnum) : R :=
  match a with Num u => u | _ => 0 end.

(** [v || d] for a default [d]. *)
Definition orElse (a : jsnum) (d : R) : R :=
  match a with Num u => Ror u d | _ => d end.

(** [a / b] where the divisor may be zero: [0 / 0] is [NaN].  (A
    dividend other than zero over zero, an infinity, does not occur
    where this is used.) *)
Definition jquot (a b : jsnum) : jsnum :=
  match a, b with
  | Num u, Num v => if Req_dec_T v 0 then NaN else Num (u / v)
  | _, _ => NaN
  end.

(** [clamp] of js/utils.js on possibly corrupt numbers. *)
Definition jclamp (v lo hi : jsnum) : jsnum := jmax lo (jmin hi v).

Declare Scope js_scope.
Delimit Scope js_scope with js.
Bind Scope js_scope with jsnum.
Infix "+" := jadd : js_scope.
Infix "-" := jsub : js_scope.
Infix "*" := jmul : js_scope.
Infix "/" := jdiv : js_scope.
Infix "<?" := jlt (at level 70) : js_scope.
Infix "<=?" := jle (at level 70) : js_scope.
Infix ">?" := jgt (at level 70) : js_scope.
Infix ">=?" := jge (at level 70) : js_scope.

(** ** js/config.js *)

Module Config.

Definition MAP_SCALE : R := 28 / 10.
(** [Math.round(3200 * MAP_SCALE)] and [Math.round(2200 * MAP_SCALE)]. *)
Definition WORLD_w : R := 8960.
Definition WORLD_h : R := 6160.

Definition FORM_SEP : R := 45 * MAP_SCALE.

Definition DRAG_DD : R := 9960 / 10000.
Definition DRAG_BB : R := 9970 / 10000.
Definition SHIP_SPEED_SCALE : R := 28 / 100.
Definition SHIP_ACCEL_SCALE : R := 28 / 100.
Definition THROTTLE_CHANGE_RATE : R := 45.
Definition SPEED_INERTIA : R := 92 / 100.
Definition REVERSE_SPEED_MULT : R := 5 / 10.
Definition MAX_RUDDER_ANGLE : R := PI / 6.

Definition ESCORT_LOCK_RADIUS : R := 60.
Definition RUDDER_RETURN_RATE : R := 3 / 10.
Definition ANGULAR_INERTIA : R := 995 / 1000.
Definition ANGULAR_ACCEL : R := 5 / 10.
Definition RUDDER_MOVE_RATE : R := 2 / 10.

End Config.

(** ** Ship classes ([DD], [BB], [TB], [CV] of js/config.js) *)

Inductive Kind : Type := DD | BB | TB | CV.

Definition Kind_eqb (a b : Kind) : bool :=
  match a, b with
  | DD, DD | BB, BB | TB, TB | CV, CV => true
  | _, _ => false
  end.

Definition radius (k : Kind) : R :=
  match k with DD => 14 | BB => 22 | TB => 12 | CV => 26 end.

Definition maxSpeed (k : Kind) : R :=
  match k with
  | DD => 115 * Config.SHIP_SPEED_SCALE
  | BB => 65 * Config.SHIP_SPEED_SCALE
  | TB => 130 * Config.SHIP_SPEED_SCALE
  | CV => 58 * Config.SHIP_SPEED_SCALE
  end.

Definition accel (k : Kind) : R :=
  match k with
  | DD => 70 * Config.SHIP_ACCEL_SCALE
  | BB => 34 * Config.SHIP_ACCEL_SCALE
  | TB => 90 * Config.SHIP_ACCEL_SCALE
  | CV => 28 * Config.SHIP_ACCEL_SCALE
  end.

Definition turnRate (k : Kind) : R :=
  match k with DD => 15 / 10 | BB => 8 / 10 | TB => 18 / 10 | CV => 6 / 10 end.

(** ** Ships *)

Inductive Team : Type := P | E.

Definition Team_eqb (a b : Team) : bool :=
  match a, b with P, P | E, E => true | _, _ => false end.

Inductive RouteState : Type := patrol | engaging.

Record Point : Type := mkPoint { px : R; py : R }.

(** The alert that [calculateAvoidanceSteering] leaves on the ship for
    the renderer; [withShip] is the identity of the other ship. *)
Record Alert : Type := mkAlert {
  alertX : jsnum; alertY : jsnum; alertTime : jsnum; alertUrgency : jsnum;
  withShip : nat
}.

(** The fields of a ship object that the navigation core reads or
    writes.  [escortLocked] and [timeInPosition] do not exist on a new
    ship ([None], [Undefined]); [escortPosition] is [null] until a slot
    is assigned. *)
Record Ship : Type := mkShipRec {
  sid : nat;
  team : Team;
  kind : Kind;
  x : jsnum;
  y : jsnum;
  vx : jsnum;
  vy : jsnum;
  heading : jsnum;
  alive : bool;
  throttle : jsnum;
  currentSpeed : jsnum;
  rudderAngle : jsnum;
  angularVel : jsnum;
  isCommander : bool;
  plannedPath : list Point;
  routeState : RouteState;
  escortPosition : option nat;
  escortLocked : option bool;
  timeInPosition : jsnum;
  collisionPredicted : option Alert
}.

Definition set_x (v : jsnum) (s : Ship) : Ship :=
  mkShipRec (sid s) (team s) (kind s) v (y s) (vx s) (vy s) (heading s) (alive s) (throttle s) (currentSpeed s) (rudderAngle s) (angularVel s) (isCommander s) (plannedPath s) (routeState s) (escortPosition s) (escortLocked s) (timeInPosition s) (collisionPredicted s).
Definition set_y (v : jsnum) (s : Ship) : Ship :=
  mkShipRec (sid s) (team s) (kind s) (x s) v (vx s) (vy s) (heading s) (alive s) (throttle s) (currentSpeed s) (rudderAngle s) (angularVel s) (isCommander s) (plannedPath s) (routeState s) (escortPosition s) (escortLocked s) (timeInPosition s) (collisionPredicted s).
Definition set_vx (v : jsnum) (s : Ship) : Ship :=
  mkShipRec (sid s) (team s) (kind s) (x s) (y s) v (vy s) (heading s) (alive s) (throttle s) (currentSpeed s) (rudderAngle s) (angularVel s) (isCommander s) (plannedPath s) (routeState s) (escortPosition s) (escortLocked s) (timeInPosition s) (collisionPredicted s).
Definition set_vy (v : jsnum) (s : Ship) : Ship :=
  mkShipRec (sid s) (team s) (kind s) (x s) (y s) (vx s) v (heading s) (alive s) (throttle s) (currentSpeed s) (rudderAngle s) (angularVel s) (isCommander s) (plannedPath s) (routeState s) (escortPosition s) (escortLocked s) (timeInPosition s) (collisionPredicted s).
Definition set_heading (v : jsnum) (s : Ship) : Ship :=
  mkShipRec (sid s) (team s) (kind s) (x s) (y s) (vx s) (vy s) v (alive s) (throttle s) (currentSpeed s) (rudderAngle s) (angularVel s) (isCommander s) (plannedPath s) (routeState s) (escortPosition s) (escortLocked s) (timeInPosition s) (collisionPredicted s).
Definition set_alive (v : bool) (s : Ship) : Ship :=
  mkShipRec (sid s) (team s) (kind s) (x s) (y s) (vx s) (vy s) (heading s) v (throttle s) (currentSpeed s) (rudderAngle s) (angularVel s) (isCommander s) (plannedPath s) (routeState s) (escortPosition s) (escortLocked s) (timeInPosition s) (collisionPredicted s).
Definition set_throttle (v : jsnum) (s : Ship) : Ship :=
  mkShipRec (sid s) (team s) (kind s) (x s) (y s) (vx s) (vy s) (heading s) (alive s) v (currentSpeed s) (rudderAngle s) (angularVel s) (isCommander s) (plannedPath s) (routeState s) (escortPosition s) (escortLocked s) (timeInPosition s) (collisionPredicted s).
Definition set_currentSpeed (v : jsnum) (s : Ship) : Ship :=
  mkShipRec (sid s) (team s) (kind s) (x s) (y s) (vx s) (vy s) (heading s) (alive s) (throttle s) v (rudderAngle s) (angularVel s) (isCommander s) (plannedPath s) (routeState s) (escortPosition s) (escortLocked s) (timeInPosition s) (collisionPredicted s).
Definition set_rudderAngle (v : jsnum) (s : Ship) : Ship :=
  mkShipRec (sid s) (team s) (kind s) (x s) (y s) (vx s) (vy s) (heading s) (alive s) (throttle s) (currentSpeed s) v (angularVel s) (isCommander s) (plannedPath s) (routeState s) (escortPosition s) (escortLocked s) (timeInPosition s) (collisionPredicted s).
Definition set_angularVel (v : jsnum) (s : Ship) : Ship :=
  mkShipRec (sid s) (team s) (kind s) (x s) (y s) (vx s) (vy s) (heading s) (alive s) (throttle s) (currentSpeed s) (rudderAngle s) v (isCommander s) (plannedPath s) (routeState s) (escortPosition s) (escortLocked s) (timeInPosition s) (collisionPredicted s).
Definition set_isCommander (v : bool) (s : Ship) : Ship :=
  mkShipRec (sid s) (team s) (kind s) (x s) (y s) (vx s) (vy s) (heading s) (alive s) (throttle s) (currentSpeed s) (rudderAngle s) (angularVel s) v (plannedPath s) (routeState s) (escortPosition s) (escortLocked s) (timeInPosition s) (collisionPredicted s).
Definition set_plannedPath (v : list Point) (s : Ship) : Ship :=
  mkShipRec (sid s) (team s) (kind s) (x s) (y s) (vx s) (vy s) (heading s) (alive s) (throttle s) (currentSpeed s) (rudderAngle s) (angularVel s) (isCommander s) v (routeState s) (escortPosition s) (escortLocked s) (timeInPosition s) (collisionPredicted s).
Definition set_routeState (v : RouteState) (s : Ship) : Ship :=
  mkShipRec (sid s) (team s) (kind s) (x s) (y s) (vx s) (vy s) (heading s) (alive s) (throttle s) (currentSpeed s) (rudderAngle s) (angularVel s) (isCommander s) (plannedPath s) v (escortPosition s) (escortLocked s) (timeInPosition s) (collisionPredicted s).
Definition set_escortPosition (v : option nat) (s : Ship) : Ship :=
  mkShipRec (sid s) (team s) (kind s) (x s) (y s) (vx s) (vy s) (heading s) (alive s) (throttle s) (currentSpeed s) (rudderAngle s) (angularVel s) (isCommander s) (plannedPath s) (routeState s) v (escortLocked s) (timeInPosition s) (collisionPredicted s).
Definition set_escortLocked (v : option bool) (s : Ship) : Ship :=
  mkShipRec (sid s) (team s) (kind s) (x s) (y s) (vx s) (vy s) (heading s) (alive s) (throttle s) (currentSpeed s) (rudderAngle s) (angularVel s) (isCommander s) (plannedPath s) (routeState s) (escortPosition s) v (timeInPosition s) (collisionPredicted s).
Definition set_timeInPosition (v : jsnum) (s : Ship) : Ship :=
  mkShipRec (sid s) (team s) (kind s) (x s) (y s) (vx s) (vy s) (heading s) (alive s) (throttle s) (currentSpeed s) (rudderAngle s) (angularVel s) (isCommander s) (plannedPath s) (routeState s) (escortPosition s) (escortLocked s) v (collisionPredicted s).
Definition set_collisionPredicted (v : option Alert) (s : Ship) : Ship :=
  mkShipRec (sid s) (team s) (kind s) (x s) (y s) (vx s) (vy s) (heading s) (alive s) (throttle s) (currentSpeed s) (rudderAngle s) (angularVel s) (isCommander s) (plannedPath s) (routeState s) (escortPosition s) (escortLocked s) (timeInPosition s) v.

(** [mkShip] of js/entities.js, restricted to the fields above; [id]
    stands for the identity of the fresh object. *)
Definition mkShip (id : nat) (tm : Team) (k : Kind) (x0 y0 h : R) : Ship :=
  {| sid := id; team := tm; kind := k;
     x := x0; y := y0; vx := 0; vy := 0; heading := h;
     alive := true;
     throttle := 50; currentSpeed := 0; rudderAngle := 0; angularVel := 0;
     isCommander := false; plannedPath := []; routeState := patrol;
     escortPosition := None;
     escortLocked := None; timeInPosition := Undefined;
     collisionPredicted := None |}.

(** ** Formation model: commander election (js/entities.js) *)

Module Formation.

(** Index of the first element that satisfies [p]
    ([Array.prototype.find], by position). *)
Fixpoint findIndex {A : Type} (p : A -> bool) (l : list A) : option nat :=
  match l with
  | [] => None
  | a :: l' => if p a then Some O
               else match findIndex p l' with
                    | Some i => Some (S i)
                    | None => None
                    end
  end.

(** In-place update of the element at index [i]. *)
Fixpoint updateAt {A : Type} (i : nat) (f : A -> A) (l : list A) : list A :=
  match l, i with
  | [], _ => []
  | a :: l', O => f a :: l'
  | a :: l', S j => a :: updateAt j f l'
  end.

(** ['BB', 'CV', 'DD', 'TB']. *)
Definition priority : list Kind := [BB; CV; DD; TB].

(** The new commander gets the flag, an empty route and the patrol
    state. *)
Definition promote (s : Ship) : Ship :=
  set_routeState patrol (set_plannedPath [] (set_isCommander true s)).

(** The loop [for (const type of priority)]: the first living vessel
    of the first class that has one is promoted, after every flag of
    the roster has been cleared. *)
Fixpoint electFrom (types : list Kind) (arr : list Ship)
  : option (list Ship * nat) :=
  match types with
  | [] => None
  | t :: rest =>
      match findIndex (fun s => alive s && Kind_eqb (kind s) t) arr with
      | Some c =>
          Some (updateAt c promote (map (set_isCommander false) arr), c)
      | None => electFrom rest arr
      end
  end.

(** [pickCapitalLeader(arr)]: the roster after the call and the index
    of the returned vessel ([None] for [null]). *)
Definition pickCapitalLeader (arr : list Ship) : list Ship * option nat :=
  match findIndex alive arr with
  | None => (arr, None)
  | Some first =>
      match findIndex (fun s => alive s && isCommander s) arr with
      | Some c => (arr, Some c)
      | None =>
          match electFrom priority arr with
          | Some (arr', c) => (arr', Some c)
          | None =>
              (updateAt first
                 (fun s => set_routeState patrol (set_isCommander true s))
                 arr,
               Some first)
          end
      end
  end.

(** Number of vessels of the roster that carry the commander flag. *)
Definition flags (arr : list Ship) : nat :=
  length (filter isCommander arr).

(** Rank of a class in the succession order BB > CV > DD > TB. *)
Definition rank (k : Kind) : nat :=
  match k with BB => 0 | CV => 1 | DD => 2 | TB => 3 end.

(** [teamArr.filter(s => s.kind.type === k)[0]], by position. *)
Definition firstOfKind (k : Kind) (teamArr : list Ship) : option nat :=
  findIndex (fun s => Kind_eqb (kind s) k) teamArr.

(** [bb[0] || cv[0] || teamArr[0]]. *)
Definition commanderOf (teamArr : list Ship) : option nat :=
  match firstOfKind BB teamArr with
  | Some i => Some i
  | None =>
      match firstOfKind CV teamArr with
      | Some i => Some i
      | None => match teamArr with [] => None | _ :: _ => Some O end
      end
  end.

(** The loop over [escorts], the destroyers and torpedo boats in roster
    order: [s.escortPosition = i]. *)
Fixpoint numberEscorts (i : nat) (teamArr : list Ship) : list Ship :=
  match teamArr with
  | [] => []
  | s :: rest =>
      if Kind_eqb (kind s) DD || Kind_eqb (kind s) TB then
        set_escortPosition (Some i) s :: numberEscorts (S i) rest
      else s :: numberEscorts i rest
  end.

(** [setFormation(teamArr, formKey)] on the fields of the record: the
    commander flag and the escort slots.  The formation key, the offsets
    [formF] and [formR] and [escortTarget], which it also writes, are
    not fields of the record.  On an empty roster it returns before it
    writes anything. *)
Definition setFormation (teamArr : list Ship) : list Ship :=
  match commanderOf teamArr with
  | None => teamArr
  | Some c => numberEscorts 0 (updateAt c (set_isCommander true) teamArr)
  end.

(** The vessels are in place and carry the flags they carried.  The
    array of a team is filled once, by [resetWorld], and [isCommander]
    is written by [mkShip], [setFormation] and [pickCapitalLeader]
    only: this is all that any other code can do to the flags of a
    roster. *)
Definition sameFlags (arr arr' : list Ship) : Prop :=
  Forall2 (fun s s' => isCommander s' = isCommander s) arr arr'.

(** The rosters of a game.  [resetWorld] fills a roster with new vessels
    and calls [setFormation] on it; from then on the roster goes through
    elections and through code that leaves the flags alone. *)
Inductive Reachable : list Ship -> Prop :=
| reach_reset arr :
    Forall (fun s => exists id tm k x0 y0 h, s = mkShip id tm k x0 y0 h) arr ->
    Reachable (setFormation arr)
| reach_other arr arr' :
    Reachable arr -> sameFlags arr arr' -> Reachable arr'
| reach_elect arr :
    Reachable arr -> Reachable (fst (pickCapitalLeader arr)).

End Formation.

(** ** Escort lock state machine

    The block that [capitalAutoPilot], [aiStep] and [aiStepPlayer] of
    js/ai.js run for a vessel that follows a leader, once the distance
    [dForm] to its formation slot is known. *)

Module Lock.
Import Config.

(** Truthiness of [ship.escortLocked]. *)
Definition isLocked (s : Ship) : bool :=
  match escortLocked s with Some b => b | None => false end.

(** [if (ship.escortLocked === undefined) ship.escortLocked = false;
     if (ship.timeInPosition === undefined) ship.timeInPosition = 0;] *)
Definition initLock (s : Ship) : Ship :=
  let s1 := match escortLocked s with
            | None => set_escortLocked (Some false) s
            | Some _ => s
            end in
  if isUndefined (timeInPosition s1) then set_timeInPosition 0 s1 else s1.

(** "Track time in position". *)
Definition trackTime (dForm dt : R) (s : Ship) : Ship :=
  let inRadius := Rleb dForm ESCORT_LOCK_RADIUS in
  if inRadius then set_timeInPosition (timeInPosition s + dt)%js s
  else if negb (isLocked s) then set_timeInPosition 0 s
  else s.

(** The value that the lock / unlock statement writes to
    [ship.escortLocked] in this tick, if it writes one. *)
Definition lockDecision (dForm : R) (s : Ship) : option bool :=
  let farOutside := Rgtb dForm (ESCORT_LOCK_RADIUS * 3) in
  if isLocked s && farOutside then Some false
  else if negb (isLocked s) && (timeInPosition s >=? 2)%js then Some true
  else None.

(** One tick of the lock state machine. *)
Definition escortLockStep (dForm dt : R) (s : Ship) : Ship :=
  let s1 := trackTime dForm dt (initLock s) in
  match lockDecision dForm s1 with
  | Some false => set_timeInPosition 0 (set_escortLocked (Some false) s1)
  | Some true => set_escortLocked (Some true) s1
  | None => s1
  end.

(** A history of ticks, oldest first: the distance to the slot and the
    time step of each. *)
Definition Tick : Type := (R * R)%type.

Definition runLock (ticks : list Tick) (s : Ship) : Ship :=
  fold_left (fun acc t => escortLockStep (fst t) (snd t) acc) ticks s.

Definition inRadius (t : Tick) : Prop := fst t <= ESCORT_LOCK_RADIUS.

Definition sumDt (ticks : list Tick) : R :=
  fold_right (fun t acc => snd t + acc) 0 ticks.

(** The time in slot as the next tick reads it: a missing field counts
    as 0. *)
Definition tipOf (s : Ship) : jsnum :=
  if isUndefined (timeInPosition s) then Num 0 else timeInPosition s.

(** While the escort is unlocked, its time in slot is the total time of
    the latest unbroken run of ticks spent inside the lock radius. *)
Definition dwellInv (pre : list Tick) (s : Ship) : Prop :=
  isLocked s = false ->
  exists front run,
    pre = front ++ run /\ Forall inRadius run /\ tipOf s = Num (sumDt run).

End Lock.

(** ** Collision predictor and avoidance steering (js/ai.js) *)

Module Collision.

(** The object that [predictCollision] returns; [futureDist] is absent
    from the emergency answer. *)
Record Prediction : Type := mkPrediction {
  willCollide : bool;
  timeToCollision : jsnum;
  otherShip : nat;
  urgency : jsnum;
  pdx : jsnum;
  pdy : jsnum;
  currentDist : jsnum;
  futureDist : option jsnum
}.

(** Separation of the two ships after [t] seconds on straight courses. *)
Definition separationAt (ship other : Ship) (t : jsnum) : jsnum :=
  let shipFutureX := (x ship + Num (orZero (vx ship)) * t)%js in
  let shipFutureY := (y ship + Num (orZero (vy ship)) * t)%js in
  let otherFutureX := (x other + Num (orZero (vx other)) * t)%js in
  let otherFutureY := (y other + Num (orZero (vy other)) * t)%js in
  jhypot (otherFutureX - shipFutureX)%js (otherFutureY - shipFutureY)%js.

(** One pass of a "track the minimum" loop: the running minimum distance
    and the time at which it was seen. *)
Definition trackMin (ship other : Ship) (acc : jsnum * jsnum) (t : R)
  : jsnum * jsnum :=
  let futureDist := separationAt ship other t in
  if (futureDist <? fst acc)%js then (futureDist, Num t) else acc.

(** The same loop over finite distances, [g t] being the separation at
    time [t]. *)
Definition trackMinR (g : R -> R) (acc : R * R) (t : R) : R * R :=
  if Rlt_dec (g t) (fst acc) then (g t, t) else acc.

(** [predictCollision(ship, other, lookAhead)]; [None] is [null]. *)
Definition predictCollision (ship other : Ship) (lookAhead : R)
  : option Prediction :=
  if negb (alive ship) || negb (alive other) then None
  else if Nat.eqb (sid ship) (sid other) then None
  else
    let dx := (x other - x ship)%js in
    let dy := (y other - y ship)%js in
    let currentDist := jhypot dx dy in
    let collisionDist := radius (kind ship) + radius (kind other) + 40 in
    if (currentDist <? collisionDist + 30)%js then
      Some (mkPrediction true 0 (sid other) 1 dx dy currentDist None)
    else
      let '(minDist, minTime) :=
        fold_left (trackMin ship other) (sampleTimes (5 / 10) lookAhead)
                  (currentDist, Num 0) in
      let relVx := orZero (vx ship) - orZero (vx other) in
      let relVy := orZero (vy ship) - orZero (vy other) in
      let relSpeed := hypot relVx relVy in
      let '(minDist, minTime) :=
        if Rgtb relSpeed (5 / 10) then
          let tcpa :=
            (jopp (dx * relVx + dy * relVy) / Num (relSpeed * relSpeed))%js in
          if (tcpa >? 0)%js && (tcpa <? lookAhead)%js then
            let cpaDist := separationAt ship other tcpa in
            if (cpaDist <? minDist)%js then (cpaDist, tcpa)
            else (minDist, minTime)
          else (minDist, minTime)
        else (minDist, minTime) in
      if (minDist <? collisionDist + 60)%js then
        let urgency :=
          jclamp (1 - jquot minTime lookAhead)%js (2 / 10)%R 1 in
        Some (mkPrediction true minTime (sid other) urgency dx dy currentDist
                           (Some minDist))
      else None.

(** The default value of [lookAhead]. *)
Definition defaultLookAhead : R := 6.

(** The result of [calculateAvoidanceSteering]. *)
Record Steering : Type := mkSteering { steer : jsnum; steerThrottle : R }.

(** The "SMART STEERING" block: the sign of the bias against one threat. *)
Definition steerDirection (ship other : Ship) (dx dy : jsnum) : R :=
  let toOther := jatan2 dy dx in
  let relAngle := jnormAngle (toOther - heading ship)%js in
  let otherInFront := (jabs relAngle <? PI / 2)%js in
  let otherToUs := jatan2 (jopp dy) (jopp dx) in
  let otherRelAngle := jnormAngle (otherToUs - heading other)%js in
  let weAreInFrontOfOther := (jabs otherRelAngle <? PI / 2)%js in
  if otherInFront && negb weAreInFrontOfOther then
    let otherMovingRight :=
      (jsin (jnormAngle (heading other - heading ship)%js) >? 0)%js in
    if otherMovingRight then -1 else 1
  else if negb otherInFront && weAreInFrontOfOther then
    if (relAngle >? 0)%js then -1 else 1
  else
    let steerDir := if (relAngle >? 0)%js then -1 else 1 in
    let myIdx := match escortPosition ship with Some i => i | None => O end in
    let otherIdx := match escortPosition other with Some i => i | None => O end in
    if negb (Nat.eqb myIdx otherIdx) then
      (if Nat.ltb myIdx otherIdx then 1 else -1)
    else steerDir.

(** The gates of the loop body, up to the "Danger check": [None] when
    the loop runs [continue], otherwise the urgency and the time of the
    closest sampled approach. *)
Definition threat (ship other : Ship) : option (jsnum * jsnum) :=
  if negb (alive other) || Nat.eqb (sid other) (sid ship) then None
  else if negb (Team_eqb (team other) (team ship)) then None
  else
    let dx := (x other - x ship)%js in
    let dy := (y other - y ship)%js in
    let dist := jhypot dx dy in
    let collisionDist := radius (kind ship) + radius (kind other) + 25 in
    if (dist >? 200)%js then None
    else
      let '(minFutureDist, collisionTime) :=
        fold_left (trackMin ship other) (sampleTimes (3 / 10) 3)
                  (dist, Num 0) in
      let dangerouslyClose := (dist <? collisionDist + 40)%js in
      let willCollide := (minFutureDist <? collisionDist + 30)%js in
      if negb dangerouslyClose && negb willCollide then None
      else
        let urgency :=
          jclamp (1 - (jmin dist minFutureDist - collisionDist) / 50)%js
                 (3 / 10)%R 1 in
        Some (urgency, collisionTime).

(** One pass of the loop over [allShips]: the running [totalSteer] and
    the alert left on the ship. *)
Definition avoidOne (ship : Ship) (acc : jsnum * option Alert) (other : Ship)
  : jsnum * option Alert :=
  match threat ship other with
  | None => acc
  | Some (urgency, collisionTime) =>
      let dx := (x other - x ship)%js in
      let dy := (y other - y ship)%js in
      let alert :=
        mkAlert ((x ship + x other) / 2)%js ((y ship + y other) / 2)%js
                collisionTime urgency (sid other) in
      let steerDir := steerDirection ship other dx dy in
      let steerStrength := 35 / 100 in
      (fst acc + Num (steerDir * steerStrength) * urgency, Some alert)%js
  end.

(** [calculateAvoidanceSteering(ship, allShips)]: the ship with its
    [collisionPredicted] field rewritten, and the returned object. *)
Definition calculateAvoidanceSteering (ship : Ship) (allShips : list Ship)
  : Ship * Steering :=
  let '(totalSteer, alert) :=
    fold_left (avoidOne ship) allShips (Num 0, None) in
  (set_collisionPredicted alert ship,
   mkSteering (jclamp totalSteer (- (55 / 100))%R (55 / 100)%R) 0).

(** [checkAllCollisions(ship, allShips, lookAhead)] before its final
    sort by urgency. *)
Definition checkAllCollisions (ship : Ship) (allShips : list Ship)
    (lookAhead : R) : list Prediction :=
  flat_map
    (fun other =>
       if negb (alive other) || Nat.eqb (sid other) (sid ship) then []
       else if negb (Team_eqb (team other) (team ship)) then []
       else match predictCollision ship other lookAhead with
            | Some c => [c]
            | None => []
            end)
    allShips.

End Collision.

(** ** Obstacle model (js/ai.js) *)

(** An island: centre and radius; [oid] stands for the identity of the
    object. *)
Record Obstacle : Type := mkObstacle { oid : nat; cx : R; cy : R; cr : R }.

(** [inLand(x, y, pad, state)], the land of the map being [land]:
    the first island whose disc, grown by [pad], holds the point. *)
Fixpoint inLand (x y : jsnum) (pad : R) (land : list Obstacle)
  : option Obstacle :=
  match land with
  | [] => None
  | c :: rest =>
      let dx := (x - cx c)%js in
      let dy := (y - cy c)%js in
      let rr := cr c + pad in
      if (dx * dx + dy * dy <=? rr * rr)%js then Some c
      else inLand x y pad rest
  end.

(** ** Vehicle dynamics (js/ai.js, js/input.js, js/game.js) *)

Module Dynamics.
Import Config.

(** [applyRudder(ship, desiredTurn, dt)]. *)
Definition applyRudder (ship : Ship) (desiredTurn dt : R) : Ship :=
  let targetRudder := clamp desiredTurn (- MAX_RUDDER_ANGLE) MAX_RUDDER_ANGLE in
  let rudderSpeed := 3 / 10 in
  let diff := targetRudder - orZero (rudderAngle ship) in
  let maxChange := rudderSpeed * dt in
  let r1 : jsnum :=
    if Rgtb (Rabs diff) (1 / 100) then
      Num (orZero (rudderAngle ship) + clamp diff (- maxChange) maxChange)
    else if Rltb (Rabs targetRudder) (2 / 100) then
      let returnSpeed := 2 / 10 * dt in
      if Rltb (Rabs (orZero (rudderAngle ship))) returnSpeed then Num 0
      else (Num (orZero (rudderAngle ship))
            - jsign (rudderAngle ship) * Num returnSpeed)%js
    else rudderAngle ship in
  let r2 := jclamp r1 (- MAX_RUDDER_ANGLE)%R MAX_RUDDER_ANGLE in
  let turnFraction := (jabs r2 / MAX_RUDDER_ANGLE)%js in
  let targetTurnRate :=
    (Num (turnRate (kind ship)) * turnFraction * jsign r2)%js in
  let av0 :=
    if isUndefined (angularVel ship) || isNaN (angularVel ship)
    then Num 0 else angularVel ship in
  let angularDiff := (targetTurnRate - av0)%js in
  let maxAngularChange := turnRate (kind ship) * dt * (8 / 10) in
  let av1 :=
    (av0 + jclamp (angularDiff * (6 / 10)%R * dt)
                  (- maxAngularChange)%R maxAngularChange)%js in
  let av2 := (av1 * (98 / 100)%R)%js in
  let heading' := (heading ship + av2 * dt)%js in
  let r3 := if isNaN r2 || isUndefined r2 then Num 0 else r2 in
  set_rudderAngle r3 (set_heading heading' (set_angularVel av2 ship)).

(** [updateAIThrottle(ship, targetThrottle, dt)]. *)
Definition updateAIThrottle (ship : Ship) (targetThrottle dt : R) : Ship :=
  let th0 :=
    if isNaN (throttle ship) || isUndefined (throttle ship)
    then Num 50 else throttle ship in
  let throttleDiff := (targetThrottle - th0)%js in
  let maxChange := THROTTLE_CHANGE_RATE * dt in
  let th1 :=
    if (jabs throttleDiff <=? maxChange)%js then Num targetThrottle
    else (th0 + jsign throttleDiff * maxChange)%js in
  set_throttle (jclamp th1 0 100) ship.

(** [updateThrottle(ship, dt)] of the player; [keyW] and [keyS] tell
    whether the keys are held. *)
Definition updateThrottle (keyW keyS : bool) (ship : Ship) (dt : R) : Ship :=
  let th0 := throttle ship in
  let th1 :=
    if keyW then jmin 100 (th0 + Num (THROTTLE_CHANGE_RATE * dt))%js
    else th0 in
  let th2 :=
    if keyS then jmax (- 100)%R (th1 - Num (THROTTLE_CHANGE_RATE * dt))%js
    else th1 in
  let th3 := if isNaN th2 || isUndefined th2 then Num 50 else th2 in
  set_throttle th3 ship.

(** [applyPlayerRudder(ship, steerInput, dt)]. *)
Definition applyPlayerRudder (ship : Ship) (steerInput dt : R) : Ship :=
  let r1 : jsnum :=
    if negb (Reqb steerInput 0) then
      Num (orZero (rudderAngle ship) + steerInput * RUDDER_MOVE_RATE * dt)
    else
      let returnSpeed := RUDDER_RETURN_RATE * dt in
      if Rltb (Rabs (orZero (rudderAngle ship))) returnSpeed then Num 0
      else (Num (orZero (rudderAngle ship))
            - jsign (rudderAngle ship) * Num returnSpeed)%js in
  let r2 := jclamp r1 (- MAX_RUDDER_ANGLE)%R MAX_RUDDER_ANGLE in
  let turnFraction := (jabs r2 / MAX_RUDDER_ANGLE)%js in
  let targetTurnRate :=
    (Num (turnRate (kind ship)) * turnFraction * jsign r2)%js in
  let av0 :=
    if isUndefined (angularVel ship) || isNaN (angularVel ship)
    then Num 0 else angularVel ship in
  let angularDiff := (targetTurnRate - av0)%js in
  let av1 :=
    (av0 + jclamp (angularDiff * ANGULAR_ACCEL * dt)
                  (- turnRate (kind ship) * dt * 2)%R
                  (turnRate (kind ship) * dt * 2)%R)%js in
  let av2 := (av1 * ANGULAR_INERTIA)%js in
  let heading' := (heading ship + av2 * dt)%js in
  let r3 := if isNaN r2 || isUndefined r2 then Num 0 else r2 in
  set_rudderAngle r3 (set_heading heading' (set_angularVel av2 ship)).

(** [resolveShipLand(ship, dt)] on the kinematic fields (the grounding
    flag, the flooding and the damage it also records are left out). *)
Definition resolveShipLand (land : list Obstacle) (ship : Ship) : Ship :=
  match inLand (x ship) (y ship) (radius (kind ship)) land with
  | None => ship
  | Some hit =>
      let dx := (x ship - cx hit)%js in
      let dy := (y ship - cy hit)%js in
      let d := orElse (jhypot dx dy) 1 in
      let want := cr hit + radius (kind ship) + 5 / 10 in
      let x' := (cx hit + dx / d * want)%js in
      let y' := (cy hit + dy / d * want)%js in
      let nx := (dx / d)%js in
      let ny := (dy / d)%js in
      let vn := (vx ship * nx + vy ship * ny)%js in
      let ship1 := set_y y' (set_x x' ship) in
      if (vn <? 0)%js then
        let vx1 := (vx ship - vn * nx * (18 / 10)%R)%js in
        let vy1 := (vy ship - vn * ny * (18 / 10)%R)%js in
        set_vy (vy1 * (35 / 100)%R)%js (set_vx (vx1 * (35 / 100)%R)%js ship1)
      else ship1
  end.

(** [withinWorld(obj, radius)]. *)
Definition withinWorld (ship : Ship) (rad : R) : Ship :=
  set_y (jclamp (y ship) rad (WORLD_h - rad)%R)
        (set_x (jclamp (x ship) rad (WORLD_w - rad)%R) ship).

(** [physicsStep(ship, dt)] on the kinematic fields (the weapon
    cool-downs and the wake trail it also advances are left out). *)
Definition physicsStep (land : list Obstacle) (ship : Ship) (dt : R) : Ship :=
  let drag :=
    if Kind_eqb (kind ship) BB then DRAG_BB else DRAG_DD in
  if negb (alive ship) then
    set_vy (vy ship * drag)%js (set_vx (vx ship * drag)%js ship)
  else
    let throttleAbs := Rabs (orZero (throttle ship)) in
    let isReverse := Rltb (orZero (throttle ship)) 0 in
    let maxSp :=
      maxSpeed (kind ship) * (if isReverse then REVERSE_SPEED_MULT else 1) in
    let targetSpeed := throttleAbs / 100 * maxSp in
    let cs0 :=
      if isUndefined (currentSpeed ship) then Num 0 else currentSpeed ship in
    let speedInertia := Ror SPEED_INERTIA (92 / 100) in
    let cs1 :=
      (cs0 * speedInertia + Num (targetSpeed * (1 - speedInertia)))%js in
    let direction := if isReverse then -1 else 1 in
    let targetVx := (jcos (heading ship) * cs1 * direction)%js in
    let targetVy := (jsin (heading ship) * cs1 * direction)%js in
    let vx1 := (vx ship * (9 / 10)%R + targetVx * (1 / 10)%R)%js in
    let vy1 := (vy ship * (9 / 10)%R + targetVy * (1 / 10)%R)%js in
    let vx2 := (vx1 * Rpower drag (dt * 60))%js in
    let vy2 := (vy1 * Rpower drag (dt * 60))%js in
    let sp := jhypot vx2 vy2 in
    let '(vx3, vy3) :=
      if (sp >? maxSpeed (kind ship))%js then
        let k := (Num (maxSpeed (kind ship)) / sp)%js in
        ((vx2 * k)%js, (vy2 * k)%js)
      else (vx2, vy2) in
    let x' := (x ship + vx3 * dt)%js in
    let y' := (y ship + vy3 * dt)%js in
    let ship1 :=
      set_y y' (set_x x' (set_vy vy3 (set_vx vx3 (set_currentSpeed cs1 ship)))) in
    withinWorld (resolveShipLand land ship1) (radius (kind ship)).

(** What the decision loop does to the dynamics of one vessel in one
    tick, before [physicsStep] runs: the alternatives of [tick],
    [capitalAutoPilot], [aiStep], [aiStepPlayer] and [playerControl].
    Headings and velocities that the steering code rewrites are finite
    numbers; which ones does not matter below. *)
Inductive NavAction : Type :=
| NavSteer (desiredTurn targetThrottle vx' vy' : R)
    (** [steerToPoint] (one [applyRudder], then a change of velocity)
        and [updateAIThrottle], in either order *)
| NavLocked (heading' vx' vy' : R) (avoid : option R) (leaderSpeed : R)
    (** the locked escort: heading and velocity follow the leader, the
        rudder dodges ([applyRudder]) or decays, the throttle is set
        from the leader's speed *)
| NavPlayer (keyW keyS : bool) (steerInput : R)
    (** [playerControl] *)
| NavIdle
    (** the decision loop returns before it touches the vessel *)
| Sink.
    (** the vessel is lost *)

Definition navUpdate (act : NavAction) (dt : R) (ship : Ship) : Ship :=
  match act with
  | NavSteer desiredTurn targetThrottle vx' vy' =>
      updateAIThrottle
        (set_vy vy' (set_vx vx' (applyRudder ship desiredTurn dt)))
        targetThrottle dt
  | NavLocked heading' vx' vy' avoid leaderSpeed =>
      let s1 := set_vy vy' (set_vx vx' (set_heading heading' ship)) in
      let s2 :=
        match avoid with
        | Some st => applyRudder s1 st dt
        | None =>
            set_rudderAngle (Num (orZero (rudderAngle s1)) * (95 / 100)%R)%js s1
        end in
      set_throttle
        (jclamp (Num leaderSpeed / maxSpeed (kind ship) * 100)%js 0 100) s2
  | NavPlayer keyW keyS steerInput =>
      applyPlayerRudder (updateThrottle keyW keyS ship dt) steerInput dt
  | NavIdle => ship
  | Sink => set_alive false ship
  end.

(** One tick of one vessel: the decision loop, for a living vessel,
    then the physics. *)
Definition shipTick (land : list Obstacle) (ship : Ship)
    (t : NavAction * R) : Ship :=
  let s1 := if alive ship then navUpdate (fst t) (snd t) ship else ship in
  physicsStep land s1 (snd t).

Definition runTicks (land : list Obstacle) (ticks : list (NavAction * R))
    (ship : Ship) : Ship :=
  fold_left (shipTick land) ticks ship.

Definition isPlayerAction (act : NavAction) : bool :=
  match act with NavPlayer _ _ _ => true | _ => false end.

(** The three bounds of the vessel invariant, the throttle being allowed
    down to [lo]. *)
Definition bounded (lo : R) (s : Ship) : Prop :=
  (exists r, rudderAngle s = Num r /\ Rabs r <= MAX_RUDDER_ANGLE) /\
  (exists t, throttle s = Num t /\ lo <= t <= 100) /\
  (exists a b, vx s = Num a /\ vy s = Num b /\
               hypot a b <= maxSpeed (kind s)).

(** The vessel with its corrupt dynamics fields replaced by the safe
    defaults. *)
Definition healed (s : Ship) : Ship :=
  set_angularVel (if isNaN (angularVel s) then Num 0 else angularVel s)
    (set_rudderAngle (if isNaN (rudderAngle s) then Num 0 else rudderAngle s)
       (set_throttle (if isNaN (throttle s) then Num 50 else throttle s) s)).

(** The fields that the physics never writes. *)
Definition sameHelm (s s' : Ship) : Prop :=
  rudderAngle s' = rudderAngle s /\ throttle s' = throttle s /\
  angularVel s' = angularVel s /\ heading s' = heading s /\
  kind s' = kind s /\ alive s' = alive s.

(** The dynamics fields other than the rudder hold numbers. *)
Definition sound (s : Ship) : Prop :=
  exists av h cs,
    angularVel s = Num av /\ heading s = Num h /\ currentSpeed s = Num cs.

(** What the decision loop leaves for [physicsStep]. *)
Definition helmOK (lo : R) (s : Ship) : Prop :=
  (exists r, rudderAngle s = Num r /\ Rabs r <= MAX_RUDDER_ANGLE) /\
  (exists t, throttle s = Num t /\ lo <= t <= 100) /\
  sound s /\ exists a b, vx s = Num a /\ vy s = Num b.

Definition tickInv (lo : R) (s : Ship) : Prop := bounded lo s /\ sound s.

End Dynamics.

(** ** Local avoidance planner and commander route planner (js/ai.js)

    The planners read the class and the position of the ship only; the
    position enters as two finite numbers [sx], [sy]. *)

Module Planner.
Import Config.

(** [c === island]: the same object. *)
Definition Obstacle_eqb (a b : Obstacle) : bool := Nat.eqb (oid a) (oid b).

(** The first [Some] among [f i] for [i] in [l]: a loop that returns
    from inside its body. *)
Fixpoint firstSome {A : Type} (f : nat -> option A) (l : list nat)
  : option A :=
  match l with
  | [] => None
  | i :: rest => match f i with
                 | Some a => Some a
                 | None => firstSome f rest
                 end
  end.

(** The object that [pathCrossesLand] returns. *)
Record Crossing : Type := mkCrossing {
  island : Obstacle; crossT : R; crossX : R; crossY : R; crossD : R
}.

(** The body of the loop over the islands in [pathCrossesLand]. *)
Definition crossesIsland (sx sy vx vy vv pathLen pad : R) (c : Obstacle)
  : option Crossing :=
  let margin := cr c + pad in
  let numChecks := Z.to_nat (Z.max 5 (ceil (pathLen / 200))) in
  match
    firstSome
      (fun i =>
         let t := INR i / INR numChecks in
         let px := sx + vx * t in
         let py := sy + vy * t in
         let dx := px - cx c in
         let dy := py - cy c in
         let d := hypot dx dy in
         if Rltb d margin then Some (mkCrossing c t px py d) else None)
      (seq 0 (S numChecks))
  with
  | Some hit => Some hit
  | None =>
      let t := clamp (((cx c - sx) * vx + (cy c - sy) * vy) / vv) 0 1 in
      let qx := sx + vx * t in
      let qy := sy + vy * t in
      let dx := qx - cx c in
      let dy := qy - cy c in
      let d := hypot dx dy in
      if Rltb d margin then Some (mkCrossing c t qx qy d) else None
  end.

Fixpoint firstCrossing (sx sy vx vy vv pathLen pad : R)
    (land : list Obstacle) : option Crossing :=
  match land with
  | [] => None
  | c :: rest =>
      match crossesIsland sx sy vx vy vv pathLen pad c with
      | Some hit => Some hit
      | None => firstCrossing sx sy vx vy vv pathLen pad rest
      end
  end.

(** [pathCrossesLand(sx, sy, tx, ty, pad, state)]. *)
Definition pathCrossesLand (sx sy tx ty pad : R) (land : list Obstacle)
  : option Crossing :=
  let vx := tx - sx in
  let vy := ty - sy in
  let vv := vx * vx + vy * vy in
  if Rltb vv (1 / 1000000) then None
  else firstCrossing sx sy vx vy vv (sqrt vv) pad land.

(** [while (a > Math.PI) a -= Math.PI * 2;] and
    [while (a < -Math.PI) a += Math.PI * 2;], run for at most [fuel]
    rounds each.  A difference of two values of [atan2] lies in
    [-2 PI, 2 PI], where one round of each is enough. *)
Fixpoint lowerWhileAbovePi (fuel : nat) (a : R) : R :=
  match fuel with
  | O => a
  | S f => if Rlt_dec PI a then lowerWhileAbovePi f (a - PI * 2) else a
  end.

Fixpoint raiseWhileBelowPi (fuel : nat) (a : R) : R :=
  match fuel with
  | O => a
  | S f => if Rlt_dec a (- PI) then raiseWhileBelowPi f (a + PI * 2) else a
  end.

Definition wrapAngle (a : R) : R :=
  raiseWhileBelowPi 2 (lowerWhileAbovePi 2 a).

(** The inner loop of [findWaypointAroundIsland]: the first island,
    other than the one being rounded, that is too close to the
    way-point. *)
Fixpoint firstBlocking (wpX wpY pad : R) (isl : Obstacle)
    (land : list Obstacle) : option Obstacle :=
  match land with
  | [] => None
  | c :: rest =>
      if Obstacle_eqb c isl then firstBlocking wpX wpY pad isl rest
      else
        let dx := wpX - cx c in
        let dy := wpY - cy c in
        let d := hypot dx dy in
        if Rltb d (cr c + pad + 100) then Some c
        else firstBlocking wpX wpY pad isl rest
  end.

(** The outer loop, at most [n] pushes. *)
Fixpoint pushWaypoint (n : nat) (wpX wpY pad : R) (isl : Obstacle)
    (land : list Obstacle) : R * R :=
  match n with
  | O => (wpX, wpY)
  | S n' =>
      match firstBlocking wpX wpY pad isl land with
      | None => (wpX, wpY)
      | Some c =>
          let dx := wpX - cx c in
          let dy := wpY - cy c in
          let pushAngle := atan2 dy dx in
          pushWaypoint n'
            (cx c + cos pushAngle * (cr c + pad + 150))
            (cy c + sin pushAngle * (cr c + pad + 150))
            pad isl land
      end
  end.

(** [findWaypointAroundIsland(sx, sy, tx, ty, island, pad, state)]. *)
Definition findWaypointAroundIsland (sx sy tx ty : R) (isl : Obstacle)
    (pad : R) (land : list Obstacle) : Point :=
  let margin := cr isl + pad + 200 in
  let angleToShip := atan2 (sy - cy isl) (sx - cx isl) in
  let angleToTarget := atan2 (ty - cy isl) (tx - cx isl) in
  let angleDiff := wrapAngle (angleToTarget - angleToShip) in
  let dir := Ror (sign angleDiff) 1 in
  let waypointAngle := angleToShip + dir * PI * (5 / 10) in
  let wpX := cx isl + cos waypointAngle * margin in
  let wpY := cy isl + sin waypointAngle * margin in
  let '(wpX, wpY) := pushWaypoint 6 wpX wpY pad isl land in
  mkPoint (clamp wpX 200 (WORLD_w - 200)) (clamp wpY 200 (WORLD_h - 200)).

(** The first loop of [avoidLandTarget]: at most [n] pushes of the
    target out of the island that holds it. *)
Fixpoint pushTarget (n : nat) (x y pad : R) (land : list Obstacle) : R * R :=
  match n with
  | O => (x, y)
  | S n' =>
      match inLand x y pad land with
      | None => (x, y)
      | Some hit =>
          let dx := x - cx hit in
          let dy := y - cy hit in
          let d := Ror (hypot dx dy) 1 in
          let want := cr hit + pad + 80 in
          pushTarget n' (cx hit + dx / d * want) (cy hit + dy / d * want)
                     pad land
      end
  end.

(** [avoidLandTarget(ship, tx, ty, state)], the spec's [avoidObstacle]. *)
Definition avoidLandTarget (land : list Obstacle) (k : Kind)
    (sx sy tx ty : R) : Point :=
  let pad := radius k + 120 in
  let '(x, y) := pushTarget 8 tx ty pad land in
  match pathCrossesLand sx sy x y pad land with
  | Some crossing =>
      let wp :=
        findWaypointAroundIsland sx sy x y (island crossing) pad land in
      match pathCrossesLand sx sy (px wp) (py wp) pad land with
      | Some wpCrossing =>
          if negb (Obstacle_eqb (island wpCrossing) (island crossing)) then
            let wp2 :=
              findWaypointAroundIsland sx sy (px wp) (py wp)
                                       (island wpCrossing) pad land in
            mkPoint (clamp (px wp2) 50 (WORLD_w - 50))
                    (clamp (py wp2) 50 (WORLD_h - 50))
          else
            mkPoint (clamp (px wp) 50 (WORLD_w - 50))
                    (clamp (py wp) 50 (WORLD_h - 50))
      | None =>
          mkPoint (clamp (px wp) 50 (WORLD_w - 50))
                  (clamp (py wp) 50 (WORLD_h - 50))
      end
  | None => mkPoint (clamp x 50 (WORLD_w - 50)) (clamp y 50 (WORLD_h - 50))
  end.

(** A point is blocked at margin [pad] when [inLand] finds an island. *)
Definition blocked (land : list Obstacle) (pad : R) (p : Point) : Prop :=
  inLand (px p) (py p) pad land <> None.

(** The point keeps more than radius plus margin from every island. *)
Definition clearOf (land : list Obstacle) (pad : R) (p : Point) : Prop :=
  forall c, In c land -> hypot (px p - cx c) (py p - cy c) > cr c + pad.

Definition ESCORT_FORMATION_RADIUS : R := 500.
Definition COMMANDER_LAND_MARGIN : R := 200 + ESCORT_FORMATION_RADIUS.

(** [distanceToNearestLand(x, y, state)]; [None] is [Infinity]. *)
Definition distanceToNearestLand (x y : R) (land : list Obstacle)
  : option R :=
  fold_left
    (fun minDist c =>
       let dx := x - cx c in
       let dy := y - cy c in
       let d := hypot dx dy - cr c in
       match minDist with
       | None => Some d
       | Some m => if Rltb d m then Some d else Some m
       end)
    land None.

(** [isPointSafe(x, y, margin, state)]. *)
Definition isPointSafe (x y margin : R) (land : list Obstacle) : bool :=
  match distanceToNearestLand x y land with
  | None => true
  | Some m => Rgeb m margin
  end.

(** One round of [pushToSafePoint]: the summed push and whether any
    island pushed. *)
Definition totalPush (qx qy margin : R) (land : list Obstacle)
  : R * R * bool :=
  fold_left
    (fun acc c =>
       let '(totalPushX, totalPushY, needsPush) := acc in
       let dx := qx - cx c in
       let dy := qy - cy c in
       let d := hypot dx dy in
       let minDist := cr c + margin in
       if Rltb d minDist && Rgtb d (1 / 10) then
         let pushStrength := minDist - d + 50 in
         (totalPushX + dx / d * pushStrength,
          totalPushY + dy / d * pushStrength, true)
       else acc)
    land (0, 0, false).

Fixpoint pushRounds (n : nat) (qx qy margin : R) (land : list Obstacle)
  : R * R :=
  match n with
  | O => (qx, qy)
  | S n' =>
      let '(totalPushX, totalPushY, needsPush) :=
        totalPush qx qy margin land in
      if negb needsPush then (qx, qy)
      else pushRounds n' (qx + totalPushX) (qy + totalPushY) margin land
  end.

(** [pushToSafePoint(x, y, margin, state)]. *)
Definition pushToSafePoint (x y margin : R) (land : list Obstacle) : Point :=
  let '(qx, qy) := pushRounds 15 x y margin land in
  mkPoint (clamp qx (margin + 100) (WORLD_w - margin - 100))
          (clamp qy (margin + 100) (WORLD_h - margin - 100)).

(** [isDirectPathClear(sx, sy, ex, ey, margin, state)]. *)
Definition isDirectPathClear (sx sy ex ey margin : R)
    (land : list Obstacle) : bool :=
  let steps := Z.to_nat (Z.max 10 (ceil (hypot (ex - sx) (ey - sy) / 100))) in
  forallb
    (fun i =>
       let t := INR i / INR steps in
       let x := sx + (ex - sx) * t in
       let y := sy + (ey - sy) * t in
       isPointSafe x y margin land)
    (seq 0 (S steps)).

(** [doesPathPassNearIsland(sx, sy, ex, ey, island, margin)]. *)
Definition doesPathPassNearIsland (sx sy ex ey : R) (isl : Obstacle)
    (margin : R) : bool :=
  let vx := ex - sx in
  let vy := ey - sy in
  let vv := vx * vx + vy * vy in
  if Rltb vv 1 then false
  else
    let t := clamp (((cx isl - sx) * vx + (cy isl - sy) * vy) / vv) 0 1 in
    let closestX := sx + vx * t in
    let closestY := sy + vy * t in
    let dist := hypot (closestX - cx isl) (closestY - cy isl) in
    Rltb dist (cr isl + margin + 100).

(** [generateCurveAroundIsland(sx, sy, ex, ey, island, margin, state)]. *)
Definition generateCurveAroundIsland (sx sy ex ey : R) (isl : Obstacle)
    (margin : R) (land : list Obstacle) : Point :=
  let curveMargin := cr isl + margin + 150 in
  let angleToStart := atan2 (sy - cy isl) (sx - cx isl) in
  let angleToEnd := atan2 (ey - cy isl) (ex - cx isl) in
  let angleDiff := wrapAngle (angleToEnd - angleToStart) in
  let midAngle := angleToStart + angleDiff * (5 / 10) in
  let wpX := cx isl + cos midAngle * curveMargin in
  let wpY := cy isl + sin midAngle * curveMargin in
  let safeWp := pushToSafePoint wpX wpY margin land in
  mkPoint (px safeWp) (py safeWp).

(** [Array.prototype.sort] with the comparator of [generateSmoothPath]:
    a stable sort by distance from the start.  [c] comes from an earlier
    place of the array than the islands of [l], so at equal distance it
    stays in front. *)
Fixpoint insertByDistance (sx sy : R) (c : Obstacle) (l : list Obstacle)
  : list Obstacle :=
  match l with
  | [] => [c]
  | b :: rest =>
      if Rleb (hypot (cx c - sx) (cy c - sy)) (hypot (cx b - sx) (cy b - sy))
      then c :: b :: rest
      else b :: insertByDistance sx sy c rest
  end.

Definition sortByDistance (sx sy : R) (l : list Obstacle) : list Obstacle :=
  fold_right (insertByDistance sx sy) [] l.

(** The loop of [generateSmoothPath] over the blocking islands. *)
Fixpoint curveAround (currentX currentY ex ey margin : R)
    (blocking land : list Obstacle) : list Point :=
  match blocking with
  | [] => []
  | isl :: rest =>
      let waypoint :=
        generateCurveAroundIsland currentX currentY ex ey isl margin land in
      waypoint :: curveAround (px waypoint) (py waypoint) ex ey margin rest land
  end.

(** [generateSmoothPath(sx, sy, ex, ey, margin, state)]. *)
Definition generateSmoothPath (sx sy ex ey margin : R)
    (land : list Obstacle) : list Point :=
  let safeEnd := pushToSafePoint ex ey margin land in
  let ex := px safeEnd in
  let ey := py safeEnd in
  if isDirectPathClear sx sy ex ey margin land then [mkPoint ex ey]
  else
    let blockingIslands :=
      filter (fun c => doesPathPassNearIsland sx sy ex ey c margin) land in
    match blockingIslands with
    | [] => [mkPoint ex ey]
    | _ =>
        curveAround sx sy ex ey margin
                    (sortByDistance sx sy blockingIslands) land
        ++ [mkPoint ex ey]
    end.

(** [planCommanderRoute(ship, state, targetX, targetY)]. *)
Definition planCommanderRoute (land : list Obstacle) (sx sy : R)
    (targetX targetY : R) : list Point :=
  let margin := COMMANDER_LAND_MARGIN in
  let safeDest := pushToSafePoint targetX targetY margin land in
  let path := generateSmoothPath sx sy (px safeDest) (py safeDest) margin land in
  map (fun wp =>
         if isPointSafe (px wp) (py wp) (margin * (8 / 10)) land then wp
         else pushToSafePoint (px wp) (py wp) margin land)
      path.

(** Islands keep apart: between two coastlines there is room for both
    land margins and 300 more. *)
Definition wellSeparated (land : list Obstacle) (pad : R) : Prop :=
  forall c c', In c land -> In c' land -> c <> c' ->
    cr c + cr c' + 2 * pad + 300 <= hypot (cx c - cx c') (cy c - cy c').

(** Islands keep away from the edge of the world by their land margin
    and 400 more. *)
Definition insideWorld (land : list Obstacle) (pad : R) : Prop :=
  forall c, In c land ->
    0 <= cr c /\
    cr c + pad + 400 <= cx c <= WORLD_w - (cr c + pad + 400) /\
    cr c + pad + 400 <= cy c <= WORLD_h - (cr c + pad + 400).

Definition inBox (m : R) (p : Point) : Prop :=
  m <= px p <= WORLD_w - m /\ m <= py p <= WORLD_h - m.

(** The target after the first loop of [avoidLandTarget]: clear of every
    island, or stuck on the centre of one. *)
Definition settled (land : list Obstacle) (pad : R) (q : R * R) : Prop :=
  clearOf land pad (mkPoint (fst q) (snd q)) \/
  exists h, In h land /\ fst q = cx h /\ snd q = cy h.

End Planner.

(** ** Further navigation helpers (js/ai.js) *)

Module Nav.
Import Config Collision.

(** What two predictions share when the two vessels change places. *)
Definition sameEncounter (p q : option Prediction) : Prop :=
  match p, q with
  | Some u, Some v =>
      timeToCollision u = timeToCollision v /\ urgency u = urgency v /\
      currentDist u = currentDist v /\ futureDist u = futureDist v
  | None, None => True
  | _, _ => False
  end.

(** [collisions.sort((a, b) => b.urgency - a.urgency)]: a stable sort,
    most urgent first. *)
Fixpoint insertByUrgency (p : Prediction) (l : list Prediction)
  : list Prediction :=
  match l with
  | [] => [p]
  | q :: rest =>
      if (urgency q <=? urgency p)%js then p :: q :: rest
      else q :: insertByUrgency p rest
  end.

Definition sortByUrgency (l : list Prediction) : list Prediction :=
  fold_right insertByUrgency [] l.

(** [checkAllCollisions(ship, allShips, lookAhead)] with its final
    sort. *)
Definition checkAllCollisionsSorted (ship : Ship) (allShips : list Ship)
    (lookAhead : R) : list Prediction :=
  sortByUrgency (checkAllCollisions ship allShips lookAhead).

(** The urgencies are finite and never increase along the list. *)
Fixpoint descending (l : list Prediction) : Prop :=
  match l with
  | [] => True
  | p :: rest =>
      Forall (fun q => exists a b, urgency p = Num a /\ urgency q = Num b /\
                                   b <= a) rest /\
      descending rest
  end.

(** [kind.gunRange] of js/config.js. *)
Definition gunRange (k : Kind) : R :=
  match k with DD => 580 | BB => 720 | TB => 0 | CV => 0 end.

(** [calculateAITargetThrottle(ship, distanceToTarget, isInFormation,
    hasEnemy)]; [radarRange] is [RADAR_RANGE], which js/config.js
    derives from the size of the view. *)
Definition calculateAITargetThrottle (radarRange : R) (ship : Ship)
    (distanceToTarget : jsnum) (isInFormation hasEnemy : bool) : R :=
  let FORMATION_THROTTLE := 50 in
  let FORMATION_CRUISE := 75 in
  let CATCHUP_THROTTLE := 100 in
  let PURSUIT_THROTTLE := 85 in
  let PATROL_THROTTLE := 60 in
  let CLOSE_COMBAT_THROTTLE := 70 in
  let FORMATION_CLOSE_DIST := 120 in
  let FORMATION_FAR_DIST := 300 in
  if isInFormation && negb hasEnemy then
    if negb (isUndefined distanceToTarget)
       && (distanceToTarget >? FORMATION_FAR_DIST)%js
    then CATCHUP_THROTTLE
    else if negb (isUndefined distanceToTarget)
            && (distanceToTarget >? FORMATION_CLOSE_DIST)%js
    then
      let t := (orZero distanceToTarget - FORMATION_CLOSE_DIST)
               / (FORMATION_FAR_DIST - FORMATION_CLOSE_DIST) in
      FORMATION_CRUISE + t * (CATCHUP_THROTTLE - FORMATION_CRUISE)
    else FORMATION_THROTTLE
  else if hasEnemy then
    let range := Ror (gunRange (kind ship)) (radarRange * (5 / 10)) in
    if (distanceToTarget >? range * (12 / 10))%js then PURSUIT_THROTTLE
    else if (distanceToTarget >? range * (5 / 10))%js
    then CLOSE_COMBAT_THROTTLE
    else CLOSE_COMBAT_THROTTLE - 10
  else if negb (isUndefined distanceToTarget) && (distanceToTarget <? 150)%js
  then FORMATION_THROTTLE
  else PATROL_THROTTLE.

(** The answer of [checkLandDanger] when [emergency] is true. *)
Record LandDanger : Type := mkLandDanger {
  critical : bool;
  dangerAngle : jsnum;
  dangerIsland : Obstacle;
  dangerUrgency : R
}.

(** The first loop of [checkLandDanger]: the first island the vessel is
    touching. *)
Fixpoint landTouched (ship : Ship) (collisionDist : R)
    (land : list Obstacle) : option LandDanger :=
  match land with
  | [] => None
  | c :: rest =>
      let dx := (x ship - cx c)%js in
      let dy := (y ship - cy c)%js in
      let d := jhypot dx dy in
      if (d <? cr c + collisionDist)%js then
        Some (mkLandDanger true (jatan2 dy dx) c 1)
      else landTouched ship collisionDist rest
  end.

(** The second loop: the first island the vessel reaches within 1.5
    seconds on its present course. *)
Fixpoint landAhead (ship : Ship) (collisionDist : R) (futureX futureY : jsnum)
    (land : list Obstacle) : option LandDanger :=
  match land with
  | [] => None
  | c :: rest =>
      let dx := (futureX - cx c)%js in
      let dy := (futureY - cy c)%js in
      let d := jhypot dx dy in
      if (d <? cr c + collisionDist + 30)%js then
        let toIsland := jatan2 (Num (cy c) - y ship)%js (Num (cx c) - x ship)%js in
        let headingToIsland := jnormAngle (toIsland - heading ship)%js in
        let turnDir := if (headingToIsland >? 0)%js then -1 else 1 in
        let escapeAngle :=
          jnormAngle (heading ship + Num (turnDir * PI * (3 / 10)))%js in
        Some (mkLandDanger false escapeAngle c (4 / 10))
      else landAhead ship collisionDist futureX futureY rest
  end.

(** [checkLandDanger(ship, state)]; [None] is [{ emergency: false }]. *)
Definition checkLandDanger (land : list Obstacle) (ship : Ship)
  : option LandDanger :=
  let collisionDist := radius (kind ship) + 15 in
  match landTouched ship collisionDist land with
  | Some danger => Some danger
  | None =>
      let futureX := (x ship + vx ship * (15 / 10)%R)%js in
      let futureY := (y ship + vy ship * (15 / 10)%R)%js in
      landAhead ship collisionDist futureX futureY land
  end.

(** A point whose coordinates may be corrupt. *)
Record JPoint : Type := mkJPoint { jx : jsnum; jy : jsnum }.

(** [predictPosition(ship, t)]. *)
Definition predictPosition (ship : Ship) (t : R) : JPoint :=
  mkJPoint (x ship + Num (orZero (vx ship)) * t)%js
           (y ship + Num (orZero (vy ship)) * t)%js.

(** [isPointNearShipPath(px, py, ship, lookAhead, margin)]: the [time]
    of the answer when [blocked] is true. *)
Definition isPointNearShipPath (qx qy : jsnum) (ship : Ship)
    (lookAhead margin : R) : option R :=
  let steps := 5%nat in
  Planner.firstSome
    (fun i =>
       let t := INR i / INR steps * lookAhead in
       let pos := predictPosition ship t in
       let dist := jhypot (qx - jx pos)%js (qy - jy pos)%js in
       if (dist <? margin)%js then Some t else None)
    (seq 0 (S steps)).

(** The inner loop of [doesPathCrossShipTrajectory] over the ships: the
    first living ship, other than [excludeShip], whose course comes
    near the point, and when. *)
Fixpoint firstShipNear (qx qy : jsnum) (ships : list Ship) (excludeShip : Ship)
    (lookAhead margin : R) : option (Ship * R) :=
  match ships with
  | [] => None
  | ship :: rest =>
      if negb (alive ship) || Nat.eqb (sid ship) (sid excludeShip) then
        firstShipNear qx qy rest excludeShip lookAhead margin
      else
        let shipMargin := radius (kind ship) + margin in
        match isPointNearShipPath qx qy ship lookAhead shipMargin with
        | Some time => Some (ship, time)
        | None => firstShipNear qx qy rest excludeShip lookAhead margin
        end
  end.

(** [doesPathCrossShipTrajectory(sx, sy, ex, ey, ships, excludeShip,
    lookAhead, margin)]: the [ship] and the [time] of the answer when
    [blocked] is true.  With a path length that is not a number the
    loop over the path does not run. *)
Definition doesPathCrossShipTrajectory (sx sy ex ey : jsnum)
    (ships : list Ship) (excludeShip : Ship) (lookAhead margin : R)
  : option (Ship * R) :=
  match jhypot (ex - sx)%js (ey - sy)%js with
  | Num pathLen =>
      let steps := Z.to_nat (Z.max 5 (ceil (pathLen / 50))) in
      Planner.firstSome
        (fun i =>
           let t := INR i / INR steps in
           let qx := (sx + (ex - sx) * t)%js in
           let qy := (sy + (ey - sy) * t)%js in
           firstShipNear qx qy ships excludeShip lookAhead margin)
        (seq 0 (S steps))
  | _ => None
  end.

(** [findWaypointAroundShip(sx, sy, ex, ey, blockingShip, blockTime,
    margin, allShips, excludeShip)]. *)
Definition findWaypointAroundShip (sx sy ex ey : jsnum) (blockingShip : Ship)
    (blockTime margin : R) (allShips : list Ship) (excludeShip : Ship)
  : JPoint :=
  let blockPos := predictPosition blockingShip blockTime in
  let avoidRadius := radius (kind blockingShip) + margin + 80 in
  let pathAngle := jatan2 (ey - sy)%js (ex - sx)%js in
  let perpLeft := (pathAngle + Num (PI / 2))%js in
  let perpRight := (pathAngle - Num (PI / 2))%js in
  let leftWp :=
    mkJPoint (jx blockPos + jcos perpLeft * avoidRadius)%js
             (jy blockPos + jsin perpLeft * avoidRadius)%js in
  let rightWp :=
    mkJPoint (jx blockPos + jcos perpRight * avoidRadius)%js
             (jy blockPos + jsin perpRight * avoidRadius)%js in
  let leftBlocked :=
    doesPathCrossShipTrajectory sx sy (jx leftWp) (jy leftWp) allShips
                                excludeShip 2 (margin * (8 / 10)) in
  let rightBlocked :=
    doesPathCrossShipTrajectory sx sy (jx rightWp) (jy rightWp) allShips
                                excludeShip 2 (margin * (8 / 10)) in
  let leftDistToEnd := jhypot (jx leftWp - ex)%js (jy leftWp - ey)%js in
  let rightDistToEnd := jhypot (jx rightWp - ex)%js (jy rightWp - ey)%js in
  match leftBlocked, rightBlocked with
  | None, None =>
      if (leftDistToEnd <? rightDistToEnd)%js then leftWp else rightWp
  | None, Some _ => leftWp
  | Some _, None => rightWp
  | Some _, Some _ =>
      let furtherRadius := avoidRadius + 60 in
      if (leftDistToEnd <? rightDistToEnd)%js then
        mkJPoint (jx blockPos + jcos perpLeft * furtherRadius)%js
                 (jy blockPos + jsin perpLeft * furtherRadius)%js
      else
        mkJPoint (jx blockPos + jcos perpRight * furtherRadius)%js
                 (jy blockPos + jsin perpRight * furtherRadius)%js
  end.

(** The loop of [planPathAroundShips], run [n] more times. *)
Fixpoint pathAround (n : nat) (ship : Ship) (currentX currentY : jsnum)
    (destX destY : jsnum) (allShips : list Ship) : list JPoint :=
  match n with
  | O => []
  | S n' =>
      let margin := radius (kind ship) + 60 in
      let lookAhead := 3 in
      match doesPathCrossShipTrajectory currentX currentY destX destY
                                        allShips ship lookAhead margin with
      | None => []
      | Some (blocker, time) =>
          let wp :=
            findWaypointAroundShip currentX currentY destX destY blocker time
                                   margin allShips ship in
          let wpx := jclamp (jx wp) 100 (WORLD_w - 100)%R in
          let wpy := jclamp (jy wp) 100 (WORLD_h - 100)%R in
          mkJPoint wpx wpy
          :: pathAround n' ship wpx wpy destX destY allShips
      end
  end.

(** [planPathAroundShips(ship, targetX, targetY, allShips, state)]. *)
Definition planPathAroundShips (ship : Ship) (targetX targetY : jsnum)
    (allShips : list Ship) : list JPoint :=
  pathAround 3 ship (x ship) (y ship) targetX targetY allShips.

(** A coordinate that, if it is a number at all, lies in [lo, hi]. *)
Definition within (lo hi : R) (v : jsnum) : Prop :=
  match v with Num r => lo <= r <= hi | _ => True end.

(** [dist2] of js/utils.js on numbers that may be corrupt. *)
Definition jdist2 (ax ay bx b_y : jsnum) : jsnum :=
  let dx := (ax - bx)%js in
  let dy := (ay - b_y)%js in
  (dx * dx + dy * dy)%js.

(** [pickTargetDetectable(fromShip, candidates)]; [canSee] is the
    visibility test of js/combat.js.  The running best squared distance
    starts at [Infinity] ([None]). *)
Definition pickTargetDetectable (canSee : Team -> Ship -> bool)
    (fromShip : Ship) (candidates : list Ship) : option Ship :=
  fst (fold_left
         (fun (acc : option Ship * option R) t =>
            if negb (alive t) then acc
            else if negb (canSee (team fromShip) t) then acc
            else
              let d2 := jdist2 (x fromShip) (y fromShip) (x t) (y t) in
              match d2, snd acc with
              | Num d, None => (Some t, Some d)
              | Num d, Some bestD2 =>
                  if Rltb d bestD2 then (Some t, Some d) else acc
              | _, _ => acc
              end)
         candidates (None, None)).

End Nav.

(** ** Spawn formations and escort stations (js/entities.js) *)

Module Stations.
Import Config.

Definition SPAWN_SEP : R := 90 * MAP_SCALE.
Definition SPAWN_SIDE : R := 70 * MAP_SCALE.
Definition FORM_SIDE : R := 35 * MAP_SCALE.

(** The formation keys: every key other than ['screen'] gives the line
    ahead. *)
Inductive FormKey : Type := lineAhead | screen.

(** [formationOffsets(formKey, count, forSpawn)]: pairs
    [[forward, right]]. *)
Definition formationOffsets (formKey : FormKey) (count : nat)
    (forSpawn : bool) : list (R * R) :=
  let sep := if forSpawn then SPAWN_SEP else FORM_SEP in
  let side := if forSpawn then SPAWN_SIDE else FORM_SIDE in
  let n := Nat.max 1 count in
  map (fun i =>
         match i with
         | O => (0, 0)
         | _ =>
             match formKey with
             | screen =>
                 let row := Nat.div2 (S i) in
                 let lr := if Nat.odd i then -1 else 1 in
                 (- INR row * sep, lr * side)
             | lineAhead => (- INR i * sep, 0)
             end
         end)
      (seq 0 n).

(** [formationSpawns(anchor, formKey, count)], the anchor being
    [[x0, y0, a0]]: triples [[x, y, a0]]. *)
Definition formationSpawns (x0 y0 a0 : R) (formKey : FormKey) (count : nat)
  : list (R * R * R) :=
  let offs := formationOffsets formKey count true in
  let ca := cos a0 in
  let sa := sin a0 in
  let nx := - sa in
  let ny := ca in
  map (fun o =>
         let f := fst o in
         let r := snd o in
         (x0 + ca * f + nx * r, y0 + sa * f + ny * r, a0))
      (firstn count offs).

(** The zones of the escort screen. *)
Inductive Zone : Type := zoneFront | zoneFrontSide | zoneBackSide.

(** One escort station: [priority], [angle], [formF], [formR], [zone]. *)
Record EscortSlot : Type := mkEscortSlot {
  slotPriority : nat;
  slotAngle : R;
  slotF : R;
  slotR : R;
  slotZone : Zone
}.

(** [getEscortPositions(numPositions, sep)]. *)
Definition getEscortPositions (numPositions : nat) (sep : R)
  : list EscortSlot :=
  let outerRingRadius := sep * 4 in
  let frontCount := Nat.min 6 numPositions in
  let frontSlots :=
    map (fun i =>
           let angle :=
             (INR i / INR (Nat.max 1 (frontCount - 1)) - 5 / 10)
             * PI * (7 / 10) in
           mkEscortSlot i angle (cos angle * outerRingRadius)
                        (sin angle * outerRingRadius) zoneFront)
        (seq 0 frontCount) in
  let frontSideCount := Nat.min 4 (numPositions - frontCount) in
  let frontSideSlots :=
    map (fun i =>
           let side := if Nat.even i then 1 else -1 in
           let idx := Nat.div2 i in
           let angle := side * (PI * (45 / 100) + INR idx * (25 / 100)) in
           mkEscortSlot (frontCount + i) angle
                        (cos angle * outerRingRadius * (9 / 10))
                        (sin angle * outerRingRadius * (9 / 10))
                        zoneFrontSide)
        (seq 0 frontSideCount) in
  let backSideCount := (numPositions - frontCount - frontSideCount)%nat in
  let backSideSlots :=
    map (fun i =>
           let side := if Nat.even i then 1 else -1 in
           let idx := Nat.div2 i in
           let angle := side * (PI * (7 / 10) + INR idx * (2 / 10)) in
           mkEscortSlot (frontCount + frontSideCount + i) angle
                        (cos angle * outerRingRadius * (85 / 100))
                        (sin angle * outerRingRadius * (85 / 100))
                        zoneBackSide)
        (seq 0 backSideCount) in
  frontSlots ++ frontSideSlots ++ backSideSlots.

(** The ring of a zone, as a fraction of the outer ring. *)
Definition ringFactor (z : Zone) : R :=
  match z with
  | zoneFront => 1
  | zoneFrontSide => 9 / 10
  | zoneBackSide => 85 / 100
  end.

(** [s'] is [s] up to the commander flag, the planned path and the route
    state. *)
Definition sameHull (s s' : Ship) : Prop :=
  set_routeState (routeState s)
    (set_plannedPath (plannedPath s)
       (set_isCommander (isCommander s) s')) = s.

End Stations.

(** ** The wake trail (js/game.js) *)

Module Wake.
Import Nav.

(** A point of the wake: [{ x, y, t }]. *)
Record TrailPoint : Type := mkTrailPoint { trailX : jsnum; trailY : jsnum; trailT : R }.

(** [while (trail.length && state.time - trail[0].t > 5.2) trail.shift()]. *)
Fixpoint dropStale (time : R) (trail : list TrailPoint) : list TrailPoint :=
  match trail with
  | [] => []
  | p :: rest =>
      if Rgtb (time - trailT p) (52 / 10) then dropStale time rest
      else p :: rest
  end.

(** [trailStep(ship)]: the [trail] array of the ship before and after,
    [time] being [state.time]. *)
Definition trailStep (time : R) (ship : Ship) (trail : list TrailPoint)
  : list TrailPoint :=
  if negb (alive ship) then trail
  else
    let minD2 := 9 in
    let far :=
      match last (map Some trail) None with
      | None => true
      | Some l => (jdist2 (trailX l) (trailY l) (x ship) (y ship) >? minD2)%js
      end in
    let trail1 :=
      if far then
        let pushed := trail ++ [mkTrailPoint (x ship) (y ship) time] in
        if Nat.ltb 120 (length pushed) then tl pushed else pushed
      else trail in
    dropStale time trail1.

(** The times of the wake never decrease along the array. *)
Fixpoint ascending (trail : list TrailPoint) : Prop :=
  match trail with
  | [] => True
  | p :: rest => Forall (fun q => trailT p <= trailT q) rest /\ ascending rest
  end.

End Wake.

(** ** Sample vessels *)

(** A new vessel that already has way on. *)
Definition underway (id : nat) (tm : Team) (k : Kind)
    (x0 y0 vx0 vy0 h : R) : Ship :=
  set_vy (Num vy0) (set_vx (Num vx0) (mkShip id tm k x0 y0 h)).

(** Two destroyers of one team, 250 units apart and closing. *)
Definition farA : Ship := underway 0 P DD 0 0 30 0 0.
Definition farB : Ship := underway 1 P DD 250 0 (- 30) 0 PI.

(** Two destroyers of one team at rest, 50 units apart. *)
Definition nearA : Ship := mkShip 0 P DD 0 0 0.
Definition nearB : Ship := mkShip 1 P DD 50 0 0.

(** A vessel whose rudder angle has become [NaN]. *)
Definition corruptRudder : Ship := set_rudderAngle NaN (mkShip 0 P DD 0 0 0).

(** ** Sample rosters *)

(** A battleship and a destroyer as [resetWorld] leaves them, the
    battleship since sunk. *)
Definition flagshipLost : list Ship :=
  Formation.updateAt 0 (set_alive false)
    (Formation.setFormation [mkShip 0 P BB 0 0 0; mkShip 1 P DD 100 0 0]).

(** A roster whose flagged battleship has sunk; a carrier, a destroyer
    and a torpedo boat survive. *)
Definition afterLoss : list Ship :=
  [ mkShip 0 P TB 0 0 0;
    set_alive false (set_isCommander true (mkShip 1 P BB 50 0 0));
    mkShip 2 P DD 100 0 0;
    mkShip 3 P CV 150 0 0 ].

(** ** Sample maps *)

(** One island between the commander and its destination. *)
Definition theIsland : Obstacle := mkObstacle 0 500 1000 200.
Definition oneIsland : list Obstacle := [theIsland].

(** Two islands whose coastlines are 244 apart. *)
Definition islandA : Obstacle := mkObstacle 0 3000 3000 300.
Definition islandB : Obstacle := mkObstacle 1 3000 3644 100.
Definition twoIslands : list Obstacle := [islandA; islandB].

(** [MAPS[2]] of config.js, Leyte Gulf (1944): the islands in the order
    of the array. *)
Definition leyte0 : Obstacle :=
  mkObstacle 0 (1180 * Config.MAP_SCALE) (520 * Config.MAP_SCALE)
             (160 * Config.MAP_SCALE).
Definition leyte1 : Obstacle :=
  mkObstacle 1 (1320 * Config.MAP_SCALE) (720 * Config.MAP_SCALE)
             (180 * Config.MAP_SCALE).
Definition leyte2 : Obstacle :=
  mkObstacle 2 (980 * Config.MAP_SCALE) (760 * Config.MAP_SCALE)
             (140 * Config.MAP_SCALE).
Definition leyte3 : Obstacle :=
  mkObstacle 3 (1640 * Config.MAP_SCALE) (980 * Config.MAP_SCALE)
             (210 * Config.MAP_SCALE).
Definition leyte4 : Obstacle :=
  mkObstacle 4 (1360 * Config.MAP_SCALE) (1120 * Config.MAP_SCALE)
             (160 * Config.MAP_SCALE).
Definition leyte5 : Obstacle :=
  mkObstacle 5 (980 * Config.MAP_SCALE) (1200 * Config.MAP_SCALE)
             (150 * Config.MAP_SCALE).
Definition leyteGulf : list Obstacle :=
  [leyte0; leyte1; leyte2; leyte3; leyte4; leyte5].

(** Two islands in open water. *)
Definition openSea : list Obstacle :=
  [mkObstacle 0 3000 3000 300; mkObstacle 1 5200 3000 200].

(* ===================================================================== *)
(** * Part II.  Properties                                                *)
(* ===================================================================== *)

(** Decide the comparisons of concrete reals that block a computation. *)
Ltac Rdec :=
  repeat match goal with
         | |- context [Rle_dec ?a ?b] =>
             destruct (Rle_dec a b); try (exfalso; lra)
         | |- context [Rlt_dec ?a ?b] =>
             destruct (Rlt_dec a b); try (exfalso; lra)
         | |- context [Req_dec_T ?a ?b] =>
             destruct (Req_dec_T a b); try (exfalso; lra)
         end.

(** ** Arithmetic helpers *)

Lemma clamp_bounds v lo hi : lo <= hi -> lo <= clamp v lo hi <= hi.
Proof.
  intros H. unfold clamp. split.
  - apply Rmax_l.
  - apply Rmax_lub; [exact H | apply Rmin_l].
Qed.

Lemma clamp_id v lo hi : lo <= v <= hi -> clamp v lo hi = v.
Proof.
  intros [H1 H2]. unfold clamp. rewrite Rmin_right by exact H2.
  apply Rmax_right; exact H1.
Qed.

(** ** Commander election *)

Section FormationFacts.
Import Formation.

Lemma findIndex_Some {A} (p : A -> bool) l i :
  findIndex p l = Some i ->
  exists a, nth_error l i = Some a /\ p a = true /\
            forall j b, (j < i)%nat -> nth_error l j = Some b -> p b = false.
Proof.
  revert i; induction l as [|a l IH]; intros i H; simpl in H; [discriminate|].
  destruct (p a) eqn:Hp.
  - injection H as <-. exists a; repeat split; auto. intros j b Hj; lia.
  - destruct (findIndex p l) as [k|] eqn:Hk; [|discriminate].
    injection H as <-. destruct (IH k eq_refl) as (a' & Hn & Hpa & Hlt).
    exists a'; repeat split; auto.
    intros [|j] b Hj Hb; simpl in Hb.
    + congruence.
    + apply (Hlt j); [lia | assumption].
Qed.

Lemma findIndex_None {A} (p : A -> bool) l :
  findIndex p l = None -> forall a, In a l -> p a = false.
Proof.
  induction l as [|a l IH]; intros H b Hb; simpl in *; [tauto|].
  destruct (p a) eqn:Hp; [discriminate|].
  destruct (findIndex p l) eqn:Hk; [discriminate|].
  destruct Hb as [<-|Hb]; auto.
Qed.

Lemma findIndex_exists {A} (p : A -> bool) l a :
  In a l -> p a = true -> exists i, findIndex p l = Some i.
Proof.
  intros Hin Hp. destruct (findIndex p l) as [i|] eqn:Hf; [eauto|].
  rewrite (findIndex_None p l Hf a Hin) in Hp; discriminate.
Qed.

Lemma flags_cleared arr : flags (map (set_isCommander false) arr) = 0%nat.
Proof. unfold flags. induction arr as [|a l IH]; simpl; auto. Qed.

Lemma flags_updateAt_set (f : Ship -> Ship) arr c s :
  (forall u, isCommander (f u) = true) ->
  nth_error arr c = Some s -> isCommander s = false ->
  flags (updateAt c f arr) = S (flags arr).
Proof.
  intros Hf. unfold flags. revert c; induction arr as [|a l IH]; intros c Hn Hs.
  - destruct c; discriminate.
  - destruct c as [|c]; simpl in *.
    + injection Hn as ->. rewrite Hf, Hs. reflexivity.
    + destruct (isCommander a); simpl; rewrite (IH c Hn Hs); reflexivity.
Qed.

Lemma nth_error_updateAt {A} (f : A -> A) l c a :
  nth_error l c = Some a -> nth_error (updateAt c f l) c = Some (f a).
Proof.
  revert c; induction l as [|b l IH]; intros [|c] H; simpl in *;
    try discriminate; [congruence | auto].
Qed.

Lemma nth_error_map_Some {A B} (f : A -> B) l c a :
  nth_error l c = Some a -> nth_error (map f l) c = Some (f a).
Proof. intros H. rewrite nth_error_map, H. reflexivity. Qed.

Lemma electFrom_Some types arr arr' c :
  electFrom types arr = Some (arr', c) ->
  exists s t, nth_error arr c = Some s /\ alive s = true /\ kind s = t /\
    In t types /\
    arr' = updateAt c promote (map (set_isCommander false) arr).
Proof.
  induction types as [|t rest IH]; simpl; [discriminate|].
  destruct (findIndex _ arr) as [i|] eqn:Hf.
  - intros H; injection H as <- <-.
    destruct (findIndex_Some _ _ _ Hf) as (s & Hn & Hp & _).
    apply andb_prop in Hp as [Ha Hk].
    exists s, t; repeat split; auto.
    + destruct (kind s), t; simpl in Hk; congruence.
  - intros H. destruct (IH H) as (s & t' & ?&?&?&?&?).
    exists s, t'; repeat split; auto.
Qed.

Lemma Kind_eqb_refl k : Kind_eqb k k = true.
Proof. destruct k; reflexivity. Qed.

Lemma electFrom_total arr s :
  In s arr -> alive s = true -> exists r, electFrom priority arr = Some r.
Proof.
  intros Hin Ha.
  assert (Hk : forall t, kind s = t ->
            exists i, findIndex (fun u => alive u && Kind_eqb (kind u) t) arr = Some i).
  { intros t <-. apply (findIndex_exists _ arr s Hin).
    rewrite Ha, Kind_eqb_refl; reflexivity. }
  unfold priority; simpl.
  destruct (findIndex (fun u => alive u && Kind_eqb (kind u) BB) arr) eqn:H1; [eauto|].
  destruct (findIndex (fun u => alive u && Kind_eqb (kind u) CV) arr) eqn:H2; [eauto|].
  destruct (findIndex (fun u => alive u && Kind_eqb (kind u) DD) arr) eqn:H3; [eauto|].
  destruct (findIndex (fun u => alive u && Kind_eqb (kind u) TB) arr) eqn:H4; [eauto|].
  destruct (kind s) eqn:Ek.
  - destruct (Hk DD eq_refl); congruence.
  - destruct (Hk BB eq_refl); congruence.
  - destruct (Hk TB eq_refl); congruence.
  - destruct (Hk CV eq_refl); congruence.
Qed.

Lemma flags_ge_1 arr c s :
  nth_error arr c = Some s -> isCommander s = true -> (1 <= flags arr)%nat.
Proof.
  unfold flags. revert c; induction arr as [|a l IH]; intros [|c] Hn Hs;
    simpl in *; try discriminate.
  - injection Hn as ->. rewrite Hs. simpl. lia.
  - destruct (isCommander a); simpl; [lia | eauto].
Qed.

Lemma promote_keeps s :
  isCommander (promote s) = true /\ alive (promote s) = alive s /\
  kind (promote s) = kind s.
Proof. destruct s; repeat split. Qed.

(** From at most one flag, the election leaves exactly one, on the
    vessel it returns, which is alive. *)
Lemma election_from_one_flag (arr : list Ship) :
  (exists s, In s arr /\ alive s = true) ->
  (flags arr <= 1)%nat ->
  exists arr' c ldr,
    pickCapitalLeader arr = (arr', Some c) /\
    flags arr' = 1%nat /\
    nth_error arr' c = Some ldr /\
    isCommander ldr = true /\ alive ldr = true.
Proof.
  intros (s0 & Hin & Hal) Hflags. unfold pickCapitalLeader.
  destruct (findIndex_exists alive arr s0 Hin Hal) as [first ->].
  destruct (findIndex (fun s => alive s && isCommander s) arr) as [c|] eqn:Hc.
  - destruct (findIndex_Some _ _ _ Hc) as (s & Hn & Hp & _).
    apply andb_prop in Hp as [Ha Hf].
    exists arr, c, s; repeat split; auto.
    pose proof (flags_ge_1 arr c s Hn Hf). lia.
  - destruct (electFrom_total arr s0 Hin Hal) as [[arr' c] He].
    rewrite He.
    destruct (electFrom_Some _ _ _ _ He) as (s & t & Hn & Ha & _ & _ & ->).
    pose proof (nth_error_map_Some (set_isCommander false) arr c s Hn) as Hn'.
    exists (updateAt c promote (map (set_isCommander false) arr)), c,
      (promote (set_isCommander false s)).
    split; [reflexivity|]. split; [|split; [|split]].
    + rewrite (flags_updateAt_set promote _ c _ (fun u => proj1 (promote_keeps u)) Hn').
      * rewrite flags_cleared; reflexivity.
      * destruct s; reflexivity.
    + apply nth_error_updateAt; exact Hn'.
    + apply promote_keeps.
    + destruct s; simpl in *; exact Ha.
Qed.

Lemma flags_numberEscorts i arr : flags (numberEscorts i arr) = flags arr.
Proof.
  unfold flags. revert i; induction arr as [|s arr IH]; intros i;
    cbn [numberEscorts]; [reflexivity|].
  destruct (Kind_eqb (kind s) DD || Kind_eqb (kind s) TB); cbn [filter].
  - replace (isCommander (set_escortPosition (Some i) s)) with (isCommander s)
      by (destruct s; reflexivity).
    destruct (isCommander s); cbn [length]; rewrite IH; reflexivity.
  - destruct (isCommander s); cbn [length]; rewrite IH; reflexivity.
Qed.

(** A roster of new vessels carries no flag. *)
Lemma flags_fresh arr :
  Forall (fun s => exists id tm k x0 y0 h, s = mkShip id tm k x0 y0 h) arr ->
  flags arr = 0%nat /\ forall s, In s arr -> isCommander s = false.
Proof.
  unfold flags. induction 1 as [|s arr (id & tm & k & x0 & y0 & h & ->) _ IH].
  - split; [reflexivity | intros s []].
  - destruct IH as [IH1 IH2]. cbn [filter isCommander mkShip].
    split; [exact IH1|].
    intros s [<-|Hs]; [reflexivity | auto].
Qed.

Lemma commanderOf_valid arr c :
  commanderOf arr = Some c -> exists s, nth_error arr c = Some s.
Proof.
  unfold commanderOf, firstOfKind.
  destruct (findIndex _ arr) as [i|] eqn:E1.
  - intros H; injection H as <-.
    destruct (findIndex_Some _ _ _ E1) as (s & Hs & _). eauto.
  - destruct (findIndex (fun s => Kind_eqb (kind s) CV) arr) as [i|] eqn:E2.
    + intros H; injection H as <-.
      destruct (findIndex_Some _ _ _ E2) as (s & Hs & _). eauto.
    + destruct arr as [|s arr]; [discriminate|].
      intros H; injection H as <-. exists s. reflexivity.
Qed.

(** [setFormation] on a roster of new vessels flags one vessel at
    most. *)
Lemma flags_setFormation arr :
  Forall (fun s => exists id tm k x0 y0 h, s = mkShip id tm k x0 y0 h) arr ->
  (flags (setFormation arr) <= 1)%nat.
Proof.
  intros Hf. destruct (flags_fresh arr Hf) as [H0 Hall].
  unfold setFormation. destruct (commanderOf arr) as [c|] eqn:Ec; [|lia].
  destruct (commanderOf_valid arr c Ec) as [s Hs].
  rewrite flags_numberEscorts.
  rewrite (flags_updateAt_set (set_isCommander true) arr c s); [lia| |exact Hs|].
  - intros u. destruct u; reflexivity.
  - apply Hall. eapply nth_error_In. exact Hs.
Qed.

Lemma flags_sameFlags arr arr' : sameFlags arr arr' -> flags arr' = flags arr.
Proof.
  unfold sameFlags, flags. induction 1 as [|s s' arr arr' Hs _ IH];
    [reflexivity|].
  cbn [filter]. rewrite Hs. destruct (isCommander s); cbn [length];
    rewrite IH; reflexivity.
Qed.

(** No roster of a game ever carries two commander flags. *)
Lemma reachable_flags arr : Reachable arr -> (flags arr <= 1)%nat.
Proof.
  induction 1 as [arr Hf | arr arr' _ IH Hs | arr _ IH].
  - apply flags_setFormation. exact Hf.
  - rewrite (flags_sameFlags arr arr' Hs). exact IH.
  - destruct (findIndex alive arr) as [first|] eqn:Ef.
    + destruct (findIndex_Some _ _ _ Ef) as (s & Hn & Ha & _).
      destruct (election_from_one_flag arr) as (arr' & c & ldr & He & Hfl & _);
        [exists s; split; [eapply nth_error_In; exact Hn | exact Ha]
        | exact IH |].
      rewrite He. cbn [fst]. lia.
    + unfold pickCapitalLeader. rewrite Ef. cbn [fst]. exact IH.
Qed.

(** C2: on every roster of a game (filled by [resetWorld] with new
    vessels, put in formation by [setFormation], and since then changed
    by elections and by code that does not write the flag) that holds a
    living vessel, after [pickCapitalLeader] exactly one vessel carries
    the commander flag, and that vessel, the one returned, is alive. *)
Theorem pickCapitalLeader_exactly_one (arr : list Ship) :
  Reachable arr ->
  (exists s, In s arr /\ alive s = true) ->
  exists arr' c ldr,
    pickCapitalLeader arr = (arr', Some c) /\
    flags arr' = 1%nat /\
    nth_error arr' c = Some ldr /\
    isCommander ldr = true /\ alive ldr = true.
Proof.
  intros Hr Hliving. apply election_from_one_flag; [exact Hliving|].
  apply reachable_flags. exact Hr.
Qed.

Lemma pickCapitalLeader_exactly_one_witness :
  exists arr' c ldr,
    pickCapitalLeader flagshipLost = (arr', Some c) /\
    flags arr' = 1%nat /\
    nth_error arr' c = Some ldr /\
    isCommander ldr = true /\ alive ldr = true.
Proof.
  apply (pickCapitalLeader_exactly_one flagshipLost).
  - apply (reach_other
             (setFormation [mkShip 0 P BB 0 0 0; mkShip 1 P DD 100 0 0])).
    + apply reach_reset.
      constructor; [do 6 eexists; reflexivity|].
      constructor; [do 6 eexists; reflexivity | constructor].
    + unfold flagshipLost, sameFlags. cbn. repeat constructor.
  - exists (set_escortPosition (Some 0%nat) (mkShip 1 P DD 100 0 0)).
    split; [right; left; reflexivity | reflexivity].
Defined.

Lemma no_living_of_kind arr t :
  findIndex (fun s => alive s && Kind_eqb (kind s) t) arr = None ->
  forall s, In s arr -> alive s = true -> kind s <> t.
Proof.
  intros Hf s Hin Ha Hk. pose proof (findIndex_None _ _ Hf s Hin) as H.
  simpl in H. rewrite Ha, Hk, Kind_eqb_refl in H. discriminate.
Qed.

(** C3: when no living vessel carries the commander flag, the vessel
    that [pickCapitalLeader] returns is alive and belongs to the first
    class, in the order BB > CV > DD > TB, that has a living vessel: no
    living vessel of the roster has a class of higher priority. *)
Theorem pickCapitalLeader_priority (arr : list Ship) :
  (forall s, In s arr -> alive s = true -> isCommander s = false) ->
  (exists s, In s arr /\ alive s = true) ->
  exists arr' c ldr,
    pickCapitalLeader arr = (arr', Some c) /\
    nth_error arr' c = Some ldr /\
    alive ldr = true /\ isCommander ldr = true /\
    (exists old, nth_error arr c = Some old /\ kind old = kind ldr /\
                 alive old = true) /\
    forall s, In s arr -> alive s = true ->
              (rank (kind ldr) <= rank (kind s))%nat.
Proof.
  intros Hnone (s0 & Hin & Hal). unfold pickCapitalLeader.
  destruct (findIndex_exists alive arr s0 Hin Hal) as [first ->].
  destruct (findIndex (fun s => alive s && isCommander s) arr) as [c|] eqn:Hc.
  { destruct (findIndex_Some _ _ _ Hc) as (s & Hn & Hp & _).
    apply andb_prop in Hp as [Ha Hf].
    rewrite (Hnone s (nth_error_In _ _ Hn) Ha) in Hf. discriminate. }
  destruct (electFrom_total arr s0 Hin Hal) as [[arr' c] He]. rewrite He.
  destruct (electFrom_Some _ _ _ _ He) as (s & t & Hn & Ha & Hk & _ & ->).
  pose proof (nth_error_map_Some (set_isCommander false) arr c s Hn) as Hn'.
  exists (updateAt c promote (map (set_isCommander false) arr)), c,
    (promote (set_isCommander false s)).
  split; [reflexivity|].
  split; [apply nth_error_updateAt; exact Hn'|].
  split; [destruct s; exact Ha|].
  split; [apply promote_keeps|].
  split; [exists s; repeat split; auto; destruct s; reflexivity|].
  assert (Hkk : kind (promote (set_isCommander false s)) = t)
    by (destruct s; exact Hk).
  rewrite Hkk. clear Hkk.
  intros u Hu Hua.
  unfold priority in He; simpl in He.
  destruct (findIndex (fun s => alive s && Kind_eqb (kind s) BB) arr) as [i1|] eqn:H1.
  { injection He as _ Hci. subst i1.
    destruct (findIndex_Some _ _ _ H1) as (s' & Hn1 & Hp1 & _).
    assert (s' = s) by congruence. subst s'.
    apply andb_prop in Hp1 as [_ Hp1]. rewrite Hk in Hp1.
    destruct t; try discriminate. simpl; lia. }
  pose proof (no_living_of_kind arr BB H1 u Hu Hua) as N1.
  destruct (findIndex (fun s => alive s && Kind_eqb (kind s) CV) arr) as [i2|] eqn:H2.
  { injection He as _ Hci. subst i2.
    destruct (findIndex_Some _ _ _ H2) as (s' & Hn1 & Hp1 & _).
    assert (s' = s) by congruence. subst s'.
    apply andb_prop in Hp1 as [_ Hp1]. rewrite Hk in Hp1.
    destruct t; try discriminate. destruct (kind u); simpl; try lia; congruence. }
  pose proof (no_living_of_kind arr CV H2 u Hu Hua) as N2.
  destruct (findIndex (fun s => alive s && Kind_eqb (kind s) DD) arr) as [i3|] eqn:H3.
  { injection He as _ Hci. subst i3.
    destruct (findIndex_Some _ _ _ H3) as (s' & Hn1 & Hp1 & _).
    assert (s' = s) by congruence. subst s'.
    apply andb_prop in Hp1 as [_ Hp1]. rewrite Hk in Hp1.
    destruct t; try discriminate. destruct (kind u); simpl; try lia; congruence. }
  pose proof (no_living_of_kind arr DD H3 u Hu Hua) as N3.
  destruct (kind u); try congruence. destruct t; simpl; lia.
Qed.

Lemma pickCapitalLeader_priority_witness :
  exists arr' c ldr,
    pickCapitalLeader afterLoss = (arr', Some c) /\
    nth_error arr' c = Some ldr /\
    alive ldr = true /\ isCommander ldr = true /\
    (exists old, nth_error afterLoss c = Some old /\ kind old = kind ldr /\
                 alive old = true) /\
    forall s, In s afterLoss -> alive s = true ->
              (rank (kind ldr) <= rank (kind s))%nat.
Proof.
  apply (pickCapitalLeader_priority afterLoss).
  - intros s Hs Ha. simpl in Hs.
    destruct Hs as [<-|[<-|[<-|[<-|[]]]]]; try reflexivity; discriminate.
  - exists (mkShip 0 P TB 0 0 0); split; [left; reflexivity | reflexivity].
Defined.

End FormationFacts.

(** ** Escort lock state machine *)

Section LockFacts.
Import Config Lock.

Ltac lock_unfold :=
  unfold escortLockStep, lockDecision, trackTime, initLock, isLocked, tipOf,
    jge, jadd, cmp2, lift2, Rgeb, Rgtb, Rleb, Rltb in *; simpl in *.

Lemma sumDt_app a b : sumDt (a ++ b) = sumDt a + sumDt b.
Proof. induction a as [|t a IH]; simpl; [lra | rewrite IH; lra]. Qed.

Lemma runLock_snoc pre t s :
  runLock (pre ++ [t]) s = escortLockStep (fst t) (snd t) (runLock pre s).
Proof. unfold runLock. rewrite fold_left_app. reflexivity. Qed.

(** What one tick does to an unlocked escort. *)
Lemma step_unlocked d dt s t :
  isLocked s = false -> tipOf s = Num t ->
  let s' := escortLockStep d dt s in
  (d <= ESCORT_LOCK_RADIUS ->
     timeInPosition s' = Num (t + dt) /\
     (isLocked s' = true <-> 2 <= t + dt)) /\
  (~ d <= ESCORT_LOCK_RADIUS ->
     timeInPosition s' = Num 0 /\ isLocked s' = false).
Proof.
  intros Hl Ht. destruct s as [? ? ? ? ? ? ? ? ? ? ? ? ? ? ? ? ? el tip ?].
  lock_unfold. unfold ESCORT_LOCK_RADIUS in *.
  assert (Hel : match el with Some b => b | None => false end = false) by exact Hl.
  split; intros Hd.
  - destruct (Rle_dec d 60); [|contradiction].
    destruct el as [[|]|]; try discriminate;
      destruct tip as [u| |]; simpl in *; try discriminate;
      try (injection Ht as ->);
      match goal with |- context [Rle_dec ?a ?b] => destruct (Rle_dec a b) end;
      simpl; (split; [reflexivity|]); split; intros; auto; try discriminate;
      contradiction.
  - destruct (Rle_dec d 60); [contradiction|].
    destruct el as [[|]|]; try discriminate;
      destruct tip as [u| |]; simpl in *; try discriminate;
      (destruct (Rle_dec 2 0); [lra|]); simpl; split; reflexivity.
Qed.

(** What one tick does to a locked escort. *)
Lemma step_locked d dt s :
  isLocked s = true ->
  let s' := escortLockStep d dt s in
  (d > ESCORT_LOCK_RADIUS * 3 ->
     isLocked s' = false /\ timeInPosition s' = Num 0) /\
  (~ d > ESCORT_LOCK_RADIUS * 3 -> isLocked s' = true).
Proof.
  intros Hl. destruct s as [? ? ? ? ? ? ? ? ? ? ? ? ? ? ? ? ? el tip ?].
  lock_unfold. unfold ESCORT_LOCK_RADIUS in *.
  destruct el as [[|]|]; try discriminate.
  split; intros Hd.
  - destruct tip as [u| |]; simpl;
      destruct (Rle_dec d 60); simpl;
      (destruct (Rlt_dec (60 * 3) d); [|exfalso; lra]); simpl; split; reflexivity.
  - destruct tip as [u| |]; simpl;
      destruct (Rle_dec d 60); simpl;
      (destruct (Rlt_dec (60 * 3) d); [exfalso; lra|]); simpl; reflexivity.
Qed.

Lemma dwellInv_step pre d dt s :
  dwellInv pre s -> dwellInv (pre ++ [(d, dt)]) (escortLockStep d dt s).
Proof.
  intros Inv Hl'. destruct (isLocked s) eqn:Hl.
  - destruct (step_locked d dt s Hl) as [Hfar Hnear].
    destruct (Rgt_dec d (ESCORT_LOCK_RADIUS * 3)) as [Hd|Hd].
    + destruct (Hfar Hd) as [_ Ht]. exists (pre ++ [(d, dt)]), [].
      rewrite app_nil_r. repeat split; [constructor|].
      unfold tipOf. rewrite Ht. reflexivity.
    + rewrite (Hnear Hd) in Hl'. discriminate.
  - destruct (Inv Hl) as (front & run & -> & Hrun & Ht).
    destruct (step_unlocked d dt s _ Hl Ht) as [Hin Hout].
    destruct (Rle_dec d ESCORT_LOCK_RADIUS) as [Hd|Hd].
    + destruct (Hin Hd) as [Htip _]. exists front, (run ++ [(d, dt)]).
      rewrite app_assoc. repeat split.
      * apply Forall_app; split; [assumption | constructor; [exact Hd | constructor]].
      * unfold tipOf. rewrite Htip, sumDt_app. simpl. f_equal. lra.
    + destruct (Hout Hd) as [Htip _]. exists (front ++ run ++ [(d, dt)]), [].
      rewrite app_nil_r, app_assoc. repeat split; [constructor|].
      unfold tipOf. rewrite Htip. reflexivity.
Qed.

Lemma dwellInv_run pre s0 :
  escortLocked s0 = None -> timeInPosition s0 = Undefined ->
  dwellInv pre (runLock pre s0).
Proof.
  intros He Ht. induction pre as [|[d dt] pre IH] using rev_ind.
  - intros _. exists [], []. repeat split; [constructor|].
    unfold tipOf. simpl. rewrite Ht. reflexivity.
  - rewrite runLock_snoc. apply dwellInv_step. exact IH.
Qed.

(** C4: hysteresis of the escort lock.  For a vessel that starts without
    lock state and has lived through the ticks [pre], consider the next
    tick, at distance [d] from the slot and of length [dt].
    (1) If the tick locks the escort, then [d] is inside the lock radius
    and the history ends with an unbroken run of ticks inside the lock
    radius, this tick included, whose time steps add up to at least 2.0.
    (2) If the tick unlocks the escort, then [d] is beyond three times
    the lock radius, and the accumulated time is back to 0.
    (3) A tick writes the lock flag at most once: the value it writes is
    [lockDecision], and it cannot both lock and unlock. *)
Theorem escort_lock_hysteresis (s0 : Ship) (pre : list Tick) (d dt : R) :
  escortLocked s0 = None -> timeInPosition s0 = Undefined ->
  let s := runLock pre s0 in
  let s' := escortLockStep d dt s in
  (isLocked s = false -> isLocked s' = true ->
     d <= ESCORT_LOCK_RADIUS /\
     exists front run,
       pre ++ [(d, dt)] = front ++ run /\ Forall inRadius run /\
       2 <= sumDt run) /\
  (isLocked s = true -> isLocked s' = false ->
     d > ESCORT_LOCK_RADIUS * 3 /\ timeInPosition s' = Num 0) /\
  ~ ((isLocked s = false /\ isLocked s' = true) /\
     (isLocked s = true /\ isLocked s' = false)).
Proof.
  intros He Ht s s'. pose proof (dwellInv_run pre s0 He Ht) as Inv.
  fold s in Inv. split; [|split].
  - intros Hl Hl'. destruct (Inv Hl) as (front & run & Hpre & Hrun & Htip).
    destruct (step_unlocked d dt s _ Hl Htip) as [Hin Hout]. fold s' in Hin, Hout.
    destruct (Rle_dec d ESCORT_LOCK_RADIUS) as [Hd|Hd].
    + split; [exact Hd|]. destruct (Hin Hd) as [_ Hiff].
      exists front, (run ++ [(d, dt)]). rewrite Hpre, app_assoc.
      repeat split.
      * apply Forall_app; split; [assumption | constructor; [exact Hd | constructor]].
      * rewrite sumDt_app. simpl. apply Hiff in Hl'. lra.
    + destruct (Hout Hd) as [_ Hno]. congruence.
  - intros Hl Hl'. destruct (step_locked d dt s Hl) as [Hfar Hnear].
    fold s' in Hfar, Hnear.
    destruct (Rgt_dec d (ESCORT_LOCK_RADIUS * 3)) as [Hd|Hd].
    + split; [exact Hd | apply Hfar; exact Hd].
    + rewrite (Hnear Hd) in Hl'. discriminate.
  - intros [[H1 _] [H2 _]]. congruence.
Qed.

Lemma escort_lock_hysteresis_witness :
  let s := runLock [(10, 1); (20, 1 / 2)] (mkShip 0 P DD 0 0 0) in
  let s' := escortLockStep 30 (1 / 2) s in
  (isLocked s = false -> isLocked s' = true ->
     30 <= ESCORT_LOCK_RADIUS /\
     exists front run,
       [(10, 1); (20, 1 / 2)] ++ [(30, 1 / 2)] = front ++ run /\
       Forall inRadius run /\ 2 <= sumDt run) /\
  (isLocked s = true -> isLocked s' = false ->
     30 > ESCORT_LOCK_RADIUS * 3 /\ timeInPosition s' = Num 0) /\
  ~ ((isLocked s = false /\ isLocked s' = true) /\
     (isLocked s = true /\ isLocked s' = false)).
Proof.
  exact (escort_lock_hysteresis (mkShip 0 P DD 0 0 0)
           [(10, 1); (20, 1 / 2)] 30 (1 / 2) eq_refl eq_refl).
Defined.

(** The run of the witness does lock the escort on its third tick, and
    not before: 1 + 1/2 + 1/2 = 2.0 seconds inside the radius. *)
Example lock_after_dwell :
  let s := runLock [(10, 1); (20, 1 / 2)] (mkShip 0 P DD 0 0 0) in
  isLocked s = false /\ isLocked (escortLockStep 30 (1 / 2) s) = true.
Proof.
  unfold runLock; simpl fold_left.
  set (s0 := mkShip 0 P DD 0 0 0).
  assert (R10 : 10 <= ESCORT_LOCK_RADIUS) by (unfold ESCORT_LOCK_RADIUS; lra).
  assert (R20 : 20 <= ESCORT_LOCK_RADIUS) by (unfold ESCORT_LOCK_RADIUS; lra).
  assert (R30 : 30 <= ESCORT_LOCK_RADIUS) by (unfold ESCORT_LOCK_RADIUS; lra).
  destruct (step_unlocked 10 1 s0 0 eq_refl eq_refl) as [H1 _].
  destruct (H1 R10) as [T1 L1]. clear H1.
  set (s1 := escortLockStep 10 1 s0) in *.
  assert (U1 : isLocked s1 = false).
  { destruct (isLocked s1); [|reflexivity]. destruct L1 as [L1 _].
    specialize (L1 eq_refl). lra. }
  assert (P1 : tipOf s1 = Num (0 + 1)) by (unfold tipOf; rewrite T1; reflexivity).
  destruct (step_unlocked 20 (1 / 2) s1 _ U1 P1) as [H2 _].
  destruct (H2 R20) as [T2 L2]. clear H2.
  set (s2 := escortLockStep 20 (1 / 2) s1) in *.
  assert (U2 : isLocked s2 = false).
  { destruct (isLocked s2); [|reflexivity]. destruct L2 as [L2 _].
    specialize (L2 eq_refl). lra. }
  assert (P2 : tipOf s2 = Num (0 + 1 + 1 / 2))
    by (unfold tipOf; rewrite T2; reflexivity).
  destruct (step_unlocked 30 (1 / 2) s2 _ U2 P2) as [H3 _].
  destruct (H3 R30) as [_ L3].
  split; [exact U2 | apply L3; lra].
Qed.

End LockFacts.

(** ** Collision predictor and avoidance steering *)

Section CollisionFacts.
Import Collision.

Lemma threat_enemy ship other :
  Team_eqb (team other) (team ship) = false -> threat ship other = None.
Proof.
  intros H. unfold threat. rewrite H. simpl.
  destruct (negb (alive other) || Nat.eqb (sid other) (sid ship)); reflexivity.
Qed.

Lemma avoid_fold_filter ship l acc :
  fold_left (avoidOne ship) l acc =
  fold_left (avoidOne ship)
            (filter (fun o => Team_eqb (team o) (team ship)) l) acc.
Proof.
  revert acc; induction l as [|o l IH]; intros acc; simpl; [reflexivity|].
  destruct (Team_eqb (team o) (team ship)) eqn:Ht; simpl.
  - apply IH.
  - unfold avoidOne at 2. rewrite (threat_enemy ship o Ht). apply IH.
Qed.

(** C10: the avoidance bias of a ship depends only on the vessels of its
    own team.  Two rosters with the same own-team vessels, in the same
    order, whatever enemy vessels they hold and wherever those are, give
    the same returned steering object and leave the same alert on the
    ship. *)
Theorem avoidance_ignores_enemies (ship : Ship) (r1 r2 : list Ship) :
  filter (fun o => Team_eqb (team o) (team ship)) r1 =
  filter (fun o => Team_eqb (team o) (team ship)) r2 ->
  calculateAvoidanceSteering ship r1 = calculateAvoidanceSteering ship r2.
Proof.
  intros H. unfold calculateAvoidanceSteering.
  rewrite (avoid_fold_filter ship r1), (avoid_fold_filter ship r2), H.
  reflexivity.
Qed.

Lemma hypot_scale a ux uy : ux * ux + uy * uy = 1 -> hypot (a * ux) (a * uy) = Rabs a.
Proof.
  intros H. unfold hypot.
  replace (a * ux * (a * ux) + a * uy * (a * uy)) with (Rsqr a * (ux*ux+uy*uy)) by (unfold Rsqr; ring).
  rewrite H, Rmult_1_r. apply sqrt_Rsqr_abs.
Qed.

Lemma floorZ_IZR n : floorZ (IZR n) = n.
Proof.
  unfold floorZ. assert (H : (n + 1)%Z = up (IZR n)).
  { apply tech_up; rewrite plus_IZR; simpl; lra. }
  rewrite <- H. lia.
Qed.

Lemma sampleTimes_predict :
  sampleTimes (5 / 10) 6 =
  [1/2; 1; 3/2; 2; 5/2; 3; 7/2; 4; 9/2; 5; 11/2; 6].
Proof.
  unfold sampleTimes. replace (6 / (5 / 10)) with (IZR 12) by lra.
  rewrite floorZ_IZR. simpl.
  repeat (f_equal; try lra).
Qed.

Lemma sampleTimes_steer :
  sampleTimes (3 / 10) 3 =
  [3/10; 6/10; 9/10; 12/10; 15/10; 18/10; 21/10; 24/10; 27/10; 3].
Proof.
  unfold sampleTimes. replace (3 / (3 / 10)) with (IZR 10) by lra.
  rewrite floorZ_IZR. simpl.
  repeat (f_equal; try lra).
Qed.

Lemma trackMin_fold_R a b g ts d m :
  (forall t, separationAt a b (Num t) = Num (g t)) ->
  fold_left (trackMin a b) ts (Num d, Num m) =
  (Num (fst (fold_left (trackMinR g) ts (d, m))),
   Num (snd (fold_left (trackMinR g) ts (d, m)))).
Proof.
  intros Hg. revert d m; induction ts as [|t ts IH]; intros d m; simpl.
  - reflexivity.
  - unfold trackMin at 2, trackMinR at 2 4. rewrite Hg. simpl.
    unfold jlt, cmp2, Rltb. simpl.
    destruct (Rlt_dec (g t) d); apply IH.
Qed.

Lemma trackMinR_le g ts d m t :
  In t ts -> fst (fold_left (trackMinR g) ts (d, m)) <= g t.
Proof.
  assert (Hmono : forall ts d m, fst (fold_left (trackMinR g) ts (d, m)) <= d).
  { intros l; induction l as [|u l IH]; intros d0 m0; simpl; [lra|].
    unfold trackMinR at 2; simpl. destruct (Rlt_dec (g u) d0).
    - eapply Rle_trans; [apply IH | lra].
    - apply IH. }
  revert d m; induction ts as [|u ts IH]; intros d m Hin; simpl in *; [tauto|].
  destruct Hin as [->|Hin].
  - unfold trackMinR at 2; simpl. destruct (Rlt_dec (g t) d).
    + apply Hmono.
    + eapply Rle_trans; [apply Hmono | lra].
  - destruct (trackMinR g (d, m) u) as [d1 m1]. apply IH, Hin.
Qed.

(** The loop keeps the first of the smallest samples. *)
Lemma trackMinR_argmin g pre t post d m :
  g t < d ->
  Forall (fun u => g t < g u) pre ->
  Forall (fun u => g t <= g u) post ->
  fold_left (trackMinR g) (pre ++ t :: post) (d, m) = (g t, t).
Proof.
  intros Hd Hpre Hpost.
  assert (Hp : forall post d m, d <= g t -> Forall (fun u => g t <= g u) post ->
             d = g t -> fold_left (trackMinR g) post (d, m) = (d, m)).
  { intros l; induction l as [|u l IH]; intros d0 m0 Hle Hf Heq; simpl; [reflexivity|].
    inversion Hf; subst. unfold trackMinR at 2; simpl.
    destruct (Rlt_dec (g u) (g t)); [lra|]. apply IH; auto. }
  revert d m Hd; induction Hpre as [|u pre Hu Hpre IH]; intros d m Hd; simpl.
  - unfold trackMinR at 2; simpl. destruct (Rlt_dec (g t) d); [|lra].
    apply Hp; auto; lra.
  - unfold trackMinR at 2; simpl. destruct (Rlt_dec (g u) d).
    + apply IH. exact Hu.
    + apply IH. exact Hd.
Qed.

Lemma radius_bounds k : 12 <= radius k <= 26.
Proof. destruct k; simpl; lra. Qed.

Section HeadOn.
Variables (id1 id2 : nat) (tm1 tm2 : Team) (k1 k2 : Kind).
Variables (x0 y0 ux uy h1 h2 : R).
Hypothesis Hid : id1 <> id2.
Hypothesis Hunit : ux * ux + uy * uy = 1.

Let a := underway id1 tm1 k1 x0 y0 (10 * ux) (10 * uy) h1.
Let b := underway id2 tm2 k2 (x0 + 100 * ux) (y0 + 100 * uy)
                  (- 10 * ux) (- 10 * uy) h2.

Lemma headOn_separation t :
  separationAt a b (Num t) = Num (Rabs (100 - 20 * t)).
Proof.
  unfold separationAt, a, b, underway. cbn -[Rabs hypot Rplus Rmult Rminus Ropp IZR].
  unfold jhypot, jsub, jadd, jmul, lift2. f_equal.
  rewrite <- (hypot_scale (100 - 20 * t) ux uy Hunit). f_equal; ring.
Qed.

Lemma headOn_currentDist :
  jhypot (x b - x a)%js (y b - y a)%js = Num 100.
Proof.
  unfold a, b, underway. cbn -[Rabs hypot Rplus Rmult Rminus Ropp IZR].
  unfold jhypot, jsub, lift2. f_equal.
  replace (x0 + 100 * ux - x0) with (100 * ux) by ring.
  replace (y0 + 100 * uy - y0) with (100 * uy) by ring.
  rewrite (hypot_scale 100 ux uy Hunit). apply Rabs_pos_eq; lra.
Qed.

Lemma headOn_samples :
  fold_left (trackMin a b) (sampleTimes (5 / 10) 6) (Num 100, Num 0) =
  (Num 0, Num 5).
Proof.
  rewrite (trackMin_fold_R a b (fun t => Rabs (100 - 20 * t)) _ _ _ headOn_separation).
  rewrite sampleTimes_predict.
  change [1/2; 1; 3/2; 2; 5/2; 3; 7/2; 4; 9/2; 5; 11/2; 6]
    with ([1/2; 1; 3/2; 2; 5/2; 3; 7/2; 4; 9/2] ++ 5 :: [11/2; 6]).
  rewrite trackMinR_argmin.
  - cbn [fst snd]. f_equal. f_equal. replace (100 - 20 * 5) with 0 by lra. apply Rabs_R0.
  - unfold Rabs; repeat destruct Rcase_abs; lra.
  - repeat constructor; unfold Rabs; repeat destruct Rcase_abs; lra.
  - repeat constructor; unfold Rabs; repeat destruct Rcase_abs; lra.
Qed.

(** C6 (amended): two vessels on exactly opposite courses, each making
    10 units per second straight at the other from 100 units apart,
    whose hull radii add up to at most 30 (destroyers and torpedo
    boats): the predictor answers [willCollide] with a time to closest
    approach of exactly 5 and urgency 0.2, and it does so at the initial
    separation of 100 units, which is not below 60. *)
Theorem headOn_predicted :
  radius k1 + radius k2 <= 30 ->
  exists p,
    predictCollision a b defaultLookAhead = Some p /\
    willCollide p = true /\
    timeToCollision p = Num 5 /\
    urgency p = Num (2 / 10) /\
    exists sep, currentDist p = Num sep /\ 60 <= sep.
Proof.
  intros Hr. unfold predictCollision, defaultLookAhead.
  pose proof (radius_bounds k1). pose proof (radius_bounds k2).
  replace (alive a) with true by reflexivity.
  replace (alive b) with true by reflexivity.
  replace (sid a) with id1 by reflexivity.
  replace (sid b) with id2 by reflexivity.
  replace (kind a) with k1 by reflexivity.
  replace (kind b) with k2 by reflexivity.
  cbn [negb orb].
  destruct (Nat.eqb_spec id1 id2) as [?|_]; [contradiction|].
  rewrite headOn_currentDist, headOn_samples.
  replace (orZero (vx a)) with (10 * ux) by reflexivity.
  replace (orZero (vy a)) with (10 * uy) by reflexivity.
  replace (orZero (vx b)) with (- 10 * ux) by reflexivity.
  replace (orZero (vy b)) with (- 10 * uy) by reflexivity.
  replace (10 * ux - - 10 * ux) with (20 * ux) by ring.
  replace (10 * uy - - 10 * uy) with (20 * uy) by ring.
  rewrite (hypot_scale 20 ux uy Hunit), (Rabs_pos_eq 20) by lra.
  replace (x b) with (Num (x0 + 100 * ux)) by reflexivity.
  replace (y b) with (Num (y0 + 100 * uy)) by reflexivity.
  replace (x a) with (Num x0) by reflexivity.
  replace (y a) with (Num y0) by reflexivity.
  cbn [jadd jsub jmul jdiv jopp jgt jlt lift1 lift2 cmp2].
  set (tcpa := - ((x0 + 100 * ux - x0) * (20 * ux) +
                  (y0 + 100 * uy - y0) * (20 * uy)) / (20 * 20)).
  assert (Htc : tcpa = -5).
  { unfold tcpa.
    replace ((x0 + 100 * ux - x0) * (20 * ux) + (y0 + 100 * uy - y0) * (20 * uy))
      with (2000 * (ux * ux + uy * uy)) by ring.
    rewrite Hunit. lra. }
  unfold Rgtb, Rltb.
  destruct (Rlt_dec 100 (radius k1 + radius k2 + 40 + 30)) as [?|_]; [lra|].
  destruct (Rlt_dec (5 / 10) 20) as [_|?]; [|lra].
  destruct (Rlt_dec 0 tcpa) as [?|_]; [lra|].
  cbn [andb jlt cmp2]. unfold Rltb.
  destruct (Rlt_dec 0 (radius k1 + radius k2 + 40 + 60)) as [_|?]; [|lra].
  eexists; split; [reflexivity|]. cbn [willCollide timeToCollision urgency currentDist].
  split; [reflexivity|]. split; [reflexivity|]. split.
  - unfold jclamp, jquot. destruct (Req_dec_T 6 0) as [?|_]; [lra|].
    cbn [jmax jmin jsub jdiv lift2]. f_equal.
    rewrite Rmin_right by lra. apply Rmax_left. lra.
  - exists 100. split; [reflexivity | lra].
Qed.

(** Larger hulls: the pair is already inside the emergency distance and
    the predictor answers with time 0. *)
Lemma headOn_emergency :
  30 < radius k1 + radius k2 ->
  exists p,
    predictCollision a b defaultLookAhead = Some p /\
    willCollide p = true /\ timeToCollision p = Num 0 /\
    urgency p = Num 1.
Proof.
  intros Hr. unfold predictCollision, defaultLookAhead.
  replace (alive a) with true by reflexivity.
  replace (alive b) with true by reflexivity.
  replace (sid a) with id1 by reflexivity.
  replace (sid b) with id2 by reflexivity.
  replace (kind a) with k1 by reflexivity.
  replace (kind b) with k2 by reflexivity.
  cbn [negb orb].
  destruct (Nat.eqb_spec id1 id2) as [?|_]; [contradiction|].
  rewrite headOn_currentDist.
  cbn [jadd jlt lift2 cmp2]. unfold Rltb.
  destruct (Rlt_dec 100 (radius k1 + radius k2 + 40 + 30)) as [_|?]; [|lra].
  eexists; split; [reflexivity|]. repeat split.
Qed.

End HeadOn.

Lemma trackMin_fold_num ship other ts d m :
  exists d' m', fold_left (trackMin ship other) ts (Num d, m) = (Num d', m').
Proof.
  revert d m; induction ts as [|t ts IH]; intros d m; simpl; [eauto|].
  unfold trackMin at 2. cbn [fst].
  destruct (separationAt ship other t) as [f| |]; cbn [jlt cmp2]; try apply IH.
  destruct (Rltb f d); apply IH.
Qed.

Lemma trackMin_fold_nan ship other ts m :
  fold_left (trackMin ship other) ts (NaN, m) = (NaN, m).
Proof.
  induction ts as [|t ts IH]; simpl; [reflexivity|].
  unfold trackMin at 2. cbn [fst].
  destruct (separationAt ship other t); cbn [jlt cmp2]; apply IH.
Qed.

Lemma jclamp_Num v lo hi : jclamp (Num v) (Num lo) (Num hi) = Num (clamp v lo hi).
Proof. reflexivity. Qed.

(** A vessel that passes the gates carries a finite urgency in [0.3, 1]. *)
Lemma threat_urgency ship other u ct :
  threat ship other = Some (u, ct) ->
  exists uu, u = Num uu /\ 3 / 10 <= uu <= 1.
Proof.
  unfold threat.
  destruct (negb (alive other) || Nat.eqb (sid other) (sid ship)); [discriminate|].
  destruct (negb (Team_eqb (team other) (team ship))); [discriminate|].
  set (dist := jhypot (x other - x ship)%js (y other - y ship)%js).
  destruct (dist >? 200)%js; [discriminate|].
  assert (Hd : (exists d, dist = Num d) \/ dist = NaN).
  { unfold dist, jhypot, lift2.
    destruct (x other - x ship)%js, (y other - y ship)%js; eauto. }
  destruct Hd as [[d ->]| ->].
  - destruct (trackMin_fold_num ship other (sampleTimes (3 / 10) 3) d (Num 0))
      as (d' & m' & ->).
    destruct (negb _ && negb _); [discriminate|].
    intros H; injection H as <- <-.
    cbn [jmin jsub jdiv lift2].
    eexists; split; [reflexivity|].
    apply (clamp_bounds _ (3 / 10) 1). lra.
  - rewrite trackMin_fold_nan. cbn [jlt cmp2 negb andb]. discriminate.
Qed.

Lemma steerDirection_pm1 ship other dx dy :
  steerDirection ship other dx dy = 1 \/ steerDirection ship other dx dy = -1.
Proof.
  unfold steerDirection.
  repeat match goal with
         | |- context [if ?c then _ else _] => destruct c
         end; auto.
Qed.

Lemma avoid_fold_no_threat ship l acc :
  (forall o, In o l -> threat ship o = None) ->
  fold_left (avoidOne ship) l acc = acc.
Proof.
  revert acc; induction l as [|o l IH]; intros acc H; simpl; [reflexivity|].
  unfold avoidOne at 2. rewrite (H o (or_introl eq_refl)).
  apply IH. intros o' Ho'. apply H. right; exact Ho'.
Qed.

(** C7 (amended): when exactly one vessel of the roster passes the gates
    of the steering computation itself (alive, not the ship, same team,
    at most 200 units away, and either closer than the sum of the radii
    plus 65 now or closer than that sum plus 55 at one of the instants
    sampled over the next 3 seconds), the returned bias is a number
    different from 0, of magnitude between 0.105 and 0.35. *)
Theorem single_threat_steers (ship other : Ship) (before after : list Ship) :
  threat ship other <> None ->
  (forall o, In o (before ++ after) -> threat ship o = None) ->
  exists v,
    steer (snd (calculateAvoidanceSteering ship (before ++ other :: after)))
      = Num v /\
    v <> 0 /\ 105 / 1000 <= Rabs v <= 35 / 100.
Proof.
  intros Hth Hrest.
  destruct (threat ship other) as [[u ct]|] eqn:Ht; [clear Hth|congruence].
  destruct (threat_urgency ship other u ct Ht) as (uu & -> & Hu).
  unfold calculateAvoidanceSteering.
  rewrite fold_left_app. cbn [fold_left].
  rewrite (avoid_fold_no_threat ship before)
    by (intros o Ho; apply Hrest, in_or_app; left; exact Ho).
  unfold avoidOne at 2. rewrite Ht. cbn [fst jadd jmul lift2].
  rewrite (avoid_fold_no_threat ship after)
    by (intros o Ho; apply Hrest, in_or_app; right; exact Ho).
  cbn [snd steer]. 
  set (dir := steerDirection ship other _ _).
  assert (Hdir : dir = 1 \/ dir = -1) by apply steerDirection_pm1.
  set (v := 0 + dir * (35 / 100) * uu).
  assert (Hv : 105 / 1000 <= Rabs v <= 35 / 100).
  { unfold v. destruct Hdir as [-> | ->].
    - rewrite Rabs_pos_eq by nra. nra.
    - rewrite Rabs_left by nra. nra. }
  exists v. split; [|split].
  - rewrite jclamp_Num. f_equal. apply clamp_id. unfold Rabs in Hv. destruct (Rcase_abs v); lra.
  - intros Hz. rewrite Hz, Rabs_R0 in Hv. lra.
  - exact Hv.
Qed.

(** C6, as stated, fails for larger hulls: two battleships in the same
    head-on situation are already inside the emergency distance
    (100 < 22 + 22 + 40 + 30), and the predicted time is 0, not 5. *)
Lemma headOn_BB_time_zero :
  let a := underway 0 P BB 0 0 (10 * 1) (10 * 0) 0 in
  let b := underway 1 P BB (0 + 100 * 1) (0 + 100 * 0) (- 10 * 1) (- 10 * 0) PI in
  exists p,
    predictCollision a b defaultLookAhead = Some p /\
    willCollide p = true /\ timeToCollision p = Num 0 /\
    ~ (exists t, timeToCollision p = Num t /\ Rabs (t - 5) < 1).
Proof.
  intros a b.
  destruct (headOn_emergency 0 1 P P BB BB 0 0 1 0 0 PI) as (p & Hp & Hw & Ht & _).
  - discriminate.
  - lra.
  - simpl; lra.
  - exists p. repeat split; auto.
    intros (t & Ht' & Habs). rewrite Ht in Ht'. injection Ht' as <-.
    unfold Rabs in Habs. destruct (Rcase_abs (0 - 5)); lra.
Qed.

Lemma far_separation t :
  separationAt farA farB (Num t) = Num (Rabs (250 - 60 * t)).
Proof.
  unfold separationAt, farA, farB, underway.
  cbn -[Rabs hypot Rplus Rmult Rminus Ropp IZR PI].
  unfold jhypot, jsub, jadd, jmul, lift2. f_equal.
  rewrite <- (hypot_scale (250 - 60 * t) 1 0) by lra. f_equal; ring.
Qed.

(** C7, as stated, fails: two living destroyers of one team, 250 units
    apart and closing at 30 units per second each, are predicted to
    collide with urgency above 0, yet the steering computation skips a
    vessel more than 200 units away and returns a zero bias. *)
Lemma far_pair_predicted_not_steered :
  alive farA = true /\ alive farB = true /\ team farA = team farB /\
  (exists p u,
     predictCollision farA farB defaultLookAhead = Some p /\
     willCollide p = true /\ urgency p = Num u /\ 0 < u) /\
  steer (snd (calculateAvoidanceSteering farA [farA; farB])) = Num 0.
Proof.
  split; [reflexivity|]. split; [reflexivity|]. split; [reflexivity|]. split.
  - unfold predictCollision, defaultLookAhead.
    replace (alive farA) with true by reflexivity.
    replace (alive farB) with true by reflexivity.
    replace (sid farA) with 0%nat by reflexivity.
    replace (sid farB) with 1%nat by reflexivity.
    replace (kind farA) with DD by reflexivity.
    replace (kind farB) with DD by reflexivity.
    cbn [negb orb Nat.eqb radius].
    replace (jhypot (x farB - x farA)%js (y farB - y farA)%js) with (Num 250).
    2:{ unfold farA, farB, underway.
        cbn -[Rabs hypot Rplus Rmult Rminus Ropp IZR PI].
        unfold jhypot, jsub, lift2. f_equal.
        replace (250 - 0) with (250 * 1) by ring.
        replace (0 - 0) with (250 * 0) by ring.
        rewrite hypot_scale by lra. symmetry; apply Rabs_pos_eq; lra. }
    cbn [jadd jlt lift2 cmp2]. unfold Rltb at 1.
    destruct (Rlt_dec 250 (14 + 14 + 40 + 30)) as [?|_]; [lra|].
    rewrite (trackMin_fold_R farA farB (fun t => Rabs (250 - 60 * t)) _ _ _ far_separation).
    set (res := fold_left _ _ (250, 0)).
    assert (Hle : fst res <= 10).
    { pose proof (trackMinR_le (fun t => Rabs (250 - 60 * t))
                    (sampleTimes (5 / 10) 6) 250 0 4) as H4.
      cbv beta in H4. fold res in H4.
      replace (Rabs (250 - 60 * 4)) with 10 in H4
        by (unfold Rabs; destruct Rcase_abs; lra).
      apply H4. rewrite sampleTimes_predict. simpl. tauto. }
    replace (orZero (vx farA)) with 30 by reflexivity.
    replace (orZero (vy farA)) with 0 by reflexivity.
    replace (orZero (vx farB)) with (- 30) by reflexivity.
    replace (orZero (vy farB)) with 0 by reflexivity.
    replace (30 - - 30) with (60 * 1) by ring.
    replace (0 - 0) with (60 * 0) by ring.
    rewrite (hypot_scale 60 1 0), (Rabs_pos_eq 60) by lra.
    replace (x farB) with (Num 250) by reflexivity.
    replace (y farB) with (Num 0) by reflexivity.
    replace (x farA) with (Num 0) by reflexivity.
    replace (y farA) with (Num 0) by reflexivity.
    cbn [jadd jsub jmul jdiv jopp jgt jlt lift1 lift2 cmp2].
    unfold Rgtb, Rltb.
    destruct (Rlt_dec (5 / 10) 60) as [_|?]; [|lra].
    destruct (Rlt_dec 0 _) as [?|_]; [lra|].
    cbn [andb jlt cmp2]. unfold Rltb.
    destruct (Rlt_dec (fst res) (14 + 14 + 40 + 60)) as [_|?]; [|lra].
    eexists. eexists. split; [reflexivity|]. cbn [willCollide urgency].
    split; [reflexivity|]. unfold jclamp, jquot. cbn [snd].
    destruct (Req_dec_T 6 0) as [?|_]; [lra|].
    cbn [jmax jmin jsub jdiv lift2].
    split; [reflexivity|].
    apply Rlt_le_trans with (2 / 10); [lra | apply Rmax_l].
  - unfold calculateAvoidanceSteering. cbn [fold_left].
    assert (H1 : threat farA farA = None) by reflexivity.
    assert (H2 : threat farA farB = None).
    { unfold threat.
      replace (alive farB) with true by reflexivity.
      replace (sid farA) with 0%nat by reflexivity.
      replace (sid farB) with 1%nat by reflexivity.
      replace (team farA) with P by reflexivity.
      replace (team farB) with P by reflexivity.
      cbn [negb orb Nat.eqb Team_eqb].
      replace (jhypot (x farB - x farA)%js (y farB - y farA)%js) with (Num 250).
      2:{ unfold farA, farB, underway.
          cbn -[Rabs hypot Rplus Rmult Rminus Ropp IZR PI].
          unfold jhypot, jsub, lift2. f_equal.
          replace (250 - 0) with (250 * 1) by ring.
          replace (0 - 0) with (250 * 0) by ring.
          rewrite hypot_scale by lra. symmetry; apply Rabs_pos_eq; lra. }
      cbn [jgt cmp2]. unfold Rgtb, Rltb.
      destruct (Rlt_dec 200 250) as [_|?]; [reflexivity|lra]. }
    unfold avoidOne. rewrite H1, H2. cbn [snd steer].
    rewrite jclamp_Num. f_equal. apply clamp_id. lra.
Qed.

Lemma near_threat : threat nearA nearB <> None.
Proof.
  unfold threat.
  replace (alive nearB) with true by reflexivity.
  replace (sid nearA) with 0%nat by reflexivity.
  replace (sid nearB) with 1%nat by reflexivity.
  replace (team nearA) with P by reflexivity.
  replace (team nearB) with P by reflexivity.
  replace (kind nearA) with DD by reflexivity.
  replace (kind nearB) with DD by reflexivity.
  cbn [negb orb Nat.eqb Team_eqb radius].
  replace (jhypot (x nearB - x nearA)%js (y nearB - y nearA)%js) with (Num 50).
  2:{ unfold nearA, nearB, mkShip. cbn [x y jsub lift2 jhypot]. f_equal.
      replace (50 - 0) with (50 * 1) by ring.
      replace (0 - 0) with (50 * 0) by ring.
      rewrite hypot_scale by lra. symmetry; apply Rabs_pos_eq; lra. }
  cbn [jgt cmp2]. unfold Rgtb, Rltb.
  destruct (Rlt_dec 200 50) as [?|_]; [lra|].
  destruct (fold_left _ _ _) as [m c].
  cbn [jadd jlt lift2 cmp2]. unfold Rltb at 1.
  destruct (Rlt_dec 50 (14 + 14 + 25 + 40)) as [_|?]; [|lra].
  cbn [negb andb]. discriminate.
Qed.

Lemma single_threat_steers_witness :
  exists v,
    steer (snd (calculateAvoidanceSteering nearA ([nearA] ++ nearB :: [])))
      = Num v /\
    v <> 0 /\ 105 / 1000 <= Rabs v <= 35 / 100.
Proof.
  apply (single_threat_steers nearA nearB [nearA] []).
  - exact near_threat.
  - intros o [<-|[]]. reflexivity.
Defined.

Lemma headOn_predicted_witness :
  exists p,
    predictCollision
      (underway 0 P DD 0 0 (10 * 1) (10 * 0) 0)
      (underway 1 P DD (0 + 100 * 1) (0 + 100 * 0) (- 10 * 1) (- 10 * 0) PI)
      defaultLookAhead = Some p /\
    willCollide p = true /\
    timeToCollision p = Num 5 /\
    urgency p = Num (2 / 10) /\
    exists sep, currentDist p = Num sep /\ 60 <= sep.
Proof.
  apply (headOn_predicted 0 1 P P DD DD 0 0 1 0 0 PI).
  - discriminate.
  - lra.
  - simpl; lra.
Defined.

Lemma avoidance_ignores_enemies_witness :
  calculateAvoidanceSteering nearA [nearA; nearB] =
  calculateAvoidanceSteering nearA
    [mkShip 7 E BB 20 0 0; nearA; underway 8 E TB 10 10 30 0 0; nearB].
Proof.
  apply (avoidance_ignores_enemies nearA).
  reflexivity.
Defined.

End CollisionFacts.

(** ** Vehicle dynamics *)

Section DynamicsFacts.
Import Config Dynamics.

Lemma MAX_RUDDER_pos : 0 < MAX_RUDDER_ANGLE.
Proof. unfold MAX_RUDDER_ANGLE. pose proof PI_RGT_0. lra. Qed.

Lemma clamp_abs v m : 0 <= m -> Rabs (clamp v (- m) m) <= m.
Proof.
  intros H. pose proof (clamp_bounds v (- m) m ltac:(lra)).
  apply Rabs_le. lra.
Qed.

(** The value that [jclamp] leaves is a number inside the bounds, or
    [NaN]. *)
Lemma jclamp_cases v lo hi :
  lo <= hi ->
  (exists r, jclamp v (Num lo) (Num hi) = Num r /\ lo <= r <= hi) \/
  jclamp v (Num lo) (Num hi) = NaN.
Proof.
  intros H. destruct v as [u| |]; [left|right|right]; try reflexivity.
  exists (clamp u lo hi). split; [reflexivity | apply clamp_bounds; exact H].
Qed.

(** [applyRudder] always leaves a rudder angle that is a number within
    the maximum deflection. *)
Lemma applyRudder_rudder s turn dt :
  exists r, rudderAngle (applyRudder s turn dt) = Num r /\
            Rabs r <= MAX_RUDDER_ANGLE.
Proof.
  unfold applyRudder. cbn [rudderAngle set_rudderAngle].
  pose proof MAX_RUDDER_pos as Hm.
  match goal with
  | |- context [jclamp ?v (Num ?lo) (Num ?hi)] =>
      destruct (jclamp_cases v lo hi ltac:(lra)) as [(r & -> & Hr)| ->]
  end; cbn [isNaN isUndefined orb].
  - exists r. split; [reflexivity | apply Rabs_le; lra].
  - exists 0. split; [reflexivity | rewrite Rabs_R0; lra].
Qed.

Lemma applyPlayerRudder_rudder s st dt :
  exists r, rudderAngle (applyPlayerRudder s st dt) = Num r /\
            Rabs r <= MAX_RUDDER_ANGLE.
Proof.
  unfold applyPlayerRudder. cbn [rudderAngle set_rudderAngle].
  pose proof MAX_RUDDER_pos as Hm.
  match goal with
  | |- context [jclamp ?v (Num ?lo) (Num ?hi)] =>
      destruct (jclamp_cases v lo hi ltac:(lra)) as [(r & -> & Hr)| ->]
  end; cbn [isNaN isUndefined orb].
  - exists r. split; [reflexivity | apply Rabs_le; lra].
  - exists 0. split; [reflexivity | rewrite Rabs_R0; lra].
Qed.

(** [updateAIThrottle] always leaves a throttle that is a number in
    [0, 100]. *)
Lemma updateAIThrottle_throttle s tgt dt :
  exists t, throttle (updateAIThrottle s tgt dt) = Num t /\ 0 <= t <= 100.
Proof.
  unfold updateAIThrottle. cbn [throttle set_throttle].
  set (th0 := if isNaN (throttle s) || isUndefined (throttle s)
              then Num 50 else throttle s).
  assert (H0 : exists v, th0 = Num v).
  { unfold th0. destruct (throttle s); cbn; eauto. }
  destruct H0 as [v ->].
  cbn [jsub jabs jsign jle jadd jmul lift1 lift2 cmp2].
  destruct (Rleb _ _);
    (eexists; split; [reflexivity | apply (clamp_bounds _ 0 100); lra]).
Qed.

Lemma hypot_nonneg a b : 0 <= hypot a b.
Proof. apply sqrt_pos. Qed.

Lemma hypot_sqr a b : hypot a b * hypot a b = a * a + b * b.
Proof. unfold hypot. apply sqrt_sqrt. nra. Qed.

Lemma hypot_le a b m : 0 <= m -> a * a + b * b <= m * m -> hypot a b <= m.
Proof.
  intros Hm H. unfold hypot. rewrite <- (sqrt_square m Hm).
  apply sqrt_le_1; nra.
Qed.

Lemma hypot_le_inv a b m : hypot a b <= m -> a * a + b * b <= m * m.
Proof.
  intros H. pose proof (hypot_nonneg a b). rewrite <- hypot_sqr. nra.
Qed.

Lemma hypot_zero a b : hypot a b = 0 -> a = 0 /\ b = 0.
Proof.
  intros H. pose proof (hypot_sqr a b) as Hs. rewrite H in Hs. nra.
Qed.

Lemma maxSpeed_pos k : 0 < maxSpeed k.
Proof. destruct k; unfold maxSpeed, SHIP_SPEED_SCALE; lra. Qed.

(** The unit normal that [resolveShipLand] computes has length at most 1. *)
Lemma normal_le_1 dx dy :
  let d := Ror (hypot dx dy) 1 in
  (dx / d) * (dx / d) + (dy / d) * (dy / d) <= 1.
Proof.
  unfold Ror. destruct (Req_dec_T (hypot dx dy) 0) as [Hz|Hnz]; cbv zeta.
  - destruct (hypot_zero _ _ Hz) as [-> ->]. lra.
  - pose proof (hypot_sqr dx dy) as Hs. pose proof (hypot_nonneg dx dy).
    set (d := hypot dx dy) in *.
    replace (dx / d * (dx / d) + dy / d * (dy / d))
      with ((dx * dx + dy * dy) / (d * d)) by (field; exact Hnz).
    rewrite <- Hs. right. field. exact Hnz.
Qed.

(** Grounding never speeds a vessel up. *)
Lemma resolveShipLand_speed land s a b m :
  vx s = Num a -> vy s = Num b -> 0 <= m -> hypot a b <= m ->
  exists a' b', vx (resolveShipLand land s) = Num a' /\
                vy (resolveShipLand land s) = Num b' /\
                hypot a' b' <= m.
Proof.
  intros Ha Hb Hm Hv. unfold resolveShipLand.
  destruct (inLand (x s) (y s) (radius (kind s)) land) as [hit|];
    [|exists a, b; auto].
  rewrite Ha, Hb.
  destruct (x s - cx hit)%js as [dx| |] eqn:Edx;
    try (cbn; exists a, b; rewrite Ha, Hb; auto).
  destruct (y s - cy hit)%js as [dy| |] eqn:Edy;
    try (cbn; exists a, b; rewrite Ha, Hb; auto).
  cbn [jhypot lift2 orElse jdiv jmul jadd jsub jlt cmp2].
  set (d := Ror (hypot dx dy) 1).
  pose proof (normal_le_1 dx dy) as Hn. fold d in Hn. cbv zeta in Hn.
  set (nx := dx / d) in *. set (ny := dy / d) in *.
  set (vn := a * nx + b * ny).
  destruct (Rltb vn 0); cbn [vx vy set_vx set_vy set_x set_y];
    [|exists a, b; rewrite Ha, Hb; auto].
  eexists. eexists. split; [reflexivity|]. split; [reflexivity|].
  apply hypot_le; [exact Hm|].
  pose proof (hypot_le_inv a b m Hv) as Hsq.
  assert (Hred : (a - vn * nx * (18 / 10)) * (a - vn * nx * (18 / 10)) +
                 (b - vn * ny * (18 / 10)) * (b - vn * ny * (18 / 10))
                 <= a * a + b * b).
  { replace ((a - vn * nx * (18 / 10)) * (a - vn * nx * (18 / 10)) +
             (b - vn * ny * (18 / 10)) * (b - vn * ny * (18 / 10)))
      with (a * a + b * b - (36 / 10) * vn * (a * nx + b * ny)
            + (324 / 100) * (vn * vn) * (nx * nx + ny * ny)) by field.
    fold vn. assert (0 <= vn * vn) by nra.
    assert (vn * vn * (nx * nx + ny * ny) <= vn * vn) by nra. nra. }
  nra.
Qed.

Lemma resolveShipLand_helm land s :
  sameHelm s (resolveShipLand land s) /\
  currentSpeed (resolveShipLand land s) = currentSpeed s.
Proof.
  unfold resolveShipLand, sameHelm.
  destruct (inLand _ _ _ land); [|repeat split].
  destruct (_ <? 0)%js; repeat split.
Qed.

Lemma physicsStep_alive land s dt a b h c :
  alive s = true ->
  vx s = Num a -> vy s = Num b -> heading s = Num h ->
  currentSpeed s = Num c ->
  let s' := physicsStep land s dt in
  sameHelm s s' /\
  (exists c', currentSpeed s' = Num c') /\
  exists a' b', vx s' = Num a' /\ vy s' = Num b' /\
                hypot a' b' <= maxSpeed (kind s).
Proof.
  intros Hal Ha Hb Hh Hc. unfold physicsStep. rewrite Hal, Ha, Hb, Hh, Hc.
  cbn [negb isUndefined jcos jsin jmul jadd jhypot jgt jdiv lift1 lift2 cmp2].
  set (cs1 := c * Ror SPEED_INERTIA (92 / 100) + _).
  set (va := (a * (9 / 10) + _) * _).
  set (vb := (b * (9 / 10) + _) * _).
  pose proof (maxSpeed_pos (kind s)) as Hm.
  set (M := maxSpeed (kind s)) in *.
  assert (Hclamp : exists a3 b3,
            (if Rgtb (hypot va vb) M
             then (Num (va * (M / hypot va vb)), Num (vb * (M / hypot va vb)))
             else (Num va, Num vb)) = (Num a3, Num b3) /\ hypot a3 b3 <= M).
  { unfold Rgtb, Rltb. destruct (Rlt_dec M (hypot va vb)) as [Hgt|Hle].
    - eexists. eexists. split; [reflexivity|].
      apply hypot_le; [lra|].
      pose proof (hypot_sqr va vb) as Hs.
      set (sp := hypot va vb) in *.
      replace (va * (M / sp) * (va * (M / sp)) + vb * (M / sp) * (vb * (M / sp)))
        with ((va * va + vb * vb) * (M * M) / (sp * sp)) by (field; lra).
      rewrite <- Hs. right. field. lra.
    - exists va, vb. split; [reflexivity | lra]. }
  destruct Hclamp as (a3 & b3 & -> & Hsp).
  match goal with
  | |- context [resolveShipLand land ?s1] => set (ship1 := s1)
  end.
  destruct (resolveShipLand_speed land ship1 a3 b3 M eq_refl eq_refl
              ltac:(lra) Hsp) as (a' & b' & Ha' & Hb' & Hv').
  destruct (resolveShipLand_helm land ship1) as [(F1 & F2 & F3 & F4 & F5 & F6) F7].
  unfold withinWorld, sameHelm.
  cbn [rudderAngle throttle angularVel heading kind alive currentSpeed vx vy
       set_x set_y].
  rewrite F1, F2, F3, F4, F5, F6, F7, Ha', Hb'.
  split; [repeat split; try reflexivity; exact Hh|].
  split; [exists cs1; reflexivity|].
  exists a', b'. auto.
Qed.

Lemma drag_bounds k :
  0 < (if Kind_eqb k BB then DRAG_BB else DRAG_DD) < 1.
Proof. destruct k; simpl; unfold DRAG_BB, DRAG_DD; lra. Qed.

Lemma physicsStep_dead land s dt a b :
  alive s = false ->
  vx s = Num a -> vy s = Num b -> hypot a b <= maxSpeed (kind s) ->
  let s' := physicsStep land s dt in
  sameHelm s s' /\ currentSpeed s' = currentSpeed s /\
  exists a' b', vx s' = Num a' /\ vy s' = Num b' /\
                hypot a' b' <= maxSpeed (kind s).
Proof.
  intros Hal Ha Hb Hv. unfold physicsStep. rewrite Hal, Ha, Hb.
  cbn [negb jmul lift2]. pose proof (drag_bounds (kind s)) as Hd.
  set (drag := if Kind_eqb (kind s) BB then DRAG_BB else DRAG_DD) in *.
  split; [repeat split|]. split; [reflexivity|].
  eexists. eexists. split; [reflexivity|]. split; [reflexivity|].
  pose proof (maxSpeed_pos (kind s)).
  apply hypot_le; [lra|]. pose proof (hypot_le_inv a b _ Hv) as Hsq.
  replace (a * drag * (a * drag) + b * drag * (b * drag))
    with (drag * drag * (a * a + b * b)) by ring.
  assert (0 <= drag * drag <= 1) by nra.
  assert (0 <= a * a + b * b) by nra. nra.
Qed.

Lemma applyRudder_sound s turn dt r :
  rudderAngle s = Num r -> sound s -> sound (applyRudder s turn dt).
Proof.
  intros Hr (av & h & cs & Hav & Hh & Hcs). unfold sound, applyRudder.
  cbn [angularVel heading currentSpeed set_rudderAngle set_heading set_angularVel].
  rewrite Hr, Hav, Hh, Hcs. cbn [orZero jsign lift1 jsub jmul lift2].
  match goal with
  | |- context [jclamp ?v _ _] =>
      assert (Hv : exists u, v = Num u)
        by (repeat match goal with
                   | |- context [if ?c then _ else _] => destruct c
                   end; eauto)
  end.
  destruct Hv as [u ->].
  cbn [jclamp jmax jmin jabs jsign jdiv jmul jsub jadd lift1 lift2
       isUndefined isNaN orb].
  eauto 10.
Qed.

Lemma applyPlayerRudder_sound s st dt r :
  rudderAngle s = Num r -> sound s -> sound (applyPlayerRudder s st dt).
Proof.
  intros Hr (av & h & cs & Hav & Hh & Hcs). unfold sound, applyPlayerRudder.
  cbn [angularVel heading currentSpeed set_rudderAngle set_heading set_angularVel].
  rewrite Hr, Hav, Hh, Hcs. cbn [orZero jsign lift1 jsub jmul lift2].
  match goal with
  | |- context [jclamp ?v _ _] =>
      assert (Hv : exists u, v = Num u)
        by (repeat match goal with
                   | |- context [if ?c then _ else _] => destruct c
                   end; eauto)
  end.
  destruct Hv as [u ->].
  cbn [jclamp jmax jmin jabs jsign jdiv jmul jsub jadd lift1 lift2
       isUndefined isNaN orb].
  eauto 10.
Qed.

Lemma updateThrottle_bounds w k s dt t :
  throttle s = Num t -> -100 <= t <= 100 -> 0 <= dt ->
  exists t', throttle (updateThrottle w k s dt) = Num t' /\ -100 <= t' <= 100.
Proof.
  intros Ht Hb Hdt. unfold updateThrottle. rewrite Ht.
  cbn [throttle set_throttle].
  assert (Hstep : 0 <= THROTTLE_CHANGE_RATE * dt)
    by (unfold THROTTLE_CHANGE_RATE; lra).
  set (st := THROTTLE_CHANGE_RATE * dt) in *.
  destruct w, k; cbn [jmin jmax jadd jsub lift2 isNaN isUndefined orb];
    eexists; (split; [reflexivity|]);
    unfold Rmax, Rmin; repeat destruct Rle_dec; lra.
Qed.

Lemma navUpdate_helm lo act dt s :
  -100 <= lo <= 0 -> (isPlayerAction act = true -> lo = -100) ->
  0 <= dt -> helmOK lo s ->
  helmOK lo (navUpdate act dt s) /\
  kind (navUpdate act dt s) = kind s /\
  (act <> Sink -> alive (navUpdate act dt s) = alive s) /\
  (act = Sink \/ act = NavIdle ->
     vx (navUpdate act dt s) = vx s /\ vy (navUpdate act dt s) = vy s).
Proof.
  intros Hlo Hpl Hdt ((r & Hr & Hrb) & (t & Ht & Htb) & Hs & (a & b & Ha & Hb)).
  pose proof MAX_RUDDER_pos as Hm.
  destruct act as [turn tgt vx' vy' | h' vx' vy' avoid ls | w k st | | ];
    cbn [navUpdate].
  - (* steerToPoint and updateAIThrottle *)
    split; [|split; [reflexivity | split; [reflexivity | intros [?|?]; discriminate]]].
    split; [apply applyRudder_rudder|].
    split.
    { destruct (updateAIThrottle_throttle
                  (set_vy vy' (set_vx vx' (applyRudder s turn dt))) tgt dt)
        as (t' & Ht' & Hb'). exists t'. split; [exact Ht' | lra]. }
    split; [exact (applyRudder_sound s turn dt r Hr Hs)|].
    exists vx', vy'. split; reflexivity.
  - (* locked escort *)
    split; [|split; [destruct avoid; reflexivity
                    | split; [destruct avoid; reflexivity
                             | intros [?|?]; discriminate]]].
    assert (Hs1 : sound (set_vy vy' (set_vx vx' (set_heading h' s)))).
    { destruct Hs as (av & h & cs & Hav & Hh & Hcs).
      exists av, h', cs. repeat split; assumption. }
    assert (Hth : exists t', jclamp (Num ls / maxSpeed (kind s) * 100)%js 0 100
                             = Num t' /\ lo <= t' <= 100).
    { eexists. split; [reflexivity|].
      pose proof (clamp_bounds (ls / maxSpeed (kind s) * 100) 0 100 ltac:(lra)).
      unfold clamp in *. lra. }
    destruct avoid as [stv|].
    + split; [apply applyRudder_rudder|]. split; [exact Hth|].
      split; [exact (applyRudder_sound (set_vy vy' (set_vx vx' (set_heading h' s))) stv dt r Hr Hs1)|].
      exists vx', vy'. split; reflexivity.
    + split.
      { cbn [rudderAngle set_rudderAngle set_throttle set_vx set_vy set_heading].
        rewrite Hr. cbn [orZero jmul lift2]. eexists. split; [reflexivity|].
        rewrite Rabs_mult, (Rabs_pos_eq (95 / 100)) by lra.
        pose proof (Rabs_pos r). nra. }
      split; [exact Hth|]. split; [exact Hs1|].
      exists vx', vy'. split; reflexivity.
  - (* playerControl *)
    specialize (Hpl eq_refl). subst lo.
    split; [|split; [reflexivity | split; [reflexivity | intros [?|?]; discriminate]]].
    split; [apply applyPlayerRudder_rudder|].
    split; [exact (updateThrottle_bounds w k s dt t Ht Htb Hdt)|].
    split.
    { apply (applyPlayerRudder_sound (updateThrottle w k s dt) st dt r); [exact Hr|].
      destruct Hs as (av & h & cs & Hav & Hh & Hcs).
      exists av, h, cs. repeat split; assumption. }
    exists a, b. split; assumption.
  - (* no decision *)
    split; [|split; [reflexivity | split; [reflexivity | intros _; split; reflexivity]]].
    split; [eauto|]. split; [eauto|]. split; [exact Hs|]. eauto.
  - (* loss *)
    split; [|split; [reflexivity | split; [congruence | intros _; split; reflexivity]]].
    split; [eauto|]. split; [eauto|]. split; [exact Hs|]. eauto.
Qed.

Lemma physicsStep_helm land s dt : sameHelm s (physicsStep land s dt).
Proof.
  unfold physicsStep. destruct (alive s) eqn:Hal; cbn [negb].
  - match goal with
    | |- context [if ?c then _ else _] => destruct c
    end;
    match goal with
    | |- context [resolveShipLand land ?s1] =>
        destruct (resolveShipLand_helm land s1) as [(F1 & F2 & F3 & F4 & F5 & F6) _]
    end;
    unfold withinWorld, sameHelm;
    cbn [rudderAngle throttle angularVel heading kind alive set_x set_y];
    rewrite F1, F2, F3, F4, F5, F6; repeat split; exact Hal.
  - unfold sameHelm. repeat split; exact Hal.
Qed.

Lemma shipTick_inv land lo act dt s :
  -100 <= lo <= 0 -> (isPlayerAction act = true -> lo = -100) ->
  0 <= dt -> tickInv lo s -> tickInv lo (shipTick land s (act, dt)).
Proof.
  intros Hlo Hpl Hdt [(Hr & Ht & (a & b & Ha & Hb & Hv)) Hs].
  assert (Hh : helmOK lo s) by (repeat split; eauto).
  destruct (navUpdate_helm lo act dt s Hlo Hpl Hdt Hh)
    as (Hh1 & Hk1 & Hal1 & Hv1).
  unfold shipTick. cbn [fst snd].
  set (s1 := if alive s then navUpdate act dt s else s).
  assert (Hcase :
    (alive s1 = true /\ helmOK lo s1 /\ kind s1 = kind s) \/
    (alive s1 = false /\ helmOK lo s1 /\ kind s1 = kind s /\
     vx s1 = Num a /\ vy s1 = Num b)).
  { unfold s1. destruct (alive s) eqn:Hal.
    - destruct act; [left|left|left|left|right];
        try (split; [apply Hal1; discriminate | split; [exact Hh1 | exact Hk1]]).
      destruct (Hv1 (or_introl eq_refl)) as [-> ->].
      split; [reflexivity|]. split; [exact Hh1|]. split; [exact Hk1|]. auto.
    - right. split; [exact Hal|]. split; [exact Hh|]. split; [reflexivity|]. auto. }
  clearbody s1.
  destruct Hcase as [(Hal & (Hr1 & Ht1 & Hs1 & (a1 & b1 & Ha1 & Hb1)) & Hk)
                    |(Hal & (Hr1 & Ht1 & Hs1 & _) & Hk & Ha1 & Hb1)].
  - destruct Hs1 as (av & h & cs & Hav & Hhd & Hcs).
    destruct (physicsStep_alive land s1 dt a1 b1 h cs Hal Ha1 Hb1 Hhd Hcs)
      as ((F1 & F2 & F3 & F4 & F5 & F6) & (c' & Hc') & (a' & b' & Ha' & Hb' & Hv')).
    split.
    + split; [rewrite F1; exact Hr1|]. split; [rewrite F2; exact Ht1|].
      exists a', b'. rewrite F5. auto.
    + exists av, h, c'. rewrite F3, F4. auto.
  - rewrite <- Hk in Hv.
    destruct (physicsStep_dead land s1 dt a b Hal Ha1 Hb1 Hv)
      as ((F1 & F2 & F3 & F4 & F5 & F6) & F7 & (a' & b' & Ha' & Hb' & Hv')).
    destruct Hs1 as (av & h & cs & Hav & Hhd & Hcs).
    split.
    + split; [rewrite F1; exact Hr1|]. split; [rewrite F2; exact Ht1|].
      exists a', b'. rewrite F5. auto.
    + exists av, h, cs. rewrite F3, F4, F7. auto.
Qed.

Lemma runTicks_inv land lo ticks s :
  -100 <= lo <= 0 ->
  Forall (fun t => 0 <= snd t /\ (isPlayerAction (fst t) = true -> lo = -100))
         ticks ->
  tickInv lo s -> tickInv lo (runTicks land ticks s).
Proof.
  intros Hlo Hall. revert s.
  induction Hall as [|[act dt] ticks [Hdt Hpl] _ IH]; intros s Hs; cbn.
  - exact Hs.
  - apply IH. apply shipTick_inv; auto.
Qed.

Lemma mkShip_inv id tm k x0 y0 h : tickInv 0 (mkShip id tm k x0 y0 h).
Proof.
  pose proof MAX_RUDDER_pos. pose proof (maxSpeed_pos k).
  split; [split; [|split]|].
  - exists 0. split; [reflexivity | rewrite Rabs_R0; lra].
  - exists 50. split; [reflexivity | lra].
  - exists 0, 0. split; [reflexivity|]. split; [reflexivity|].
    apply hypot_le; cbn [kind mkShip]; nra.
  - exists 0, h, 0. repeat split.
Qed.

Lemma tickInv_weaken lo lo' s : lo' <= lo -> tickInv lo s -> tickInv lo' s.
Proof.
  intros H [(Hr & (t & Ht & Hb) & Hv) Hs].
  split; [|exact Hs]. split; [exact Hr|]. split; [|exact Hv].
  exists t. split; [exact Ht | lra].
Qed.

(** C1 (amended): for every vessel, from the moment [mkShip] creates it
    and after every tick (decision loop, then [physicsStep]) with a time
    step that is not negative: the rudder angle is a number with
    |rudderAngle| <= MAX_RUDDER_ANGLE, the speed [hypot vx vy] is at
    most the class's maxSpeed, and the throttle is a number in
    [-100, 100]; for a vessel that the player never steers the throttle
    lies in [0, 100]. *)
Theorem vessel_bounds_every_tick
    (land : list Obstacle) (id : nat) (tm : Team) (k : Kind) (x0 y0 h : R)
    (ticks : list (NavAction * R)) :
  Forall (fun t => 0 <= snd t) ticks ->
  let s := runTicks land ticks (mkShip id tm k x0 y0 h) in
  bounded (-100) s /\
  (forallb (fun t => negb (isPlayerAction (fst t))) ticks = true ->
   bounded 0 s).
Proof.
  intros Hdt s. split.
  - apply (runTicks_inv land (-100) ticks); [lra | |].
    + eapply Forall_impl; [|exact Hdt]. cbv beta. intros; split; auto.
    + apply (tickInv_weaken 0); [lra | apply mkShip_inv].
  - intros Hai. apply (runTicks_inv land 0 ticks); [lra | | apply mkShip_inv].
    rewrite forallb_forall in Hai. rewrite Forall_forall in *.
    intros t Hin. split; [apply Hdt; exact Hin|].
    intros Hp. specialize (Hai t Hin). rewrite Hp in Hai. discriminate.
Qed.

(** A player who holds the astern key walks the throttle down by
    [THROTTLE_CHANGE_RATE * dt] each tick. *)
Lemma reverse_ticks land n dt s t :
  alive s = true -> throttle s = Num t -> 0 <= dt ->
  -100 <= t - INR n * (45 * dt) ->
  let s' := runTicks land (repeat (NavPlayer false true 0, dt) n) s in
  alive s' = true /\ throttle s' = Num (t - INR n * (45 * dt)).
Proof.
  revert s t; induction n as [|n IH]; intros s t Hal Ht Hdt Hlo.
  - cbn. split; [exact Hal|]. rewrite Ht. f_equal. lra.
  - rewrite S_INR in *. cbn [repeat runTicks fold_left].
    fold (runTicks land (repeat (NavPlayer false true 0, dt) n)
                   (shipTick land s (NavPlayer false true 0, dt))).
    pose proof (pos_INR n) as Hn.
    assert (Hstep : alive (shipTick land s (NavPlayer false true 0, dt)) = true /\
                    throttle (shipTick land s (NavPlayer false true 0, dt))
                    = Num (t - 45 * dt)).
    { unfold shipTick. cbn [fst snd]. rewrite Hal.
      match goal with
      | |- context [physicsStep land ?s1 dt] =>
          destruct (physicsStep_helm land s1 dt) as (_ & F2 & _ & _ & _ & F6)
      end.
      rewrite F2, F6. split; [exact Hal|].
      unfold navUpdate, applyPlayerRudder, updateThrottle.
      cbn [throttle set_throttle set_rudderAngle set_heading set_angularVel].
      rewrite Ht. unfold THROTTLE_CHANGE_RATE.
      cbn [jmax jsub lift2 isNaN isUndefined orb]. f_equal.
      apply Rmax_right. nra. }
    destruct Hstep as [Hal' Ht'].
    destruct (IH _ _ Hal' Ht' Hdt ltac:(nra)) as [Ha2 Ht2].
    split; [exact Ha2|]. rewrite Ht2. f_equal. lra.
Qed.

(** C1, as stated, fails for the vessel under player control: forty ticks
    of 33 ms with the astern key held take the throttle of a new vessel
    from 50 to -9.4, outside [0, 100]. *)
Lemma player_reverse_leaves_range :
  let ticks := repeat (NavPlayer false true 0, 33 / 1000) 40 in
  let s := runTicks [] ticks (mkShip 0 P DD 0 0 0) in
  Forall (fun t => 0 <= snd t) ticks /\
  (exists t, throttle s = Num t /\ t < 0) /\
  ~ bounded 0 s.
Proof.
  intros ticks s.
  assert (H40 : INR 40 = 40) by (rewrite INR_IZR_INZ; reflexivity).
  destruct (reverse_ticks [] 40 (33 / 1000) (mkShip 0 P DD 0 0 0) 50
              eq_refl eq_refl ltac:(lra) ltac:(rewrite H40; lra)) as [_ Ht].
  fold ticks in Ht. fold s in Ht. rewrite H40 in Ht.
  split; [|split].
  - unfold ticks. apply Forall_forall. intros t Hin.
    apply repeat_spec in Hin. subst t. cbn. lra.
  - eexists. split; [exact Ht | lra].
  - intros (_ & (t & Ht' & Hb) & _). rewrite Ht in Ht'.
    injection Ht' as <-. lra.
Qed.

(** C9, at a failing input: with a time step of 0 and no turn demanded,
    a [NaN] rudder angle reaches [Math.sign] unguarded; the angular
    velocity and the heading come out [NaN], and only the rudder angle
    itself is reset. *)
Theorem applyRudder_nan_escapes :
  let s' := Dynamics.applyRudder corruptRudder 0 0 in
  angularVel s' = NaN /\ heading s' = NaN /\ rudderAngle s' = Num 0.
Proof.
  pose proof MAX_RUDDER_pos as Hm.
  unfold applyRudder, corruptRudder.
  cbn [rudderAngle angularVel heading kind set_rudderAngle set_heading
       set_angularVel mkShip orZero].
  rewrite (clamp_id 0) by lra.
  replace (0 - 0) with 0 by lra. rewrite Rabs_R0.
  unfold Rgtb, Rltb.
  destruct (Rlt_dec (1 / 100) 0) as [?|_]; [lra|].
  destruct (Rlt_dec 0 (2 / 100)) as [_|?]; [|lra].
  destruct (Rlt_dec 0 (2 / 10 * 0)) as [?|_]; [lra|].
  cbn. repeat split.
Qed.

(** With a positive time step, [applyRudder] treats a corrupt rudder
    angle or angular velocity exactly as the safe default 0. *)
Lemma applyRudder_heals s turn dt :
  0 < dt ->
  let s1 := applyRudder s turn dt in
  let s2 := applyRudder (healed s) turn dt in
  rudderAngle s1 = rudderAngle s2 /\ angularVel s1 = angularVel s2 /\
  heading s1 = heading s2.
Proof.
  intros Hdt. unfold applyRudder, healed.
  cbn [rudderAngle angularVel heading kind set_rudderAngle set_heading
       set_angularVel set_throttle].
  set (T := clamp turn (- MAX_RUDDER_ANGLE) MAX_RUDDER_ANGLE).
  assert (Hr1 :
    (if Rgtb (Rabs (T - orZero (rudderAngle s))) (1 / 100)
     then Num (orZero (rudderAngle s)
               + clamp (T - orZero (rudderAngle s)) (- (3 / 10 * dt)) (3 / 10 * dt))
     else if Rltb (Rabs T) (2 / 100)
          then if Rltb (Rabs (orZero (rudderAngle s))) (2 / 10 * dt) then Num 0
               else (Num (orZero (rudderAngle s))
                     - jsign (rudderAngle s) * Num (2 / 10 * dt))%js
          else rudderAngle s)
    =
    (let r := if isNaN (rudderAngle s) then Num 0 else rudderAngle s in
     if Rgtb (Rabs (T - orZero r)) (1 / 100)
     then Num (orZero r + clamp (T - orZero r) (- (3 / 10 * dt)) (3 / 10 * dt))
     else if Rltb (Rabs T) (2 / 100)
          then if Rltb (Rabs (orZero r)) (2 / 10 * dt) then Num 0
               else (Num (orZero r) - jsign r * Num (2 / 10 * dt))%js
          else r)).
  { destruct (rudderAngle s) as [r| |]; cbn [isNaN orZero]; try reflexivity;
      cbv zeta; cbn [orZero];
      replace (T - 0) with T by lra; rewrite Rabs_R0;
      unfold Rgtb, Rltb;
      destruct (Rlt_dec (1 / 100) (Rabs T)); try reflexivity;
      destruct (Rlt_dec (Rabs T) (2 / 100)); try lra;
      destruct (Rlt_dec 0 (2 / 10 * dt)); try lra; reflexivity. }
  cbv zeta in Hr1. rewrite Hr1. clear Hr1.
  assert (Hav :
    (if isUndefined (angularVel s) || isNaN (angularVel s)
     then Num 0 else angularVel s)
    =
    (let a := if isNaN (angularVel s) then Num 0 else angularVel s in
     if isUndefined a || isNaN a then Num 0 else a)).
  { destruct (angularVel s); reflexivity. }
  cbv zeta in Hav. rewrite Hav. clear Hav.
  repeat split.
Qed.

(** [updateAIThrottle] treats a corrupt throttle exactly as the safe
    default 50, whatever the time step. *)
Lemma updateAIThrottle_heals s tgt dt :
  throttle (updateAIThrottle s tgt dt) =
  throttle (updateAIThrottle (healed s) tgt dt).
Proof.
  unfold updateAIThrottle, healed. cbn [throttle set_throttle set_rudderAngle set_angularVel].
  destruct (throttle s); reflexivity.
Qed.

Lemma vessel_bounds_every_tick_witness :
  let ticks := [ (NavSteer (3 / 10) 80 5 0, 1 / 30);
                 (NavLocked 0 4 0 None 20, 1 / 30);
                 (NavIdle, 0);
                 (Sink, 1 / 30) ] in
  let s := runTicks [] ticks (mkShip 0 P DD 100 100 0) in
  bounded (-100) s /\
  (forallb (fun t => negb (isPlayerAction (fst t))) ticks = true ->
   bounded 0 s).
Proof.
  apply (vessel_bounds_every_tick [] 0 P DD 100 100 0).
  repeat constructor; cbn [snd]; lra.
Defined.

End DynamicsFacts.

(** ** Local avoidance planner and commander route planner *)

Section PlannerFacts.
Import Config Planner.

Lemma hypot_ge a b m : m * m <= a * a + b * b -> m <= hypot a b.
Proof.
  intros H. destruct (Rle_dec m 0) as [Hm|Hm].
  - pose proof (hypot_nonneg a b). lra.
  - apply Rnot_lt_le. intros Hlt.
    pose proof (hypot_sqr a b). pose proof (hypot_nonneg a b). nra.
Qed.

Lemma hypot_gt a b m : 0 <= m -> m * m < a * a + b * b -> m < hypot a b.
Proof.
  intros Hm H. apply Rnot_le_lt. intros Hle.
  pose proof (hypot_le_inv a b m Hle). lra.
Qed.

Lemma hypot_lt a b m : 0 < m -> a * a + b * b < m * m -> hypot a b < m.
Proof.
  intros Hm H. apply Rnot_le_lt. intros Hle.
  pose proof (hypot_sqr a b). pose proof (hypot_nonneg a b). nra.
Qed.

Lemma hypot_eq a b c : 0 <= c -> a * a + b * b = c * c -> hypot a b = c.
Proof.
  intros Hc H. unfold hypot. rewrite H. apply sqrt_square. exact Hc.
Qed.

Lemma Rltb_true a b : a < b -> Rltb a b = true.
Proof. intros H. unfold Rltb. destruct (Rlt_dec a b); [reflexivity | contradiction]. Qed.

Lemma Rltb_false a b : b <= a -> Rltb a b = false.
Proof. intros H. unfold Rltb. destruct (Rlt_dec a b); [lra | reflexivity]. Qed.

Lemma Rleb_true a b : a <= b -> Rleb a b = true.
Proof. intros H. unfold Rleb. destruct (Rle_dec a b); [reflexivity | contradiction]. Qed.

Lemma Rleb_false a b : b < a -> Rleb a b = false.
Proof. intros H. unfold Rleb. destruct (Rle_dec a b); [lra | reflexivity]. Qed.

Lemma totalPush_far qx qy margin c :
  cr c + margin <= hypot (qx - cx c) (qy - cy c) ->
  totalPush qx qy margin [c] = (0, 0, false).
Proof.
  intros H. unfold totalPush. cbn [fold_left].
  rewrite Rltb_false by exact H. reflexivity.
Qed.

Lemma pushToSafePoint_far x y margin c :
  cr c + margin <= hypot (x - cx c) (y - cy c) ->
  pushToSafePoint x y margin [c] =
  mkPoint (clamp x (margin + 100) (WORLD_w - margin - 100))
          (clamp y (margin + 100) (WORLD_h - margin - 100)).
Proof.
  intros H. unfold pushToSafePoint. cbn [pushRounds].
  rewrite (totalPush_far _ _ _ _ H). reflexivity.
Qed.

Lemma dest_pushed :
  pushToSafePoint 500 1500 COMMANDER_LAND_MARGIN oneIsland = mkPoint 800 1950.
Proof.
  unfold pushToSafePoint, COMMANDER_LAND_MARGIN, ESCORT_FORMATION_RADIUS, oneIsland.
  cbn [pushRounds]. unfold totalPush at 1. cbn [fold_left theIsland cx cy cr].
  assert (Hd : hypot (500 - 500) (1500 - 1000) = 500)
    by (apply hypot_eq; lra).
  rewrite Hd. rewrite (Rltb_true 500) by lra.
  unfold Rgtb. rewrite (Rltb_true (1 / 10)) by lra.
  cbn [andb negb].
  rewrite totalPush_far.
  - cbn [negb]. unfold WORLD_w, WORLD_h, clamp.
    f_equal; unfold Rmax, Rmin; repeat destruct Rle_dec; lra.
  - cbn [cx cy cr theIsland]. apply hypot_ge. lra.
Qed.

Ltac clamp_eval := unfold clamp, Rmax, Rmin; repeat destruct Rle_dec; lra.

Lemma dest_stays :
  pushToSafePoint 800 1950 COMMANDER_LAND_MARGIN oneIsland = mkPoint 800 1950.
Proof.
  unfold COMMANDER_LAND_MARGIN, ESCORT_FORMATION_RADIUS, oneIsland.
  rewrite pushToSafePoint_far.
  - unfold WORLD_w, WORLD_h. f_equal; clamp_eval.
  - cbn [cx cy cr theIsland]. apply hypot_ge. lra.
Qed.

Lemma direct_blocked :
  isDirectPathClear 500 500 800 1950 COMMANDER_LAND_MARGIN oneIsland = false.
Proof.
  unfold isDirectPathClear. cbn [seq forallb].
  replace (isPointSafe _ _ _ _) with false; [reflexivity|].
  unfold isPointSafe, distanceToNearestLand, oneIsland.
  cbn [fold_left theIsland cx cy cr].
  unfold Rgeb, COMMANDER_LAND_MARGIN, ESCORT_FORMATION_RADIUS.
  symmetry. apply Rleb_false.
  assert (hypot (500 + (800 - 500) * (INR 0 / INR (Z.to_nat (Z.max 10 (ceil (hypot (800 - 500) (1950 - 500) / 100))))) - 500)
                (500 + (1950 - 500) * (INR 0 / INR (Z.to_nat (Z.max 10 (ceil (hypot (800 - 500) (1950 - 500) / 100))))) - 1000) = 500).
  { apply hypot_eq; [lra|]. cbn [INR]. unfold Rdiv. rewrite !Rmult_0_l, !Rmult_0_r. lra. }
  lra.
Qed.

Lemma island_near_path :
  doesPathPassNearIsland 500 500 800 1950 theIsland COMMANDER_LAND_MARGIN = true.
Proof.
  unfold doesPathPassNearIsland, COMMANDER_LAND_MARGIN, ESCORT_FORMATION_RADIUS.
  cbn [theIsland cx cy cr].
  rewrite (Rltb_false _ 1) by lra.
  set (t := clamp _ 0 1).
  pose proof (clamp_bounds (((500 - 500) * (800 - 500) + (1000 - 500) * (1950 - 500)) /
     ((800 - 500) * (800 - 500) + (1950 - 500) * (1950 - 500))) 0 1 ltac:(lra)) as Ht.
  fold t in Ht.
  apply Rltb_true. apply hypot_lt; [lra|]. nra.
Qed.

Lemma atan2_right y x : 0 < x -> atan2 y x = atan (y / x).
Proof. intros H. unfold atan2. destruct (Rlt_dec 0 x); [reflexivity | contradiction]. Qed.

Lemma atan2_down y x : y < 0 -> x = 0 -> atan2 y x = - (PI / 2).
Proof.
  intros H Hx. unfold atan2.
  destruct (Rlt_dec 0 x); [lra|]. destruct (Rlt_dec x 0); [lra|].
  destruct (Rlt_dec 0 y); [lra|].
  destruct (Rlt_dec y 0); [reflexivity | contradiction].
Qed.

Lemma wrapAngle_id a : - PI <= a <= PI -> wrapAngle a = a.
Proof.
  intros [H1 H2]. unfold wrapAngle. cbn [lowerWhileAbovePi].
  destruct (Rlt_dec PI a); [lra|]. cbn [raiseWhileBelowPi].
  destruct (Rlt_dec a (- PI)); [lra | reflexivity].
Qed.

Lemma cos_PI6_le m : - (PI / 6) <= m <= PI / 6 -> sqrt 3 / 2 <= cos m.
Proof.
  intros [H1 H2]. pose proof PI_RGT_0 as Hpi. rewrite <- cos_PI6.
  assert (Hc : forall u, 0 <= u <= PI / 6 -> cos (PI / 6) <= cos u).
  { intros u [Hu1 Hu2]. destruct (Req_dec u (PI / 6)) as [->|Hne]; [lra|].
    left. apply cos_decreasing_1; lra. }
  destruct (Rle_dec 0 m).
  - apply Hc; lra.
  - rewrite <- (cos_neg m). apply Hc; lra.
Qed.

Lemma curve_waypoint :
  exists wx wy,
    generateCurveAroundIsland 500 500 800 1950 theIsland
      COMMANDER_LAND_MARGIN oneIsland = mkPoint wx wy /\
    900 < hypot (wx - 500) (wy - 1000).
Proof.
  pose proof PI_RGT_0 as Hpi.
  unfold generateCurveAroundIsland, COMMANDER_LAND_MARGIN, ESCORT_FORMATION_RADIUS.
  cbn [theIsland cx cy cr].
  rewrite (atan2_down (500 - 1000) (500 - 500)) by lra.
  rewrite (atan2_right (1950 - 1000) (800 - 500)) by lra.
  set (th := atan ((1950 - 1000) / (800 - 500))).
  assert (Hth : PI / 4 < th < PI / 2).
  { split.
    - rewrite <- atan_1. apply atan_increasing. lra.
    - apply atan_bound. }
  rewrite wrapAngle_id by lra.
  set (m := - (PI / 2) + (th - - (PI / 2)) * (5 / 10)).
  assert (Hm : - (PI / 6) <= m <= PI / 6) by (unfold m; lra).
  pose proof (cos_PI6_le m Hm) as Hcos.
  assert (H3 : sqrt 3 * sqrt 3 = 3) by (apply sqrt_sqrt; lra).
  assert (Hs3 : 0 <= sqrt 3) by apply sqrt_pos.
  assert (Hs3' : 173 / 100 <= sqrt 3) by nra.
  pose proof (COS_bound m) as [_ Hc1].
  pose proof (sin2_cos2 m) as Hsc. unfold Rsqr in Hsc.
  unfold oneIsland. rewrite pushToSafePoint_far.
  2:{ cbn [cx cy cr theIsland]. apply hypot_ge.
      replace ((500 + cos m * (200 + (200 + 500) + 150) - 500) *
               (500 + cos m * (200 + (200 + 500) + 150) - 500) +
               (1000 + sin m * (200 + (200 + 500) + 150) - 1000) *
               (1000 + sin m * (200 + (200 + 500) + 150) - 1000))
        with (1050 * 1050 * (sin m * sin m + cos m * cos m)) by ring.
      rewrite Hsc. lra. }
  cbn [px py]. eexists. eexists. split; [reflexivity|].
  unfold WORLD_w, WORLD_h.
  set (X := 500 + cos m * (200 + (200 + 500) + 150)).
  assert (HX : 500 + 1050 * (173 / 200) <= X <= 1550) by (unfold X; lra).
  replace (clamp X (200 + 500 + 100) (8960 - (200 + 500) - 100)) with X
    by (symmetry; apply clamp_id; lra).
  apply hypot_gt; [lra|].
  set (Y := clamp (1000 + sin m * (200 + (200 + 500) + 150))
                  (200 + 500 + 100) (6160 - (200 + 500) - 100)).
  pose proof (Rle_0_sqr (Y - 1000)) as HY. unfold Rsqr in HY.
  nra.
Qed.

Lemma isPointSafe_single x y margin c :
  cr c + margin <= hypot (x - cx c) (y - cy c) ->
  isPointSafe x y margin [c] = true.
Proof.
  intros H. unfold isPointSafe, distanceToNearestLand. cbn [fold_left].
  unfold Rgeb. apply Rleb_true. lra.
Qed.

Lemma commander_route_value :
  exists wx wy,
    planCommanderRoute oneIsland 500 500 500 1500
    = [mkPoint wx wy; mkPoint 800 1950] /\
    900 < hypot (wx - 500) (wy - 1000).
Proof.
  unfold planCommanderRoute.
  rewrite dest_pushed. cbn [px py].
  unfold generateSmoothPath. rewrite dest_stays. cbn [px py].
  rewrite direct_blocked.
  assert (Hf : filter (fun c => doesPathPassNearIsland 500 500 800 1950 c
                                  COMMANDER_LAND_MARGIN) oneIsland
               = [theIsland]).
  { unfold oneIsland. cbn [filter]. rewrite island_near_path. reflexivity. }
  rewrite Hf.
  cbn [sortByDistance fold_right insertByDistance curveAround app].
  destruct curve_waypoint as (wx & wy & Hw & Hfar).
  rewrite Hw. cbn [map px py].
  assert (Hend : 900 < hypot (800 - 500) (1950 - 1000))
    by (apply hypot_gt; lra).
  exists wx, wy. split; [|exact Hfar].
  unfold oneIsland.
  rewrite !isPointSafe_single;
    cbn [cx cy cr theIsland];
    unfold COMMANDER_LAND_MARGIN, ESCORT_FORMATION_RADIUS in *; try lra.
  reflexivity.
Qed.

(** C8: from (500,500) to (500,1500) around the island of radius 200 at
    (500,1000), [planCommanderRoute] returns two waypoints, and each lies
    farther than 200 plus [COMMANDER_LAND_MARGIN] from the centre of the
    island. *)
Theorem commander_route_scenario :
  let route := planCommanderRoute oneIsland 500 500 500 1500 in
  (2 <= length route)%nat /\
  Forall (fun p => hypot (px p - 500) (py p - 1000)
                   > 200 + COMMANDER_LAND_MARGIN) route.
Proof.
  cbv zeta. destruct commander_route_value as (wx & wy & -> & Hfar).
  assert (Hend : 900 < hypot (800 - 500) (1950 - 1000))
    by (apply hypot_gt; lra).
  unfold COMMANDER_LAND_MARGIN, ESCORT_FORMATION_RADIUS.
  split; [cbn; lia|].
  repeat constructor; cbn [px py]; lra.
Qed.

(** ** Local avoidance *)

Lemma firstSome_island (f : nat -> option Crossing) l c hit :
  (forall i h, f i = Some h -> island h = c) ->
  firstSome f l = Some hit -> island hit = c.
Proof.
  intros Hf. induction l as [|i l IH]; cbn; [discriminate|].
  destruct (f i) eqn:E; [intros H; injection H as <-; eapply Hf; eauto | exact IH].
Qed.

Lemma crossesIsland_island sx sy vx vy vv len pad c hit :
  crossesIsland sx sy vx vy vv len pad c = Some hit -> island hit = c.
Proof.
  unfold crossesIsland.
  destruct (firstSome _ _) as [h|] eqn:E.
  - intros H; injection H as <-. eapply firstSome_island; [|exact E].
    intros i h0. cbv beta zeta. destruct (Rltb _ _); [|discriminate].
    intros H; injection H as <-. reflexivity.
  - destruct (Rltb _ _); [|discriminate].
    intros H; injection H as <-. reflexivity.
Qed.

Lemma firstCrossing_In sx sy vx vy vv len pad land hit :
  firstCrossing sx sy vx vy vv len pad land = Some hit -> In (island hit) land.
Proof.
  induction land as [|c land IH]; cbn; [discriminate|].
  destruct (crossesIsland sx sy vx vy vv len pad c) eqn:E.
  - intros H; injection H as <-. left. symmetry.
    eapply crossesIsland_island; exact E.
  - intros H. right. apply IH, H.
Qed.

(** The projection of the island's centre on the segment is inside the
    margin: the island is reported as crossed. *)
Lemma crossesIsland_closest sx sy vx vy vv len pad c :
  (let t := clamp (((cx c - sx) * vx + (cy c - sy) * vy) / vv) 0 1 in
   hypot (sx + vx * t - cx c) (sy + vy * t - cy c) < cr c + pad) ->
  exists hit, crossesIsland sx sy vx vy vv len pad c = Some hit /\
              island hit = c.
Proof.
  cbv zeta. intros H. unfold crossesIsland.
  destruct (firstSome _ _) as [h|] eqn:E.
  - exists h. split; [reflexivity|].
    eapply firstSome_island; [|exact E].
    intros i h0. cbv beta zeta. destruct (Rltb _ _); [|discriminate].
    intros H'; injection H' as <-. reflexivity.
  - rewrite Rltb_true by exact H. eexists; split; reflexivity.
Qed.

(** The end of the segment is inside the margin: the island is reported
    as crossed. *)
Lemma firstSome_hit {A} (f : nat -> option A) l i a :
  In i l -> f i = Some a -> exists b, firstSome f l = Some b.
Proof.
  induction l as [|j l IH]; cbn; [tauto|].
  intros [->|Hin] Hf.
  - rewrite Hf. eauto.
  - destruct (f j); eauto.
Qed.

Lemma crossesIsland_end sx sy tx ty vv len pad c :
  hypot (tx - cx c) (ty - cy c) < cr c + pad ->
  exists hit, crossesIsland sx sy (tx - sx) (ty - sy) vv len pad c = Some hit /\
              island hit = c.
Proof.
  intros H.
  destruct (crossesIsland sx sy (tx - sx) (ty - sy) vv len pad c) as [h|] eqn:E.
  - exists h. split; [reflexivity|]. eapply crossesIsland_island; exact E.
  - exfalso. unfold crossesIsland in E.
    set (n := Z.to_nat (Z.max 5 (ceil (len / 200)))) in *.
    assert (Hn : (5 <= n)%nat) by (unfold n; lia).
    match type of E with
    | match firstSome ?f ?l with _ => _ end = _ =>
        destruct (firstSome_hit f l n
                    (mkCrossing c (INR n / INR n)
                       (sx + (tx - sx) * (INR n / INR n))
                       (sy + (ty - sy) * (INR n / INR n))
                       (hypot (sx + (tx - sx) * (INR n / INR n) - cx c)
                              (sy + (ty - sy) * (INR n / INR n) - cy c))))
          as [b Hb]
    end.
    + apply in_seq. lia.
    + cbv beta zeta.
      assert (H1 : INR n / INR n = 1).
      { apply Rdiv_diag. apply not_0_INR. lia. }
      rewrite H1. rewrite Rltb_true; [reflexivity|].
      replace (sx + (tx - sx) * 1 - cx c) with (tx - cx c) by ring.
      replace (sy + (ty - sy) * 1 - cy c) with (ty - cy c) by ring.
      exact H.
    + rewrite Hb in E. discriminate.
Qed.

(** The point of a segment nearest to a centre is the clamped
    projection of the centre. *)
Lemma segment_closest sx sy vx vy qx qy t :
  0 < vx * vx + vy * vy -> 0 <= t <= 1 ->
  let ts := clamp (((qx - sx) * vx + (qy - sy) * vy) / (vx * vx + vy * vy)) 0 1 in
  0 <= ts <= 1 /\
  hypot (sx + vx * ts - qx) (sy + vy * ts - qy)
  <= hypot (sx + vx * t - qx) (sy + vy * t - qy).
Proof.
  intros Hvv Ht. cbv zeta.
  set (vv := vx * vx + vy * vy) in *.
  set (t0 := ((qx - sx) * vx + (qy - sy) * vy) / vv).
  assert (H0 : t0 * vv = (qx - sx) * vx + (qy - sy) * vy)
    by (unfold t0; field; lra).
  pose proof (clamp_bounds t0 0 1 ltac:(lra)) as Hb.
  split; [exact Hb|].
  set (ts := clamp t0 0 1) in *.
  apply hypot_le; [apply hypot_nonneg|].
  rewrite hypot_sqr.
  assert (Hd : (sx + vx * t - qx) * (sx + vx * t - qx)
               + (sy + vy * t - qy) * (sy + vy * t - qy)
               - ((sx + vx * ts - qx) * (sx + vx * ts - qx)
                  + (sy + vy * ts - qy) * (sy + vy * ts - qy))
               = vv * ((t - ts) * (t + ts - 2 * t0))).
  { unfold vv in *. nra. }
  assert (Hs : 0 <= (t - ts) * (t + ts - 2 * t0)).
  { assert (Hc : (t0 <= 0 /\ ts = 0) \/ (1 <= t0 /\ ts = 1)
                 \/ (0 <= t0 <= 1 /\ ts = t0)).
    { unfold ts, clamp.
      destruct (Rle_dec t0 0); [left; split; [lra|]|].
      { rewrite Rmin_right by lra. apply Rmax_left. lra. }
      destruct (Rle_dec 1 t0); [right; left; split; [lra|]|].
      { rewrite Rmin_left by lra. apply Rmax_right. lra. }
      right; right. split; [lra|].
      rewrite Rmin_right by lra. apply Rmax_right. lra. }
    clearbody ts. clear Hd.
    destruct Hc as [[? ->]|[[? ->]|[? ->]]].
    - replace ((t - 0) * (t + 0 - 2 * t0)) with (t * (t - 2 * t0)) by ring.
      apply Rmult_le_pos; lra.
    - replace ((t - 1) * (t + 1 - 2 * t0))
        with ((1 - t) * (2 * t0 - 1 - t)) by ring.
      apply Rmult_le_pos; lra.
    - replace ((t - t0) * (t + t0 - 2 * t0)) with ((t - t0) * (t - t0))
        by ring.
      apply Rle_0_sqr. }
  assert (0 <= vv * ((t - ts) * (t + ts - 2 * t0)))
    by (apply Rmult_le_pos; lra).
  lra.
Qed.

Lemma firstSome_None {A} (f : nat -> option A) l :
  (forall i, In i l -> f i = None) -> firstSome f l = None.
Proof.
  induction l as [|j l IH]; cbn; [reflexivity|].
  intros H. rewrite (H j) by auto. apply IH. intros i Hi. apply H. auto.
Qed.

Lemma sample_in_unit i n : (0 < n)%nat -> (i <= n)%nat -> 0 <= INR i / INR n <= 1.
Proof.
  intros Hn Hi. pose proof (lt_0_INR n Hn) as Hp.
  pose proof (pos_INR i) as H0. pose proof (le_INR i n Hi) as H1.
  split.
  - apply Rmult_le_pos; [exact H0 | left; apply Rinv_0_lt_compat; exact Hp].
  - apply (Rmult_le_reg_r (INR n)); [exact Hp|].
    unfold Rdiv. rewrite Rmult_assoc, Rinv_l by lra. lra.
Qed.

(** No crossing of one island is reported exactly when the whole segment
    keeps the margin. *)
Lemma crossesIsland_None sx sy vx vy pathLen pad c :
  0 < vx * vx + vy * vy ->
  crossesIsland sx sy vx vy (vx * vx + vy * vy) pathLen pad c = None <->
  forall t, 0 <= t <= 1 ->
            cr c + pad <= hypot (sx + vx * t - cx c) (sy + vy * t - cy c).
Proof.
  intros Hvv. split.
  - intros H t Ht.
    destruct (segment_closest sx sy vx vy (cx c) (cy c) t Hvv Ht) as [_ Hle].
    unfold crossesIsland in H.
    destruct (firstSome _ _); [discriminate|].
    unfold Rltb in H. destruct (Rlt_dec _ _) as [|Hge]; [discriminate|].
    lra.
  - intros H. unfold crossesIsland.
    set (n := Z.to_nat (Z.max 5 (ceil (pathLen / 200)))).
    assert (Hn : (0 < n)%nat) by (unfold n; lia).
    rewrite firstSome_None.
    + rewrite Rltb_false; [reflexivity|]. apply H. apply clamp_bounds. lra.
    + intros i Hi. apply in_seq in Hi. cbv beta zeta.
      rewrite Rltb_false; [reflexivity|]. apply H.
      apply (sample_in_unit i n); lia.
Qed.

Lemma atan2_left y x : x < 0 -> y = 0 -> atan2 y x = PI.
Proof.
  intros Hx ->. unfold atan2.
  destruct (Rlt_dec 0 x); [lra|]. destruct (Rlt_dec x 0); [|contradiction].
  destruct (Rle_dec 0 0); [|lra].
  unfold Rdiv. rewrite Rmult_0_l, atan_0. lra.
Qed.

Lemma atan2_right_zero y x : 0 < x -> y = 0 -> atan2 y x = 0.
Proof.
  intros Hx ->. rewrite atan2_right by exact Hx.
  unfold Rdiv. rewrite Rmult_0_l. apply atan_0.
Qed.

Lemma Obstacle_eqb_refl c : Obstacle_eqb c c = true.
Proof. unfold Obstacle_eqb. apply Nat.eqb_refl. Qed.

Lemma Obstacle_eqb_A_B : Obstacle_eqb islandB islandA = false.
Proof. reflexivity. Qed.

Lemma sin_neg_PI2 : sin (- (PI / 2)) = -1.
Proof. rewrite sin_neg, sin_PI2. reflexivity. Qed.

Lemma cos_neg_PI2 : cos (- (PI / 2)) = 0.
Proof. rewrite cos_neg, cos_PI2. reflexivity. Qed.

Lemma waypoint_inside_island :
  findWaypointAroundIsland 2000 3000 4000 3000 islandA (radius DD + 120)
                           twoIslands
  = mkPoint 3000 3260.
Proof.
  pose proof PI_RGT_0 as Hpi.
  unfold findWaypointAroundIsland. cbn [islandA cx cy cr radius].
  rewrite (atan2_left (3000 - 3000) (2000 - 3000)) by lra.
  rewrite (atan2_right_zero (3000 - 3000) (4000 - 3000)) by lra.
  rewrite wrapAngle_id by lra.
  assert (Hdir : Ror (sign (0 - PI)) 1 = -1).
  { unfold sign, Ror. destruct (Rlt_dec 0 (0 - PI)); [lra|].
    destruct (Rlt_dec (0 - PI) 0); [|lra].
    destruct (Req_dec_T (-1) 0); [lra | reflexivity]. }
  rewrite Hdir.
  replace (PI + -1 * PI * (5 / 10)) with (PI / 2) by lra.
  rewrite cos_PI2, sin_PI2.
  replace (3000 + 0 * (300 + (14 + 120) + 200)) with 3000 by lra.
  replace (3000 + 1 * (300 + (14 + 120) + 200)) with 3634 by lra.
  fold islandA.
  unfold twoIslands. cbn [pushWaypoint firstBlocking].
  rewrite Obstacle_eqb_refl, Obstacle_eqb_A_B.
  cbn [islandB cx cy cr].
  assert (H10 : hypot (3000 - 3000) (3634 - 3644) = 10)
    by (apply hypot_eq; lra).
  rewrite H10. rewrite (Rltb_true 10) by lra.
  cbn [pushWaypoint firstBlocking cx cy cr islandB].
  rewrite (atan2_down (3634 - 3644) (3000 - 3000)) by lra.
  rewrite cos_neg_PI2, sin_neg_PI2.
  replace (3000 + 0 * (100 + (14 + 120) + 150)) with 3000 by lra.
  replace (3644 + -1 * (100 + (14 + 120) + 150)) with 3260 by lra.
  fold islandA islandB.
  rewrite ?Obstacle_eqb_refl, ?Obstacle_eqb_A_B.
  cbn [islandB cx cy cr].
  assert (H384 : hypot (3000 - 3000) (3260 - 3644) = 384)
    by (apply hypot_eq; lra).
  rewrite H384. rewrite (Rltb_false 384) by lra.
  cbn [pushWaypoint firstBlocking].
  unfold WORLD_w, WORLD_h. f_equal; clamp_eval.
Qed.

Lemma inLand_Num_cons x y pad c land :
  inLand (Num x) (Num y) pad (c :: land) =
  if Rleb ((x - cx c) * (x - cx c) + (y - cy c) * (y - cy c))
          ((cr c + pad) * (cr c + pad))
  then Some c else inLand (Num x) (Num y) pad land.
Proof. reflexivity. Qed.

(** On a map of two islands 244 apart, the way-point round the larger
    one is pushed away from the smaller one and comes to rest 260 from
    the centre of the larger one, whose radius is 300. *)
Lemma avoidLandTarget_into_island :
  let p := avoidLandTarget twoIslands DD 2000 3000 4000 3000 in
  p = mkPoint 3000 3260 /\
  In islandA twoIslands /\
  hypot (px p - cx islandA) (py p - cy islandA) < cr islandA /\
  ~ clearOf twoIslands (radius DD + 120) p.
Proof.
  assert (Hp : avoidLandTarget twoIslands DD 2000 3000 4000 3000
               = mkPoint 3000 3260).
  { unfold avoidLandTarget.
    assert (Hpush : pushTarget 8 4000 3000 (radius DD + 120) twoIslands
                    = (4000, 3000)).
    { cbn [pushTarget]. unfold twoIslands. rewrite !inLand_Num_cons.
      cbn [islandA islandB cx cy cr radius inLand].
      rewrite !Rleb_false by lra. reflexivity. }
    rewrite Hpush.
    assert (Hc1 : exists hit,
               pathCrossesLand 2000 3000 4000 3000 (radius DD + 120) twoIslands
               = Some hit /\ island hit = islandA).
    { unfold pathCrossesLand. rewrite Rltb_false by lra.
      unfold twoIslands. cbn [firstCrossing].
      destruct (crossesIsland_closest 2000 3000 (4000 - 2000) (3000 - 3000)
                  ((4000 - 2000) * (4000 - 2000) + (3000 - 3000) * (3000 - 3000))
                  (sqrt ((4000 - 2000) * (4000 - 2000) + (3000 - 3000) * (3000 - 3000)))
                  (radius DD + 120) islandA) as (hit & -> & Hi).
      - cbv zeta. cbn [islandA cx cy cr radius].
        replace (((3000 - 2000) * (4000 - 2000) + (3000 - 3000) * (3000 - 3000)) /
                 ((4000 - 2000) * (4000 - 2000) + (3000 - 3000) * (3000 - 3000)))
          with (1 / 2) by lra.
        rewrite (clamp_id (1 / 2)) by lra.
        apply hypot_lt; lra.
      - eauto. }
    destruct Hc1 as (hit1 & -> & Hi1). rewrite Hi1.
    rewrite waypoint_inside_island. cbn [px py].
    assert (Hc2 : exists hit,
               pathCrossesLand 2000 3000 3000 3260 (radius DD + 120) twoIslands
               = Some hit /\ island hit = islandA).
    { unfold pathCrossesLand. rewrite Rltb_false by lra.
      unfold twoIslands. cbn [firstCrossing].
      destruct (crossesIsland_end 2000 3000 3000 3260
                  ((3000 - 2000) * (3000 - 2000) + (3260 - 3000) * (3260 - 3000))
                  (sqrt ((3000 - 2000) * (3000 - 2000) + (3260 - 3000) * (3260 - 3000)))
                  (radius DD + 120) islandA) as (hit & -> & Hi).
      - cbn [islandA cx cy cr radius]. apply hypot_lt; lra.
      - eauto. }
    destruct Hc2 as (hit2 & -> & Hi2). rewrite Hi2, Obstacle_eqb_refl.
    cbn [negb]. unfold WORLD_w, WORLD_h. f_equal; clamp_eval. }
  cbv zeta. rewrite Hp. cbn [px py islandA cx cy cr].
  assert (H260 : hypot (3000 - 3000) (3260 - 3000) = 260)
    by (apply hypot_eq; lra).
  split; [reflexivity|]. split; [left; reflexivity|]. split; [lra|].
  intros Hclear. specialize (Hclear islandA (or_introl eq_refl)).
  cbn [px py islandA cx cy cr radius] in Hclear. lra.
Qed.

Lemma hypot_triangle ax ay bx b_y qx qy :
  hypot (ax - bx) (ay - b_y) <=
  hypot (ax - qx) (ay - qy) + hypot (qx - bx) (qy - b_y).
Proof. exact (triangle ax ay bx b_y qx qy). Qed.

Lemma hypot_sym a b : hypot (- a) (- b) = hypot a b.
Proof. unfold hypot. f_equal. ring. Qed.

Lemma hypot_abs_l a b : Rabs a <= hypot a b.
Proof.
  pose proof (hypot_sqr a b). pose proof (hypot_nonneg a b).
  apply Rabs_le. split; nra.
Qed.

Lemma hypot_abs_r a b : Rabs b <= hypot a b.
Proof.
  pose proof (hypot_sqr a b). pose proof (hypot_nonneg a b).
  apply Rabs_le. split; nra.
Qed.

Lemma hypot_polar a rho : 0 <= rho -> hypot (cos a * rho) (sin a * rho) = rho.
Proof.
  intros H. apply hypot_eq; [exact H|].
  pose proof (sin2_cos2 a) as Hsc. unfold Rsqr in Hsc.
  replace (cos a * rho * (cos a * rho) + sin a * rho * (sin a * rho))
    with (rho * rho * (sin a * sin a + cos a * cos a)) by ring.
  rewrite Hsc. ring.
Qed.

(** ** The planner on the Leyte Gulf map *)

Lemma mkObstacle_eq n a b c a' b' c' :
  a = a' -> b = b' -> c = c' -> mkObstacle n a b c = mkObstacle n a' b' c'.
Proof. intros -> -> ->. reflexivity. Qed.

Lemma leyteGulf_eq :
  leyteGulf =
  [ mkObstacle 0 3304 1456 448; mkObstacle 1 3696 2016 504;
    mkObstacle 2 2744 2128 392; mkObstacle 3 4592 2744 588;
    mkObstacle 4 3808 3136 448; mkObstacle 5 2744 3360 420 ].
Proof.
  unfold leyteGulf, leyte0, leyte1, leyte2, leyte3, leyte4, leyte5, MAP_SCALE.
  repeat (f_equal; try (apply mkObstacle_eq; lra)).
Qed.

Lemma leyte1_eq : leyte1 = mkObstacle 1 3696 2016 504.
Proof. unfold leyte1, MAP_SCALE. apply mkObstacle_eq; lra. Qed.

(** [Math.atan2(y, x)] is the direction of [(x, y)]. *)
Lemma atan2_polar y x :
  x <> 0 \/ y <> 0 ->
  cos (atan2 y x) = x / hypot x y /\ sin (atan2 y x) = y / hypot x y.
Proof.
  intros Hxy.
  assert (Hh : 0 < hypot x y).
  { destruct (Rle_lt_or_eq_dec 0 _ (hypot_nonneg x y)) as [H|H]; [exact H|].
    symmetry in H. apply hypot_zero in H. lra. }
  assert (Hat : x <> 0 ->
            cos (atan (y / x)) = Rabs x / hypot x y /\
            sin (atan (y / x)) = (y / x) * Rabs x / hypot x y).
  { intros Hx. rewrite cos_atan, sin_atan.
    assert (Ha : 0 < Rabs x) by (apply Rabs_pos_lt; exact Hx).
    assert (Hs : sqrt (1 + (y / x)²) = hypot x y / Rabs x).
    { apply sqrt_lem_1.
      - unfold Rsqr. assert (0 <= (y / x) * (y / x)) by apply Rle_0_sqr. lra.
      - apply Rmult_le_pos; [lra | left; apply Rinv_0_lt_compat; exact Ha].
      - assert (Hq : Rabs x * Rabs x = x * x).
        { unfold Rabs. destruct (Rcase_abs x); ring. }
        unfold Rsqr.
        replace (hypot x y / Rabs x * (hypot x y / Rabs x))
          with ((hypot x y * hypot x y) / (Rabs x * Rabs x)) by (field; lra).
        rewrite hypot_sqr, Hq. field. exact Hx. }
    rewrite Hs. split; field; lra. }
  unfold atan2.
  destruct (Rlt_dec 0 x) as [Hx|Hx].
  - destruct Hat as [Hc Hs]; [lra|]. rewrite Hc, Hs.
    rewrite Rabs_right by lra. split; field; lra.
  - destruct (Rlt_dec x 0) as [Hx'|Hx'].
    + destruct Hat as [Hc Hs]; [lra|].
      rewrite Rabs_left in Hc, Hs by exact Hx'.
      destruct (Rle_dec 0 y).
      * rewrite neg_cos, neg_sin, Hc, Hs. split; field; lra.
      * unfold Rminus. rewrite cos_plus, sin_plus, cos_neg, sin_neg.
        rewrite cos_PI, sin_PI, Hc, Hs. split; field; lra.
    + assert (x = 0) by lra. subst x.
      assert (Hy : hypot 0 y = Rabs y).
      { unfold hypot. replace (0 * 0 + y * y) with (Rsqr y)
          by (unfold Rsqr; ring).
        apply sqrt_Rsqr_abs. }
      rewrite Hy.
      destruct (Rlt_dec 0 y); [|destruct (Rlt_dec y 0); [|lra]].
      * rewrite cos_PI2, sin_PI2, Rabs_right by lra. split; field; lra.
      * rewrite cos_neg, sin_neg, cos_PI2, sin_PI2, Rabs_left by lra.
        split; field; lra.
Qed.

(** A target up and to the left lies between a quarter and a half
    turn. *)
Lemma atan2_second_quadrant y x : x < 0 -> 0 < y -> 0 < atan2 y x <= PI.
Proof.
  intros Hx Hy. unfold atan2.
  destruct (Rlt_dec 0 x); [lra|]. destruct (Rlt_dec x 0); [|lra].
  destruct (Rle_dec 0 y); [|lra].
  pose proof (atan_bound (y / x)) as Hb.
  assert (Hneg : y / x < 0).
  { assert (0 < y / - x) by (apply Rdiv_lt_0_compat; lra).
    replace (y / x) with (- (y / - x)) by (field; lra). lra. }
  pose proof (atan_increasing _ _ Hneg) as Hinc. rewrite atan_0 in Hinc.
  pose proof PI_RGT_0. lra.
Qed.

(** Some point of the segment is inside the margin: the island is
    reported as crossed. *)
Lemma crossesIsland_at sx sy vx vy len pad c t :
  0 < vx * vx + vy * vy -> 0 <= t <= 1 ->
  hypot (sx + vx * t - cx c) (sy + vy * t - cy c) < cr c + pad ->
  exists hit,
    crossesIsland sx sy vx vy (vx * vx + vy * vy) len pad c = Some hit /\
    island hit = c.
Proof.
  intros Hvv Ht Hd.
  destruct (crossesIsland sx sy vx vy (vx * vx + vy * vy) len pad c)
    as [h|] eqn:E.
  - exists h. split; [reflexivity|]. eapply crossesIsland_island; exact E.
  - exfalso.
    pose proof (proj1 (crossesIsland_None sx sy vx vy len pad c Hvv) E t Ht).
    lra.
Qed.

Lemma pushWaypoint_S n wpX wpY pad isl land :
  pushWaypoint (S n) wpX wpY pad isl land =
  match firstBlocking wpX wpY pad isl land with
  | None => (wpX, wpY)
  | Some c =>
      pushWaypoint n
        (cx c + cos (atan2 (wpY - cy c) (wpX - cx c)) * (cr c + pad + 150))
        (cy c + sin (atan2 (wpY - cy c) (wpX - cx c)) * (cr c + pad + 150))
        pad isl land
  end.
Proof. reflexivity. Qed.

Ltac far_x :=
  eapply Rle_trans; [|apply hypot_abs_l];
  unfold Rabs; destruct (Rcase_abs _); lra.
Ltac far_y :=
  eapply Rle_trans; [|apply hypot_abs_r];
  unfold Rabs; destruct (Rcase_abs _); lra.

(** Off Leyte: the way-point round the second island of the map is
    pushed away from the fifth one, along the direction [(C, S)], and
    comes to rest there. *)
Lemma leyte_waypoint :
  exists C S,
    - (3692 / 10000) < C < - (3690 / 10000) /\
    - (9295 / 10000) < S < - (9291 / 10000) /\
    findWaypointAroundIsland 4400 2016 200 2400 leyte1 (radius DD + 120)
                             leyteGulf
    = mkPoint (3808 + C * 732) (3136 + S * 732).
Proof.
  pose proof PI_RGT_0 as Hpi.
  set (pa := atan2 (-282) (-112)).
  destruct (atan2_polar (-282) (-112)) as [HC HS]; [left; lra|].
  fold pa in HC, HS.
  assert (Hd : 3034 / 10 < hypot (-112) (-282) < 3035 / 10).
  { split; [apply hypot_gt | apply hypot_lt]; lra. }
  set (d := hypot (-112) (-282)) in *.
  assert (HCd : cos pa * d = -112) by (rewrite HC; field; lra).
  assert (HSd : sin pa * d = -282) by (rewrite HS; field; lra).
  assert (HCb : - (3692 / 10000) < cos pa < - (3690 / 10000)) by nra.
  assert (HSb : - (9295 / 10000) < sin pa < - (9291 / 10000)) by nra.
  exists (cos pa), (sin pa). split; [exact HCb|]. split; [exact HSb|].
  rewrite leyteGulf_eq, leyte1_eq.
  unfold findWaypointAroundIsland. cbn [cx cy cr radius].
  rewrite (atan2_right_zero (2016 - 2016) (4400 - 3696)) by lra.
  pose proof (atan2_second_quadrant (2400 - 2016) (200 - 3696)
                ltac:(lra) ltac:(lra)) as HaT.
  set (aT := atan2 (2400 - 2016) (200 - 3696)) in *.
  rewrite wrapAngle_id by lra.
  assert (Hdir : Ror (sign (aT - 0)) 1 = 1).
  { unfold sign, Ror. destruct (Rlt_dec 0 (aT - 0)); [|lra].
    destruct (Req_dec_T 1 0); [lra | reflexivity]. }
  rewrite Hdir.
  replace (0 + 1 * PI * (5 / 10)) with (PI / 2) by lra.
  rewrite cos_PI2, sin_PI2.
  replace (3696 + 0 * (504 + (14 + 120) + 200)) with 3696 by lra.
  replace (2016 + 1 * (504 + (14 + 120) + 200)) with 2854 by lra.
  rewrite pushWaypoint_S.
  match goal with
  | |- context [firstBlocking 3696 2854 ?p ?i ?l] =>
      assert (Hfb1 : firstBlocking 3696 2854 p i l
                     = Some (mkObstacle 4 3808 3136 448))
  end.
  { cbn [firstBlocking Obstacle_eqb oid Nat.eqb cx cy cr].
    rewrite (Rltb_false (hypot (3696 - 3304) (2854 - 1456)))
      by (apply hypot_ge; lra).
    rewrite (Rltb_false (hypot (3696 - 2744) (2854 - 2128)))
      by (apply hypot_ge; lra).
    rewrite (Rltb_false (hypot (3696 - 4592) (2854 - 2744)))
      by (apply hypot_ge; lra).
    rewrite (Rltb_true (hypot (3696 - 3808) (2854 - 3136)))
      by (apply hypot_lt; lra).
    reflexivity. }
  rewrite Hfb1. cbn [cx cy cr].
  replace (2854 - 3136) with (-282) by lra.
  replace (3696 - 3808) with (-112) by lra.
  fold pa.
  replace (448 + (14 + 120) + 150) with 732 by lra.
  rewrite pushWaypoint_S.
  match goal with
  | |- context [firstBlocking ?a ?b ?p ?i ?l] =>
      assert (Hfb2 : firstBlocking a b p i l = None)
  end.
  { cbn [firstBlocking Obstacle_eqb oid Nat.eqb cx cy cr].
    rewrite (Rltb_false (hypot (3808 + cos pa * 732 - 3304)
                               (3136 + sin pa * 732 - 1456))) by far_y.
    rewrite (Rltb_false (hypot (3808 + cos pa * 732 - 2744)
                               (3136 + sin pa * 732 - 2128))) by far_x.
    rewrite (Rltb_false (hypot (3808 + cos pa * 732 - 4592)
                               (3136 + sin pa * 732 - 2744))) by far_x.
    replace (3808 + cos pa * 732 - 3808) with (cos pa * 732) by ring.
    replace (3136 + sin pa * 732 - 3136) with (sin pa * 732) by ring.
    rewrite (hypot_polar pa 732) by lra.
    rewrite (Rltb_false 732) by lra.
    rewrite (Rltb_false (hypot (3808 + cos pa * 732 - 2744)
                               (3136 + sin pa * 732 - 3360))) by far_x.
    reflexivity. }
  rewrite Hfb2.
  unfold WORLD_w, WORLD_h.
  rewrite !clamp_id by lra. reflexivity.
Qed.

Lemma pushTarget_clear n x y pad land :
  inLand (Num x) (Num y) pad land = None ->
  pushTarget (S n) x y pad land = (x, y).
Proof. intros H. cbn [pushTarget]. rewrite H. reflexivity. Qed.

Lemma leyte_target_clear :
  inLand (Num 200) (Num 2400) (radius DD + 120) leyteGulf = None.
Proof.
  rewrite leyteGulf_eq. rewrite !inLand_Num_cons.
  cbn [cx cy cr radius inLand].
  rewrite !Rleb_false by lra. reflexivity.
Qed.

(** The path from (4400, 2016) to (200, 2400) crosses the second
    island of the map and not the first. *)
Lemma leyte_first_crossing :
  exists hit,
    pathCrossesLand 4400 2016 200 2400 (radius DD + 120) leyteGulf = Some hit /\
    island hit = leyte1.
Proof.
  unfold pathCrossesLand. rewrite Rltb_false by lra.
  unfold leyteGulf. cbn [firstCrossing].
  assert (H0 : crossesIsland 4400 2016 (200 - 4400) (2400 - 2016)
                 ((200 - 4400) * (200 - 4400) + (2400 - 2016) * (2400 - 2016))
                 (sqrt ((200 - 4400) * (200 - 4400)
                        + (2400 - 2016) * (2400 - 2016)))
                 (radius DD + 120) leyte0 = None).
  { apply crossesIsland_None; [lra|]. intros t Ht.
    unfold leyte0, MAP_SCALE. cbn [cx cy cr radius].
    destruct (Rle_dec t (12 / 100)); [far_x | far_y]. }
  rewrite H0.
  destruct (crossesIsland_at 4400 2016 (200 - 4400) (2400 - 2016)
              (sqrt ((200 - 4400) * (200 - 4400)
                     + (2400 - 2016) * (2400 - 2016)))
              (radius DD + 120) leyte1 (704 / 4200))
    as (hit & -> & Hi); [lra | lra | | eauto].
  unfold leyte1, MAP_SCALE. cbn [cx cy cr radius]. apply hypot_lt; lra.
Qed.

(** The path from (4400, 2016) to the way-point crosses the second
    island again and not the first. *)
Lemma leyte_second_crossing C S :
  - (3692 / 10000) < C < - (3690 / 10000) ->
  - (9295 / 10000) < S < - (9291 / 10000) ->
  exists hit,
    pathCrossesLand 4400 2016 (3808 + C * 732) (3136 + S * 732)
                    (radius DD + 120) leyteGulf = Some hit /\
    island hit = leyte1.
Proof.
  intros HC HS. unfold pathCrossesLand.
  set (vx := 3808 + C * 732 - 4400). set (vy := 3136 + S * 732 - 2016).
  assert (Hvx : - (8623 / 10) < vx < - (8620 / 10)) by (unfold vx; lra).
  assert (Hvy : 4396 / 10 < vy < 4399 / 10) by (unfold vy; lra).
  assert (Hvv : 1 < vx * vx + vy * vy) by nra.
  rewrite Rltb_false by lra.
  unfold leyteGulf. cbn [firstCrossing].
  assert (H0 : crossesIsland 4400 2016 vx vy (vx * vx + vy * vy)
                 (sqrt (vx * vx + vy * vy)) (radius DD + 120) leyte0 = None).
  { apply crossesIsland_None; [lra|]. intros t Ht.
    unfold leyte0, MAP_SCALE. cbn [cx cy cr radius].
    assert (0 <= (vx + 8623 / 10) * t) by (apply Rmult_le_pos; lra).
    assert (0 <= (vy - 4396 / 10) * t) by (apply Rmult_le_pos; lra).
    destruct (Rle_dec t (1 / 2)); [far_x | far_y]. }
  rewrite H0.
  destruct (crossesIsland_end 4400 2016 (3808 + C * 732) (3136 + S * 732)
              (vx * vx + vy * vy) (sqrt (vx * vx + vy * vy))
              (radius DD + 120) leyte1)
    as (hit & Hh & Hi); [|fold vx vy in Hh; rewrite Hh; eauto].
  unfold leyte1, MAP_SCALE. cbn [cx cy cr radius]. apply hypot_lt; [lra|].
  nra.
Qed.

(** C5, at a failing input: on the Leyte Gulf map, for a destroyer at
    (4400, 2016) and the raw target (200, 2400), both in clear water,
    [avoidLandTarget] returns a point inside the second island of the
    map, about 467 from its centre where its radius is 504: the
    way-point round that island is pushed away from the fifth island and
    back into the island being rounded, which the loop skips. *)
Theorem avoidLandTarget_aground_off_leyte :
  let pad := radius DD + 120 in
  let p := avoidLandTarget leyteGulf DD 4400 2016 200 2400 in
  clearOf leyteGulf pad (mkPoint 4400 2016) /\
  clearOf leyteGulf pad (mkPoint 200 2400) /\
  In leyte1 leyteGulf /\
  hypot (px p - cx leyte1) (py p - cy leyte1) < cr leyte1 /\
  blocked leyteGulf pad p /\
  ~ clearOf leyteGulf pad p.
Proof.
  cbv zeta.
  destruct leyte_waypoint as (C & S & HC & HS & Hwp).
  assert (Hp : avoidLandTarget leyteGulf DD 4400 2016 200 2400
               = mkPoint (3808 + C * 732) (3136 + S * 732)).
  { unfold avoidLandTarget.
    rewrite (pushTarget_clear 7 200 2400 _ _ leyte_target_clear).
    destruct leyte_first_crossing as (hit1 & -> & Hi1). rewrite Hi1, Hwp.
    cbn [px py].
    destruct (leyte_second_crossing C S HC HS) as (hit2 & -> & Hi2).
    rewrite Hi2, Obstacle_eqb_refl. cbn [negb].
    unfold WORLD_w, WORLD_h. rewrite !clamp_id by lra. reflexivity. }
  rewrite Hp. cbn [px py].
  assert (Hin : hypot (3808 + C * 732 - cx leyte1) (3136 + S * 732 - cy leyte1)
                < cr leyte1).
  { unfold leyte1, MAP_SCALE. cbn [cx cy cr]. apply hypot_lt; [lra|]. nra. }
  assert (Hclear : forall x y,
             (forall c, In c leyteGulf ->
                (cr c + (14 + 120)) * (cr c + (14 + 120))
                < (x - cx c) * (x - cx c) + (y - cy c) * (y - cy c)) ->
             clearOf leyteGulf (radius DD + 120) (mkPoint x y)).
  { intros x y H c Hc. specialize (H c Hc). cbn [px py radius].
    rewrite leyteGulf_eq in Hc. cbn [In] in Hc.
    apply Rlt_gt, hypot_gt; [|exact H].
    repeat (destruct Hc as [<-|Hc]; [cbn [cr]; lra|]). destruct Hc. }
  split; [|split; [|split; [|split; [|split]]]].
  - apply Hclear. intros c Hc. rewrite leyteGulf_eq in Hc. cbn [In] in Hc.
    repeat (destruct Hc as [<-|Hc]; [cbn [cx cy cr]; lra|]). destruct Hc.
  - apply Hclear. intros c Hc. rewrite leyteGulf_eq in Hc. cbn [In] in Hc.
    repeat (destruct Hc as [<-|Hc]; [cbn [cx cy cr]; lra|]). destruct Hc.
  - right; left; reflexivity.
  - exact Hin.
  - unfold blocked. cbn [px py]. unfold leyteGulf.
    rewrite !inLand_Num_cons.
    destruct (Rleb _ _); [discriminate|].
    rewrite Rleb_true; [discriminate|].
    apply hypot_le_inv. left. eapply Rlt_trans; [exact Hin|].
    unfold leyte1, MAP_SCALE. cbn [cr radius]. lra.
  - intros Hc. specialize (Hc leyte1 (or_intror (or_introl eq_refl))).
    cbn [px py] in Hc. unfold leyte1, MAP_SCALE in Hin, Hc.
    cbn [cx cy cr radius] in Hin, Hc. lra.
Qed.

(** ** The planner on maps with well separated islands *)

Section Separated.
Variables (land : list Obstacle) (pad : R).
Hypothesis Hpad : 0 < pad.
Hypothesis Hsep : wellSeparated land pad.
Hypothesis Hin : insideWorld land pad.

(** A point on a ring around one island, at most 200 beyond its margin,
    keeps its distance from every other island. *)
Lemma ring_far c c' qx qy :
  In c land -> In c' land -> c' <> c ->
  hypot (qx - cx c) (qy - cy c) <= cr c + pad + 200 ->
  cr c' + pad + 100 <= hypot (qx - cx c') (qy - cy c').
Proof.
  intros Hc Hc' Hne Hq.
  pose proof (Hsep c c' Hc Hc' (fun e => Hne (eq_sym e))) as Hd.
  pose proof (hypot_triangle (cx c) (cy c) (cx c') (cy c') qx qy) as Ht.
  rewrite <- (hypot_sym (cx c - qx) (cy c - qy)) in Ht.
  replace (- (cx c - qx)) with (qx - cx c) in Ht by ring.
  replace (- (cy c - qy)) with (qy - cy c) in Ht by ring.
  lra.
Qed.

Lemma ring_clear c qx qy :
  In c land ->
  cr c + pad < hypot (qx - cx c) (qy - cy c) <= cr c + pad + 200 ->
  clearOf land pad (mkPoint qx qy) /\ inBox 200 (mkPoint qx qy).
Proof.
  intros Hc [Hlo Hhi]. split.
  - intros c' Hc'. cbn [px py].
    destruct (Req_dec_T (cx c') (cx c)) as [E1|N1];
      [destruct (Req_dec_T (cy c') (cy c)) as [E2|N2];
       [destruct (Req_dec_T (cr c') (cr c)) as [E3|N3]|]|].
    + rewrite E1, E2, E3. lra.
    + assert (Hne : c' <> c) by congruence.
      pose proof (ring_far c c' qx qy Hc Hc' Hne Hhi). lra.
    + assert (Hne : c' <> c) by congruence.
      pose proof (ring_far c c' qx qy Hc Hc' Hne Hhi). lra.
    + assert (Hne : c' <> c) by congruence.
      pose proof (ring_far c c' qx qy Hc Hc' Hne Hhi). lra.
  - destruct (Hin c Hc) as (Hr & Hx & Hy).
    pose proof (hypot_abs_l (qx - cx c) (qy - cy c)) as Hax.
    pose proof (hypot_abs_r (qx - cx c) (qy - cy c)) as Hay.
    unfold inBox. cbn [px py].
    unfold Rabs in *. destruct (Rcase_abs (qx - cx c)), (Rcase_abs (qy - cy c)); lra.
Qed.

Lemma inLand_None x y land0 :
  inLand (Num x) (Num y) pad land0 = None ->
  clearOf land0 pad (mkPoint x y).
Proof.
  induction land0 as [|c l IH]; intros H c' Hc'; [destruct Hc'|].
  rewrite inLand_Num_cons in H. unfold Rleb in H.
  destruct (Rle_dec _ _) as [?|Hn]; [discriminate|].
  destruct Hc' as [<-|Hc']; [|exact (IH H c' Hc')].
  cbn [px py]. apply Rnot_le_lt in Hn.
  destruct (Rle_dec 0 (cr c + pad)).
  - apply hypot_gt; assumption.
  - pose proof (hypot_nonneg (x - cx c) (y - cy c)). lra.
Qed.

Lemma inLand_Some x y land0 hit :
  inLand (Num x) (Num y) pad land0 = Some hit ->
  In hit land0 /\
  (x - cx hit) * (x - cx hit) + (y - cy hit) * (y - cy hit)
  <= (cr hit + pad) * (cr hit + pad).
Proof.
  induction land0 as [|c l IH]; [discriminate|].
  rewrite inLand_Num_cons. unfold Rleb.
  destruct (Rle_dec _ _) as [Hle|?].
  - intros H; injection H as <-. split; [left; reflexivity | exact Hle].
  - intros H. destruct (IH H). split; [right|]; assumption.
Qed.

Lemma Obstacle_eqb_false a b : Obstacle_eqb a b = false -> a <> b.
Proof. intros H ->. rewrite Obstacle_eqb_refl in H. discriminate. Qed.

Lemma firstBlocking_None qx qy isl land0 :
  (forall c', In c' land0 -> c' <> isl ->
              cr c' + pad + 100 <= hypot (qx - cx c') (qy - cy c')) ->
  firstBlocking qx qy pad isl land0 = None.
Proof.
  induction land0 as [|c l IH]; intros H; cbn [firstBlocking]; [reflexivity|].
  destruct (Obstacle_eqb c isl) eqn:E.
  - apply IH. intros c' Hc'. apply H. right; exact Hc'.
  - rewrite Rltb_false.
    + apply IH. intros c' Hc'. apply H. right; exact Hc'.
    + apply H; [left; reflexivity | apply Obstacle_eqb_false; exact E].
Qed.

(** Rounding an island of such a map gives a point on the ring 200
    beyond its margin. *)
Lemma findWaypoint_ring sx sy tx ty c :
  In c land ->
  exists a,
    findWaypointAroundIsland sx sy tx ty c pad land
    = mkPoint (cx c + cos a * (cr c + pad + 200))
              (cy c + sin a * (cr c + pad + 200)).
Proof.
  intros Hc. unfold findWaypointAroundIsland.
  set (a := atan2 (sy - cy c) (sx - cx c) + _).
  exists a.
  destruct (Hin c Hc) as (Hr & Hx & Hy).
  assert (Hrho : hypot (cx c + cos a * (cr c + pad + 200) - cx c)
                       (cy c + sin a * (cr c + pad + 200) - cy c)
                 = cr c + pad + 200).
  { replace (cx c + cos a * (cr c + pad + 200) - cx c)
      with (cos a * (cr c + pad + 200)) by ring.
    replace (cy c + sin a * (cr c + pad + 200) - cy c)
      with (sin a * (cr c + pad + 200)) by ring.
    apply hypot_polar. lra. }
  cbn [pushWaypoint]. rewrite firstBlocking_None.
  - destruct (ring_clear c _ _ Hc ltac:(rewrite Hrho; lra)) as [_ [Bx By]].
    cbn [px py] in Bx, By. f_equal; apply clamp_id; lra.
  - intros c' Hc' Hne. apply (ring_far c c'); auto. rewrite Hrho. lra.
Qed.

Lemma findWaypoint_clear sx sy tx ty c :
  In c land ->
  clearOf land pad (findWaypointAroundIsland sx sy tx ty c pad land) /\
  inBox 200 (findWaypointAroundIsland sx sy tx ty c pad land).
Proof.
  intros Hc. destruct (findWaypoint_ring sx sy tx ty c Hc) as [a ->].
  destruct (Hin c Hc) as (Hr & _).
  apply (ring_clear c); [exact Hc|].
  replace (cx c + cos a * (cr c + pad + 200) - cx c)
    with (cos a * (cr c + pad + 200)) by ring.
  replace (cy c + sin a * (cr c + pad + 200) - cy c)
    with (sin a * (cr c + pad + 200)) by ring.
  rewrite hypot_polar by lra. lra.
Qed.

Lemma pushTarget_settled n x y :
  settled land pad (x, y) -> settled land pad (pushTarget n x y pad land).
Proof.
  revert x y; induction n as [|n IH]; intros x y HQ; cbn [pushTarget];
    [exact HQ|].
  destruct (inLand x y pad land) as [hit|] eqn:E; [|exact HQ].
  destruct (inLand_Some x y land hit E) as [Hhit Hle].
  destruct (Hin hit Hhit) as (Hr & _).
  destruct HQ as [Hclear|(h & Hh & Hx & Hy)]; cbn [fst snd] in *.
  - exfalso. specialize (Hclear hit Hhit). cbn [px py] in Hclear.
    pose proof (hypot_le (x - cx hit) (y - cy hit) (cr hit + pad)
                  ltac:(lra) Hle). lra.
  - subst x y.
    assert (Hsame : cx h = cx hit /\ cy h = cy hit).
    { destruct (Req_dec_T (cx h) (cx hit)) as [E1|N1];
        [destruct (Req_dec_T (cy h) (cy hit)) as [E2|N2]; [auto|]|];
        exfalso;
        (assert (Hne : h <> hit) by congruence);
        pose proof (Hsep h hit Hh Hhit Hne) as Hd;
        destruct (Hin h Hh) as (Hrh & _);
        pose proof (hypot_le (cx h - cx hit) (cy h - cy hit) (cr hit + pad)
                      ltac:(lra) Hle); lra. }
    destruct Hsame as [Ex Ey]. apply IH. right. exists hit.
    split; [exact Hhit|]. cbn [fst snd]. rewrite Ex, Ey.
    unfold Rdiv. rewrite !Rminus_diag. split; ring.
Qed.

Lemma pushTarget_first n tx ty :
  settled land pad (pushTarget (S n) tx ty pad land).
Proof.
  cbn [pushTarget].
  destruct (inLand tx ty pad land) as [hit|] eqn:E.
  - destruct (inLand_Some tx ty land hit E) as [Hhit Hle].
    destruct (Hin hit Hhit) as (Hr & _).
    apply pushTarget_settled.
    set (dx := tx - cx hit) in *. set (dy := ty - cy hit) in *.
    unfold Ror. destruct (Req_dec_T (hypot dx dy) 0) as [Hz|Hnz].
    + right. exists hit. split; [exact Hhit|]. cbn [fst snd].
      destruct (hypot_zero dx dy Hz) as [-> ->].
      unfold Rdiv. split; ring.
    + left. cbn [fst snd].
      pose proof (hypot_nonneg dx dy) as Hnn.
      set (d := hypot dx dy) in *.
      assert (Hring : hypot (cx hit + dx / d * (cr hit + pad + 80) - cx hit)
                            (cy hit + dy / d * (cr hit + pad + 80) - cy hit)
                      = cr hit + pad + 80).
      { apply hypot_eq; [lra|].
        pose proof (hypot_sqr dx dy) as Hs. fold d in Hs.
        replace ((cx hit + dx / d * (cr hit + pad + 80) - cx hit) *
                 (cx hit + dx / d * (cr hit + pad + 80) - cx hit) +
                 (cy hit + dy / d * (cr hit + pad + 80) - cy hit) *
                 (cy hit + dy / d * (cr hit + pad + 80) - cy hit))
          with ((dx * dx + dy * dy) / (d * d)
                * ((cr hit + pad + 80) * (cr hit + pad + 80)))
          by (field; exact Hnz).
        rewrite <- Hs. field. exact Hnz. }
      destruct (ring_clear hit _ _ Hhit ltac:(rewrite Hring; lra))
        as [Hc _].
      exact Hc.
  - left. cbn [fst snd]. apply inLand_None; exact E.
Qed.

Lemma firstCrossing_None sx sy vx vy vv len land0 c :
  firstCrossing sx sy vx vy vv len pad land0 = None -> In c land0 ->
  crossesIsland sx sy vx vy vv len pad c = None.
Proof.
  induction land0 as [|b l IH]; cbn [firstCrossing]; [intros _ []|].
  destruct (crossesIsland sx sy vx vy vv len pad b) eqn:E; [discriminate|].
  intros H [<-|Hc]; [exact E | exact (IH H Hc)].
Qed.

Lemma pathCrossesLand_In sx sy tx ty hit :
  pathCrossesLand sx sy tx ty pad land = Some hit -> In (island hit) land.
Proof.
  unfold pathCrossesLand. destruct (Rltb _ _); [discriminate|].
  apply firstCrossing_In.
Qed.

(** Clamping to the world box keeps a clear point clear: the strip along
    the edge of the world holds no island. *)
Lemma clamp_clear x y :
  clearOf land pad (mkPoint x y) ->
  clearOf land pad (mkPoint (clamp x 50 (WORLD_w - 50))
                            (clamp y 50 (WORLD_h - 50))).
Proof.
  intros Hc c Hcl. specialize (Hc c Hcl). cbn [px py] in *.
  destruct (Hin c Hcl) as (Hr & Hx & Hy).
  unfold WORLD_w, WORLD_h in *.
  destruct (Rlt_dec x 50) as [X1|X1].
  { replace (clamp x 50 (8960 - 50)) with 50 by clamp_eval.
    pose proof (hypot_abs_l (50 - cx c) (clamp y 50 (6160 - 50) - cy c)) as A.
    rewrite Rabs_left in A by lra. lra. }
  destruct (Rlt_dec (8960 - 50) x) as [X2|X2].
  { replace (clamp x 50 (8960 - 50)) with (8960 - 50) by clamp_eval.
    pose proof (hypot_abs_l (8960 - 50 - cx c)
                            (clamp y 50 (6160 - 50) - cy c)) as A.
    rewrite Rabs_right in A by lra. lra. }
  replace (clamp x 50 (8960 - 50)) with x by clamp_eval.
  destruct (Rlt_dec y 50) as [Y1|Y1].
  { replace (clamp y 50 (6160 - 50)) with 50 by clamp_eval.
    pose proof (hypot_abs_r (x - cx c) (50 - cy c)) as A.
    rewrite Rabs_left in A by lra. lra. }
  destruct (Rlt_dec (6160 - 50) y) as [Y2|Y2].
  { replace (clamp y 50 (6160 - 50)) with (6160 - 50) by clamp_eval.
    pose proof (hypot_abs_r (x - cx c) (6160 - 50 - cy c)) as A.
    rewrite Rabs_right in A by lra. lra. }
  replace (clamp y 50 (6160 - 50)) with y by clamp_eval.
  exact Hc.
Qed.

Lemma waypoint_clamped_clear sx sy tx ty c :
  In c land ->
  let wp := findWaypointAroundIsland sx sy tx ty c pad land in
  clearOf land pad (mkPoint (clamp (px wp) 50 (WORLD_w - 50))
                            (clamp (py wp) 50 (WORLD_h - 50))).
Proof.
  intros Hc wp. apply clamp_clear.
  destruct (findWaypoint_clear sx sy tx ty c Hc) as [H _].
  fold wp in H. destruct wp; exact H.
Qed.

(** A settled target the ship has a clear line to is clear itself. *)
Lemma settled_uncrossed sx sy x y :
  1 / 1000 <= pad ->
  clearOf land pad (mkPoint sx sy) ->
  settled land pad (x, y) ->
  pathCrossesLand sx sy x y pad land = None ->
  clearOf land pad (mkPoint x y).
Proof.
  intros Hp Hs [Hc|(h & Hh & Hx & Hy)] Hnone; [exact Hc|].
  cbn [fst snd] in Hx, Hy. subst x y. exfalso.
  destruct (Hin h Hh) as (Hr & _).
  unfold pathCrossesLand in Hnone.
  destruct (Rltb _ _) eqn:E.
  - unfold Rltb in E. destruct (Rlt_dec _ _) as [Hlt|]; [|discriminate].
    specialize (Hs h Hh). cbn [px py] in Hs.
    pose proof (hypot_sqr (sx - cx h) (sy - cy h)) as Hq.
    pose proof (hypot_nonneg (sx - cx h) (sy - cy h)) as Hn.
    assert (Hv : (cx h - sx) * (cx h - sx) + (cy h - sy) * (cy h - sy)
                 = hypot (sx - cx h) (sy - cy h) * hypot (sx - cx h) (sy - cy h))
      by (rewrite Hq; ring).
    rewrite Hv in Hlt. nra.
  - pose proof (firstCrossing_None _ _ _ _ _ _ _ h Hnone Hh) as Hx.
    destruct (crossesIsland_end sx sy (cx h) (cy h)
                ((cx h - sx) * (cx h - sx) + (cy h - sy) * (cy h - sy))
                (sqrt ((cx h - sx) * (cx h - sx) + (cy h - sy) * (cy h - sy)))
                pad h) as (hit & Ehit & _).
    + rewrite !Rminus_diag. rewrite (hypot_eq 0 0 0); lra.
    + rewrite Ehit in Hx. discriminate.
Qed.

End Separated.

(** Where the pushes cannot meet, the planner keeps clear: on a map whose
    islands keep apart and away from the edge of the world, a ship that
    is itself clear of land is never sent to a point within its land
    margin of an island. *)
Theorem avoidLandTarget_clear land k sx sy tx ty :
  wellSeparated land (radius k + 120) ->
  insideWorld land (radius k + 120) ->
  clearOf land (radius k + 120) (mkPoint sx sy) ->
  clearOf land (radius k + 120) (avoidLandTarget land k sx sy tx ty).
Proof.
  intros Hsep Hin Hship.
  pose proof (radius_bounds k) as Hk.
  assert (Hpad : 0 < radius k + 120) by lra.
  unfold avoidLandTarget. cbv zeta.
  assert (Hset : settled land (radius k + 120)
                   (pushTarget 8 tx ty (radius k + 120) land))
    by (apply pushTarget_first; assumption).
  destruct (pushTarget 8 tx ty (radius k + 120) land) as [x y].
  destruct (pathCrossesLand sx sy x y (radius k + 120) land)
    as [crossing|] eqn:E1.
  - assert (Hc1 : In (island crossing) land)
      by (eapply pathCrossesLand_In; exact E1).
    set (wp := findWaypointAroundIsland sx sy x y (island crossing)
                 (radius k + 120) land).
    destruct (pathCrossesLand sx sy (px wp) (py wp) (radius k + 120) land)
      as [wpCrossing|] eqn:E2.
    + assert (Hc2 : In (island wpCrossing) land)
        by (eapply pathCrossesLand_In; exact E2).
      destruct (negb _); apply waypoint_clamped_clear; assumption.
    + apply waypoint_clamped_clear; assumption.
  - apply clamp_clear; try assumption.
    apply (settled_uncrossed land (radius k + 120)) with (sx := sx) (sy := sy);
      try assumption. lra.
Qed.

Lemma avoidLandTarget_clear_witness :
  clearOf openSea (radius DD + 120)
          (avoidLandTarget openSea DD 2000 3000 4000 3000).
Proof.
  apply avoidLandTarget_clear.
  - intros c c' Hc Hc' Hne.
    destruct Hc as [<-|[<-|[]]], Hc' as [<-|[<-|[]]]; try congruence;
      cbn [cx cy cr radius]; apply hypot_ge; lra.
  - intros c [<-|[<-|[]]]; cbn [cx cy cr radius];
      unfold WORLD_w, WORLD_h; lra.
  - intros c [<-|[<-|[]]]; cbn [px py cx cy cr radius];
      apply hypot_gt; lra.
Defined.

End PlannerFacts.

(* ===================================================================== *)
(** * Part III.  Further properties of the code                            *)
(* ===================================================================== *)

(** ** Angles *)

Section AngleFacts.
Import Config Planner.

Lemma floorZ_bounds v : IZR (floorZ v) <= v < IZR (floorZ v) + 1.
Proof.
  unfold floorZ. rewrite minus_IZR. destruct (archimed v). lra.
Qed.

Lemma ceil_bounds v : IZR (ceil v) - 1 < v <= IZR (ceil v).
Proof.
  unfold ceil. rewrite minus_IZR. destruct (archimed (- v)). lra.
Qed.

Lemma TAU_pos : 0 < TAU.
Proof. unfold TAU. pose proof PI_RGT_0. lra. Qed.

(** The remainder [a % TAU] has the sign of [a] and is smaller than
    [TAU] in magnitude. *)
Lemma fmod_TAU a :
  exists k : Z, fmod a TAU = a - TAU * IZR k /\
                - TAU < fmod a TAU < TAU.
Proof.
  pose proof TAU_pos as Ht. unfold fmod. cbv zeta.
  destruct (Rle_dec 0 (a / TAU)) as [Hq|Hq].
  - exists (floorZ (a / TAU)). split; [reflexivity|].
    destruct (floorZ_bounds (a / TAU)) as [H1 H2].
    assert (Ha : a = TAU * (a / TAU)) by (field; lra).
    rewrite Ha at 1 3. nra.
  - exists (ceil (a / TAU)). split; [reflexivity|].
    destruct (ceil_bounds (a / TAU)) as [H1 H2].
    assert (Ha : a = TAU * (a / TAU)) by (field; lra).
    rewrite Ha at 1 3. nra.
Qed.

(** X1: [normAngle] returns the representative of the angle in
    [-PI, PI]: the result differs from the argument by a whole number
    of turns. *)
Theorem normAngle_range a :
  - PI <= normAngle a <= PI /\
  exists k : Z, normAngle a = a + IZR k * TAU.
Proof.
  pose proof PI_RGT_0 as Hpi.
  destruct (fmod_TAU a) as (k & Hk & Hlo & Hhi).
  unfold normAngle. cbv zeta.
  set (m := fmod a TAU) in *. unfold TAU in *.
  destruct (Rlt_dec m (- PI)) as [H1|H1].
  - destruct (Rlt_dec PI (m + PI * 2)) as [H2|H2]; [lra|].
    split; [lra|]. exists (1 - k)%Z. rewrite minus_IZR. lra.
  - destruct (Rlt_dec PI m) as [H2|H2].
    + split; [lra|]. exists (- k - 1)%Z.
      rewrite minus_IZR, opp_IZR. lra.
    + split; [lra|]. exists (- k)%Z. rewrite opp_IZR. lra.
Qed.

End AngleFacts.

(** ** Land tests and the commander route *)

Section LandFacts.
Import Config Planner.

Lemma firstSome_In {A} (f : nat -> option A) l a :
  firstSome f l = Some a -> exists i, In i l /\ f i = Some a.
Proof.
  induction l as [|j l IH]; cbn; [discriminate|].
  destruct (f j) eqn:E.
  - intros H; injection H as <-. exists j. auto.
  - intros H. destruct (IH H) as (i & Hi & Hf). exists i. auto.
Qed.

(** What a reported crossing of one island says. *)
Lemma crossesIsland_sound sx sy vx vy pathLen pad c hit :
  0 < vx * vx + vy * vy ->
  crossesIsland sx sy vx vy (vx * vx + vy * vy) pathLen pad c = Some hit ->
  island hit = c /\ 0 <= crossT hit <= 1 /\
  crossX hit = sx + vx * crossT hit /\ crossY hit = sy + vy * crossT hit /\
  crossD hit = hypot (crossX hit - cx c) (crossY hit - cy c) /\
  crossD hit < cr c + pad.
Proof.
  intros Hvv. unfold crossesIsland.
  set (n := Z.to_nat (Z.max 5 (ceil (pathLen / 200)))).
  assert (Hn : (0 < n)%nat) by (unfold n; lia).
  destruct (firstSome _ _) as [h|] eqn:E.
  - intros H; injection H as <-.
    apply firstSome_In in E. destruct E as (i & Hi & Hf).
    apply in_seq in Hi. cbv beta zeta in Hf.
    unfold Rltb in Hf. destruct (Rlt_dec _ _) as [Hlt|]; [|discriminate].
    injection Hf as <-. cbn [island crossT crossX crossY crossD].
    repeat split; try reflexivity; try exact Hlt;
      apply (sample_in_unit i n); lia.
  - unfold Rltb. destruct (Rlt_dec _ _) as [Hlt|]; [|discriminate].
    intros H; injection H as <-. cbn [island crossT crossX crossY crossD].
    repeat split; try reflexivity; try exact Hlt;
      apply clamp_bounds; lra.
Qed.

(** X3: a crossing reported by [pathCrossesLand] names an island of the
    map and a point of the segment that lies inside that island's
    margin. *)
Theorem pathCrossesLand_sound sx sy tx ty pad land hit :
  pathCrossesLand sx sy tx ty pad land = Some hit ->
  In (island hit) land /\ 0 <= crossT hit <= 1 /\
  crossX hit = sx + (tx - sx) * crossT hit /\
  crossY hit = sy + (ty - sy) * crossT hit /\
  crossD hit = hypot (crossX hit - cx (island hit))
                     (crossY hit - cy (island hit)) /\
  crossD hit < cr (island hit) + pad.
Proof.
  unfold pathCrossesLand. cbv zeta.
  set (vx := tx - sx). set (vy := ty - sy).
  unfold Rltb. destruct (Rlt_dec _ _) as [|Hvv]; [discriminate|].
  assert (Hpos : 0 < vx * vx + vy * vy) by lra.
  generalize (sqrt (vx * vx + vy * vy)) as len. intros len.
  induction land as [|c land IH]; cbn [firstCrossing]; [discriminate|].
  destruct (crossesIsland sx sy vx vy (vx * vx + vy * vy) len pad c)
    as [h|] eqn:E.
  - intros H; injection H as <-.
    destruct (crossesIsland_sound _ _ _ _ _ _ _ _ Hpos E)
      as (Hi & Ht & Hx & Hy & Hd & Hlt).
    rewrite Hi. split; [left; reflexivity|]. auto.
  - intros H. destruct (IH H) as (Hi & Hrest).
    split; [right; exact Hi | exact Hrest].
Qed.

(** X4: for a segment that is not degenerate, [pathCrossesLand] answers
    [null] exactly when every point of the segment keeps the margin
    from every island: sampling plus the closest-point test miss
    nothing. *)
Theorem pathCrossesLand_exact sx sy tx ty pad land :
  1 / 1000000 <= (tx - sx) * (tx - sx) + (ty - sy) * (ty - sy) ->
  (pathCrossesLand sx sy tx ty pad land = None <->
   forall c t, In c land -> 0 <= t <= 1 ->
     cr c + pad <= hypot (sx + (tx - sx) * t - cx c)
                         (sy + (ty - sy) * t - cy c)).
Proof.
  intros Hvv. unfold pathCrossesLand. cbv zeta.
  set (vx := tx - sx) in *. set (vy := ty - sy) in *.
  rewrite Rltb_false by lra.
  assert (Hpos : 0 < vx * vx + vy * vy) by lra.
  generalize (sqrt (vx * vx + vy * vy)) as len. intros len.
  induction land as [|c land IH]; cbn [firstCrossing].
  - split; [intros _ c t []|reflexivity].
  - destruct (crossesIsland sx sy vx vy (vx * vx + vy * vy) len pad c)
      as [h|] eqn:E.
    + split; [discriminate|]. intros H. exfalso.
      assert (Hn : crossesIsland sx sy vx vy (vx * vx + vy * vy) len pad c
                   = None).
      { apply crossesIsland_None; [exact Hpos|].
        intros t Ht. apply H; [left; reflexivity | exact Ht]. }
      congruence.
    + rewrite IH. split.
      * intros H c' t [<-|Hc'] Ht; [|apply H; assumption].
        apply (proj1 (crossesIsland_None sx sy vx vy len pad c Hpos) E).
        exact Ht.
      * intros H c' t Hc' Ht. apply H; [right; exact Hc' | exact Ht].
Qed.

Lemma pathCrossesLand_exact_witness :
  pathCrossesLand 0 0 100 0 (radius DD + 120) oneIsland = None.
Proof.
  apply (proj2 (pathCrossesLand_exact 0 0 100 0 (radius DD + 120) oneIsland
                  ltac:(lra))).
  intros c t [<-|[]] Ht. cbn [cx cy cr theIsland radius].
  pose proof (hypot_abs_r (0 + (100 - 0) * t - 500) (0 + (0 - 0) * t - 1000))
    as Ha.
  rewrite Rabs_left in Ha by lra. lra.
Defined.

Lemma pathCrossesLand_sound_witness :
  exists hit,
    pathCrossesLand 0 1000 500 1000 (radius DD + 120) oneIsland = Some hit /\
    In (island hit) oneIsland /\ 0 <= crossT hit <= 1 /\
    crossD hit < cr (island hit) + (radius DD + 120).
Proof.
  destruct (pathCrossesLand 0 1000 500 1000 (radius DD + 120) oneIsland)
    as [hit|] eqn:E.
  - exists hit. split; [reflexivity|].
    destruct (pathCrossesLand_sound _ _ _ _ _ _ _ E)
      as (Hi & Ht & _ & _ & _ & Hd).
    auto.
  - exfalso. unfold pathCrossesLand in E. cbv zeta in E.
    rewrite Rltb_false in E by lra.
    cbn [firstCrossing oneIsland] in E.
    destruct (crossesIsland_end 0 1000 500 1000
                ((500 - 0) * (500 - 0) + (1000 - 1000) * (1000 - 1000))
                (sqrt ((500 - 0) * (500 - 0) + (1000 - 1000) * (1000 - 1000)))
                (radius DD + 120) theIsland) as (h & Eh & _).
    + cbn [cx cy cr theIsland radius]. apply hypot_lt; lra.
    + rewrite Eh in E. discriminate.
Defined.

(** X2: [inLand] returns the first island of the map whose disc, grown
    by [pad], holds the point, and [null] exactly when no island does. *)
Theorem inLand_first x y pad land :
  match inLand (Num x) (Num y) pad land with
  | Some hit =>
      exists before after,
        land = before ++ hit :: after /\
        dist2 x y (cx hit) (cy hit) <= (cr hit + pad) * (cr hit + pad) /\
        forall c, In c before ->
                  (cr c + pad) * (cr c + pad) < dist2 x y (cx c) (cy c)
  | None =>
      forall c, In c land ->
                (cr c + pad) * (cr c + pad) < dist2 x y (cx c) (cy c)
  end.
Proof.
  induction land as [|c land IH].
  - cbn. intros c [].
  - rewrite inLand_Num_cons. unfold Rleb, dist2 in *. cbv zeta in *.
    destruct (Rle_dec _ _) as [Hle|Hgt].
    + exists [], land. split; [reflexivity|]. split; [exact Hle|].
      intros c' [].
    + apply Rnot_le_lt in Hgt.
      destruct (inLand (Num x) (Num y) pad land) as [hit|].
      * destruct IH as (before & after & -> & Hin & Hout).
        exists (c :: before), after. split; [reflexivity|].
        split; [exact Hin|]. intros c' [<-|Hc']; [exact Hgt | auto].
      * intros c' [<-|Hc']; [exact Hgt | auto].
Qed.

(** X5: for a segment of length at least 1, [doesPathPassNearIsland]
    holds exactly when some point of the segment is closer to the
    island's centre than its radius plus the margin plus 100. *)
Theorem doesPathPassNearIsland_exact sx sy ex ey isl margin :
  1 <= (ex - sx) * (ex - sx) + (ey - sy) * (ey - sy) ->
  (doesPathPassNearIsland sx sy ex ey isl margin = true <->
   exists t, 0 <= t <= 1 /\
     hypot (sx + (ex - sx) * t - cx isl) (sy + (ey - sy) * t - cy isl)
     < cr isl + margin + 100).
Proof.
  intros Hvv. unfold doesPathPassNearIsland. cbv zeta.
  set (vx := ex - sx) in *. set (vy := ey - sy) in *.
  rewrite Rltb_false by lra.
  assert (Hpos : 0 < vx * vx + vy * vy) by lra.
  unfold Rltb. destruct (Rlt_dec _ _) as [Hlt|Hge].
  - split; [intros _|reflexivity].
    eexists. split; [|exact Hlt]. apply clamp_bounds. lra.
  - split; [discriminate|]. intros (t & Ht & Hlt). exfalso.
    destruct (segment_closest sx sy vx vy (cx isl) (cy isl) t Hpos Ht)
      as [_ Hle].
    lra.
Qed.

Lemma doesPathPassNearIsland_exact_witness :
  doesPathPassNearIsland 500 500 500 1500 theIsland COMMANDER_LAND_MARGIN
  = true.
Proof.
  apply (proj2 (doesPathPassNearIsland_exact 500 500 500 1500 theIsland
                  COMMANDER_LAND_MARGIN ltac:(lra))).
  exists (1 / 2). split; [lra|].
  cbn [cx cy cr theIsland].
  unfold COMMANDER_LAND_MARGIN, ESCORT_FORMATION_RADIUS.
  apply hypot_lt; lra.
Defined.

(** The running minimum of [distanceToNearestLand]. *)
Lemma nearest_fold x y land acc :
  match fold_left
          (fun minDist c =>
             let dx := x - cx c in
             let dy := y - cy c in
             let d := hypot dx dy - cr c in
             match minDist with
             | None => Some d
             | Some m => if Rltb d m then Some d else Some m
             end) land acc with
  | None => acc = None /\ land = []
  | Some m =>
      (forall c, In c land -> m <= hypot (x - cx c) (y - cy c) - cr c) /\
      (forall a, acc = Some a -> m <= a) /\
      (acc = Some m \/
       exists c, In c land /\ m = hypot (x - cx c) (y - cy c) - cr c)
  end.
Proof.
  revert acc. induction land as [|c land IH]; intros acc; cbn [fold_left].
  - destruct acc as [a|]; [|auto].
    split; [intros c []|]. split; [intros a' H; injection H as <-; lra|].
    left; reflexivity.
  - cbv zeta.
    set (d := hypot (x - cx c) (y - cy c) - cr c).
    set (acc' := match acc with
                 | None => Some d
                 | Some m => if Rltb d m then Some d else Some m
                 end).
    specialize (IH acc').
    destruct (fold_left _ land acc') as [m|].
    + destruct IH as (Hall & Hacc & Hex).
      assert (Hd : m <= d /\ forall a, acc = Some a -> m <= a).
      { unfold acc' in Hacc. destruct acc as [a|].
        - unfold Rltb in Hacc. destruct (Rlt_dec d a) as [Hlt|Hge].
          + pose proof (Hacc d eq_refl). split; [lra|].
            intros a' H'; injection H' as <-. lra.
          + pose proof (Hacc a eq_refl). split; [lra|].
            intros a' H'; injection H' as <-. lra.
        - split; [apply Hacc; reflexivity | discriminate]. }
      destruct Hd as [Hd Ha].
      split; [intros c' [<-|Hc']; [exact Hd | auto]|].
      split; [exact Ha|].
      destruct Hex as [He|(c' & Hc' & He)].
      * unfold acc' in He. destruct acc as [a|].
        -- unfold Rltb in He. destruct (Rlt_dec d a).
           ++ injection He as He. right. exists c. split; [left; reflexivity|].
              symmetry; exact He.
           ++ left. exact He.
        -- injection He as He. right. exists c.
           split; [left; reflexivity | symmetry; exact He].
      * right. exists c'. split; [right; exact Hc' | exact He].
    + destruct IH as [He _]. unfold acc' in He. destruct acc as [a|].
      * destruct (Rltb d a); discriminate.
      * discriminate.
Qed.

(** [isPointSafe] holds exactly when the point keeps the margin from
    every coast. *)
Lemma isPointSafe_iff x y margin land :
  isPointSafe x y margin land = true <->
  forall c, In c land -> cr c + margin <= hypot (x - cx c) (y - cy c).
Proof.
  unfold isPointSafe, distanceToNearestLand.
  pose proof (nearest_fold x y land None) as H.
  destruct (fold_left _ land None) as [m|].
  - destruct H as (Hall & _ & [Hn|(c & Hc & Hm)]); [discriminate|].
    unfold Rgeb, Rleb. destruct (Rle_dec margin m) as [Hle|Hgt].
    + split; [intros _ c' Hc'; pose proof (Hall c' Hc'); lra | reflexivity].
    + split; [discriminate|]. intros Hs. pose proof (Hs c Hc). lra.
  - destruct H as [_ ->]. split; [intros _ c []|reflexivity].
Qed.

Lemma totalPush_none qx qy margin land :
  (forall c, In c land -> cr c + margin <= hypot (qx - cx c) (qy - cy c)) ->
  totalPush qx qy margin land = (0, 0, false).
Proof.
  unfold totalPush. generalize (0, 0, false) as acc.
  induction land as [|c land IH]; intros acc H; cbn [fold_left];
    [reflexivity|].
  destruct acc as [[ax ay] b]. rewrite Rltb_false by (apply H; left; reflexivity).
  cbn [andb]. apply IH. intros c' Hc'. apply H. right; exact Hc'.
Qed.

Lemma pushToSafePoint_box x y margin land :
  margin <= 2980 -> inBox (margin + 100) (pushToSafePoint x y margin land).
Proof.
  intros Hm. unfold pushToSafePoint, inBox, WORLD_w, WORLD_h.
  destruct (pushRounds 15 x y margin land) as [qx qy]. cbn [px py].
  pose proof (clamp_bounds qx (margin + 100) (8960 - margin - 100)
                ltac:(lra)).
  pose proof (clamp_bounds qy (margin + 100) (6160 - margin - 100)
                ltac:(lra)).
  lra.
Qed.

Lemma pushToSafePoint_fixed x y margin land :
  isPointSafe x y margin land = true -> inBox (margin + 100) (mkPoint x y) ->
  pushToSafePoint x y margin land = mkPoint x y.
Proof.
  unfold pushToSafePoint, inBox, WORLD_w, WORLD_h.
  intros Hs [Hx Hy]. cbn [px py] in Hx, Hy.
  cbn [pushRounds]. rewrite totalPush_none by (apply isPointSafe_iff; exact Hs).
  cbn [negb]. f_equal; apply clamp_id; lra.
Qed.

(** X6: [pushToSafePoint] answers inside the box that keeps [margin]
    plus 100 from the edge of the world, and leaves a point alone that
    is already safe and inside that box. *)
Theorem pushToSafePoint_spec x y margin land :
  margin <= 2980 ->
  let p := pushToSafePoint x y margin land in
  inBox (margin + 100) p /\
  (isPointSafe x y margin land = true -> inBox (margin + 100) (mkPoint x y) ->
   p = mkPoint x y).
Proof.
  intros Hm. cbv zeta. split.
  - apply pushToSafePoint_box. exact Hm.
  - apply pushToSafePoint_fixed.
Qed.

Lemma pushToSafePoint_spec_witness :
  pushToSafePoint 2000 3000 COMMANDER_LAND_MARGIN oneIsland
  = mkPoint 2000 3000.
Proof.
  apply (pushToSafePoint_spec 2000 3000 COMMANDER_LAND_MARGIN oneIsland);
    unfold COMMANDER_LAND_MARGIN, ESCORT_FORMATION_RADIUS.
  - lra.
  - apply isPointSafe_single. cbn [cx cy cr theIsland].
    apply hypot_ge. lra.
  - unfold inBox, WORLD_w, WORLD_h. cbn [px py]. lra.
Defined.

Lemma insertByDistance_length sx sy c l :
  length (insertByDistance sx sy c l) = S (length l).
Proof.
  induction l as [|b l IH]; cbn [insertByDistance]; [reflexivity|].
  destruct (Rleb _ _); cbn [length]; [reflexivity | rewrite IH; reflexivity].
Qed.

Lemma sortByDistance_length sx sy l :
  length (sortByDistance sx sy l) = length l.
Proof.
  unfold sortByDistance. induction l as [|c l IH]; cbn [fold_right];
    [reflexivity|].
  rewrite insertByDistance_length, IH. reflexivity.
Qed.

Lemma curveAround_spec margin land ex ey blocking :
  margin <= 2980 ->
  forall x0 y0,
    length (curveAround x0 y0 ex ey margin blocking land) = length blocking /\
    Forall (inBox (margin + 100))
           (curveAround x0 y0 ex ey margin blocking land).
Proof.
  intros Hm. induction blocking as [|c l IH]; intros x0 y0;
    cbn [curveAround]; [split; [reflexivity | constructor]|].
  cbv zeta.
  set (wp := generateCurveAroundIsland x0 y0 ex ey c margin land).
  destruct (IH (px wp) (py wp)) as [Hl Hb].
  split; [cbn [length]; rewrite Hl; reflexivity|].
  constructor; [|exact Hb].
  unfold wp, generateCurveAroundIsland. cbv zeta.
  match goal with
  | |- inBox _ (mkPoint (px ?p) (py ?p)) =>
      replace (mkPoint (px p) (py p)) with p by (destruct p; reflexivity)
  end.
  apply pushToSafePoint_box. exact Hm.
Qed.

Lemma generateSmoothPath_spec sx sy ex ey margin land :
  margin <= 2980 ->
  let path := generateSmoothPath sx sy ex ey margin land in
  (1 <= length path <= S (length land))%nat /\
  Forall (inBox (margin + 100)) path /\
  last path (mkPoint 0 0) = pushToSafePoint ex ey margin land.
Proof.
  intros Hm. cbv zeta. unfold generateSmoothPath. cbv zeta.
  set (q := pushToSafePoint ex ey margin land).
  assert (Hq : inBox (margin + 100) (mkPoint (px q) (py q))).
  { replace (mkPoint (px q) (py q)) with q by (destruct q; reflexivity).
    apply pushToSafePoint_box. exact Hm. }
  assert (Hqq : mkPoint (px q) (py q) = q) by (destruct q; reflexivity).
  assert (H1 : (1 <= length [mkPoint (px q) (py q)] <= S (length land))%nat /\
               Forall (inBox (margin + 100)) [mkPoint (px q) (py q)] /\
               last [mkPoint (px q) (py q)] (mkPoint 0 0) = q).
  { cbn [length last]. split; [lia|]. split; [constructor; [exact Hq|constructor]|].
    exact Hqq. }
  destruct (isDirectPathClear _ _ _ _ _ _); [exact H1|].
  set (bl := filter _ land).
  assert (Hbl : (length bl <= length land)%nat) by apply filter_length_le.
  destruct bl as [|b bl'] eqn:E; [exact H1|].
  rewrite <- E in *. clear H1.
  destruct (curveAround_spec margin land (px q) (py q)
              (sortByDistance sx sy bl) Hm sx sy) as [Hl Hb].
  rewrite sortByDistance_length in Hl.
  split; [rewrite length_app, Hl; cbn [length]; lia|].
  split.
  - apply Forall_app. split; [exact Hb | constructor; [exact Hq|constructor]].
  - rewrite last_last. exact Hqq.
Qed.

(** X7: the commander's route is never empty, holds at most one
    waypoint per island and the destination, and every waypoint lies
    inside the world box that keeps 800 from the edge. *)
Theorem planCommanderRoute_box land sx sy targetX targetY :
  let route := planCommanderRoute land sx sy targetX targetY in
  (1 <= length route <= S (length land))%nat /\
  Forall (inBox (COMMANDER_LAND_MARGIN + 100)) route.
Proof.
  cbv zeta. unfold planCommanderRoute. cbv zeta.
  assert (Hm : COMMANDER_LAND_MARGIN <= 2980)
    by (unfold COMMANDER_LAND_MARGIN, ESCORT_FORMATION_RADIUS; lra).
  set (q := pushToSafePoint targetX targetY COMMANDER_LAND_MARGIN land).
  destruct (generateSmoothPath_spec sx sy (px q) (py q)
              COMMANDER_LAND_MARGIN land Hm) as (Hl & Hb & _).
  rewrite length_map. split; [exact Hl|].
  apply Forall_map. eapply Forall_impl; [|exact Hb].
  intros wp Hwp. cbv beta.
  destruct (isPointSafe _ _ _ _); [exact Hwp|].
  apply pushToSafePoint_box. exact Hm.
Qed.

(** X8: a destination that is already safe at the commander's margin and
    inside the world box is the last waypoint of the route. *)
Theorem planCommanderRoute_ends_at_target land sx sy targetX targetY :
  isPointSafe targetX targetY COMMANDER_LAND_MARGIN land = true ->
  inBox (COMMANDER_LAND_MARGIN + 100) (mkPoint targetX targetY) ->
  last (planCommanderRoute land sx sy targetX targetY) (mkPoint 0 0)
  = mkPoint targetX targetY.
Proof.
  intros Hs Hb. unfold planCommanderRoute. cbv zeta.
  assert (Hm : COMMANDER_LAND_MARGIN <= 2980)
    by (unfold COMMANDER_LAND_MARGIN, ESCORT_FORMATION_RADIUS; lra).
  rewrite (pushToSafePoint_fixed _ _ _ _ Hs Hb). cbn [px py].
  destruct (generateSmoothPath_spec sx sy targetX targetY
              COMMANDER_LAND_MARGIN land Hm) as (Hl & _ & Hlast).
  rewrite (pushToSafePoint_fixed _ _ _ _ Hs Hb) in Hlast.
  set (path := generateSmoothPath sx sy targetX targetY
                 COMMANDER_LAND_MARGIN land) in *.
  destruct (exists_last (l := path)) as (front & p & Hp).
  { intros E. rewrite E in Hl. cbn in Hl. lia. }
  rewrite Hp in *. rewrite last_last in Hlast. subst p.
  rewrite map_app. cbn [map]. rewrite last_last. cbn [px py].
  assert (Hs8 : isPointSafe targetX targetY (COMMANDER_LAND_MARGIN * (8 / 10))
                  land = true).
  { apply isPointSafe_iff. intros c Hc.
    pose proof (proj1 (isPointSafe_iff _ _ _ _) Hs c Hc).
    unfold COMMANDER_LAND_MARGIN, ESCORT_FORMATION_RADIUS in *. lra. }
  rewrite Hs8. reflexivity.
Qed.

Lemma planCommanderRoute_ends_at_target_witness :
  last (planCommanderRoute oneIsland 500 500 2000 3000) (mkPoint 0 0)
  = mkPoint 2000 3000.
Proof.
  apply planCommanderRoute_ends_at_target;
    unfold COMMANDER_LAND_MARGIN, ESCORT_FORMATION_RADIUS.
  - apply isPointSafe_single. cbn [cx cy cr theIsland].
    apply hypot_ge. lra.
  - unfold inBox, WORLD_w, WORLD_h. cbn [px py]. lra.
Defined.

End LandFacts.

(** ** The collision predictor and the avoidance loop *)

Section PredictorFacts.
Import Config Collision Nav.

Lemma jhypot_swap p q r s :
  jhypot (p - q)%js (r - s)%js = jhypot (q - p)%js (s - r)%js.
Proof.
  destruct p as [p| |], q as [q| |], r as [r| |], s as [s| |]; cbn;
    try reflexivity.
  f_equal. rewrite <- (hypot_sym (p - q) (r - s)). f_equal; ring.
Qed.

Lemma separationAt_sym a b t : separationAt a b t = separationAt b a t.
Proof. unfold separationAt. cbv zeta. apply jhypot_swap. Qed.

Lemma trackMin_sym a b acc t : trackMin a b acc t = trackMin b a acc t.
Proof. unfold trackMin. rewrite separationAt_sym. reflexivity. Qed.

Lemma trackMin_fold_sym a b ts acc :
  fold_left (trackMin a b) ts acc = fold_left (trackMin b a) ts acc.
Proof.
  revert acc; induction ts as [|t ts IH]; intros acc; cbn [fold_left];
    [reflexivity|].
  rewrite trackMin_sym. apply IH.
Qed.

Lemma closing_sym (p q r s : jsnum) (u v : R) :
  jopp (((q - p) * Num u + (s - r) * Num v)%js)
  = jopp (((p - q) * Num (- u) + (r - s) * Num (- v))%js).
Proof.
  destruct p as [p| |], q as [q| |], r as [r| |], s as [s| |]; cbn;
    try reflexivity.
  f_equal. ring.
Qed.

(** X9: the predictor is symmetric: it warns [a] about [b] exactly when
    it warns [b] about [a], with the same time, urgency and
    distances. *)
Theorem predictCollision_symmetric a b lookAhead :
  sameEncounter (predictCollision a b lookAhead)
                (predictCollision b a lookAhead).
Proof.
  unfold predictCollision.
  rewrite (orb_comm (negb (alive b))), (Nat.eqb_sym (sid b)).
  destruct (negb (alive a) || negb (alive b)); [exact I|].
  destruct (Nat.eqb (sid a) (sid b)); [exact I|].
  cbv zeta.
  rewrite (jhypot_swap (x a) (x b) (y a) (y b)).
  set (cd := jhypot (x b - x a)%js (y b - y a)%js).
  replace (radius (kind b) + radius (kind a) + 40)
    with (radius (kind a) + radius (kind b) + 40) by ring.
  set (coll := radius (kind a) + radius (kind b) + 40).
  destruct (cd <? coll + 30)%js; [cbn; auto|].
  rewrite (trackMin_fold_sym b a).
  destruct (fold_left (trackMin a b) (sampleTimes (5 / 10) lookAhead)
                      (cd, Num 0)) as [minDist minTime].
  replace (orZero (vx b) - orZero (vx a))
    with (- (orZero (vx a) - orZero (vx b))) by ring.
  replace (orZero (vy b) - orZero (vy a))
    with (- (orZero (vy a) - orZero (vy b))) by ring.
  set (rvx := orZero (vx a) - orZero (vx b)).
  set (rvy := orZero (vy a) - orZero (vy b)).
  rewrite (hypot_sym rvx rvy).
  rewrite <- (closing_sym (x a) (x b) (y a) (y b) rvx rvy).
  set (tcpa := (jopp _ / _)%js).
  rewrite (separationAt_sym b a).
  set (best := if Rgtb (hypot rvx rvy) (5 / 10) then _ else _).
  destruct best as [md mt].
  destruct (md <? coll + 60)%js; cbn; auto.
Qed.

Lemma sampleTimes_range step limit t :
  0 < step -> In t (sampleTimes step limit) -> 0 < t <= limit.
Proof.
  intros Hs. unfold sampleTimes. rewrite in_map_iff.
  intros (k & <- & Hk). apply in_seq in Hk.
  destruct (floorZ_bounds (limit / step)) as [Hf _].
  assert (Hk1 : (1 <= k)%nat) by lia.
  assert (Hk2 : (Z.of_nat k <= floorZ (limit / step))%Z) by lia.
  apply le_INR in Hk1. apply IZR_le in Hk2.
  rewrite <- INR_IZR_INZ in Hk2. cbn [INR] in Hk1.
  assert (Hq : step * (limit / step) = limit) by (field; lra).
  split; [nra|]. rewrite <- Hq. apply Rmult_le_compat_l; lra.
Qed.

(** The time kept by a "track the minimum" loop is the initial one or
    one of the sampled instants. *)
Lemma trackMin_fold_time a b ts d m :
  let r := fold_left (trackMin a b) ts (d, m) in
  snd r = m \/ exists t, In t ts /\ snd r = Num t.
Proof.
  revert d m; induction ts as [|t ts IH]; intros d m; cbn [fold_left];
    [left; reflexivity|].
  cbv zeta.
  assert (Hstep : snd (trackMin a b (d, m) t) = m \/
                  snd (trackMin a b (d, m) t) = Num t).
  { unfold trackMin. cbn [fst].
    destruct (separationAt a b t <? d)%js; [right|left]; reflexivity. }
  destruct (trackMin a b (d, m) t) as [d' m']. cbn [snd] in Hstep.
  destruct (IH d' m') as [H|(t' & Ht' & H)].
  - destruct Hstep as [Hs|Hs]; subst m'; [left; exact H|].
    right. exists t. split; [left; reflexivity | exact H].
  - right. exists t'. split; [right; exact Ht' | exact H].
Qed.

Lemma predictCollision_report ship other lookAhead p :
  0 < lookAhead ->
  predictCollision ship other lookAhead = Some p ->
  alive ship = true /\ alive other = true /\ sid ship <> sid other /\
  willCollide p = true /\ otherShip p = sid other /\
  exists t u, timeToCollision p = Num t /\ 0 <= t <= lookAhead /\
              urgency p = Num u /\ 2 / 10 <= u <= 1.
Proof.
  intros Hla. unfold predictCollision.
  destruct (alive ship) eqn:Ea; [|discriminate].
  destruct (alive other) eqn:Eo; [|discriminate]. cbn [negb orb].
  destruct (Nat.eqb (sid ship) (sid other)) eqn:Eid; [discriminate|].
  apply Nat.eqb_neq in Eid. cbv zeta.
  set (cd := jhypot _ _). set (coll := radius (kind ship) + _ + 40).
  destruct (cd <? coll + 30)%js.
  - intros H; injection H as <-.
    cbn [willCollide otherShip timeToCollision urgency].
    do 5 (split; [first [reflexivity | exact Eid | assumption]|]).
    exists 0, 1. repeat split; try reflexivity; lra.
  - pose proof (trackMin_fold_time ship other
                  (sampleTimes (5 / 10) lookAhead) cd (Num 0)) as Ht.
    cbv zeta in Ht.
    destruct (fold_left _ _ _) as [minDist minTime]. cbn [snd] in Ht.
    assert (Hmt : exists t, minTime = Num t /\ 0 <= t <= lookAhead).
    { destruct Ht as [->|(t & Hin & ->)].
      - exists 0. split; [reflexivity | lra].
      - exists t. split; [reflexivity|].
        pose proof (sampleTimes_range (5 / 10) lookAhead t ltac:(lra) Hin).
        lra. }
    clear Ht.
    assert (Hfin : forall md mt,
               (exists t, mt = Num t /\ 0 <= t <= lookAhead) ->
               (if (md <? coll + 60)%js
                then Some (mkPrediction true mt (sid other)
                             (jclamp (1 - jquot mt lookAhead)%js (2 / 10)%R 1)
                             (x other - x ship)%js (y other - y ship)%js cd
                             (Some md))
                else None) = Some p ->
               true = true /\ true = true /\
               sid ship <> sid other /\
               willCollide p = true /\ otherShip p = sid other /\
               exists t u, timeToCollision p = Num t /\ 0 <= t <= lookAhead /\
                           urgency p = Num u /\ 2 / 10 <= u <= 1).
    { intros md mt (t & -> & Ht).
      destruct (md <? coll + 60)%js; [|discriminate].
      intros H; injection H as <-.
      cbn [willCollide otherShip timeToCollision urgency].
      do 5 (split; [first [reflexivity | exact Eid | assumption]|]).
      unfold jquot. destruct (Req_dec_T lookAhead 0) as [?|_]; [lra|].
      exists t, (clamp (1 - t / lookAhead) (2 / 10) 1).
      split; [reflexivity|]. split; [exact Ht|]. split; [reflexivity|].
      apply (clamp_bounds _ (2 / 10) 1); lra. }
    destruct (Rgtb _ _); [|apply Hfin; exact Hmt].
    set (tcpa := (jopp _ / _)%js).
    destruct tcpa as [tc| |]; cbn [jgt jlt cmp2 andb];
      try (apply Hfin; exact Hmt).
    unfold Rgtb, Rltb.
    destruct (Rlt_dec 0 tc); cbv iota; cbn [andb];
      [|apply Hfin; exact Hmt].
    destruct (Rlt_dec tc lookAhead); cbv iota; [|apply Hfin; exact Hmt].
    destruct (_ <? minDist)%js; [|apply Hfin; exact Hmt].
    apply Hfin. exists tc. split; [reflexivity | lra].
Qed.

(** X10: whatever [predictCollision] reports concerns two different
    living vessels, and carries a time in [0, lookAhead] and an urgency
    in [0.2, 1]. *)
Theorem predictCollision_ranges ship other lookAhead p :
  0 < lookAhead ->
  predictCollision ship other lookAhead = Some p ->
  alive ship = true /\ alive other = true /\ sid ship <> sid other /\
  willCollide p = true /\ otherShip p = sid other /\
  exists t u, timeToCollision p = Num t /\ 0 <= t <= lookAhead /\
              urgency p = Num u /\ 2 / 10 <= u <= 1.
Proof. exact (predictCollision_report ship other lookAhead p). Qed.

Lemma predictCollision_ranges_witness :
  exists p,
    predictCollision nearA nearB defaultLookAhead = Some p /\
    willCollide p = true /\ otherShip p = sid nearB /\
    exists t u, timeToCollision p = Num t /\ 0 <= t <= defaultLookAhead /\
                urgency p = Num u /\ 2 / 10 <= u <= 1.
Proof.
  assert (E : exists p, predictCollision nearA nearB defaultLookAhead = Some p).
  { unfold predictCollision, nearA, nearB, mkShip.
    cbn [alive sid negb orb Nat.eqb x y kind radius jsub lift2 jhypot].
    assert (H : hypot (50 - 0) (0 - 0) = 50)
      by (apply hypot_eq; lra).
    rewrite H. cbn [jlt cmp2 jadd lift2]. rewrite Rltb_true by lra. eauto. }
  destruct E as [p E]. exists p. split; [exact E|].
  destruct (predictCollision_ranges nearA nearB defaultLookAhead p
              ltac:(unfold defaultLookAhead; lra) E)
    as (_ & _ & _ & Hw & Ho & Hr).
  auto.
Defined.

(** The running bias of the avoidance loop stays a finite number. *)
Lemma avoid_fold_num ship l v al :
  exists v' al', fold_left (avoidOne ship) l (Num v, al) = (Num v', al').
Proof.
  revert v al; induction l as [|o l IH]; intros v al; cbn [fold_left];
    [eauto|].
  unfold avoidOne at 2.
  destruct (threat ship o) as [[u ct]|] eqn:E; [|apply IH].
  destruct (threat_urgency _ _ _ _ E) as (uu & -> & _).
  cbn [fst jadd jmul lift2]. apply IH.
Qed.

(** X12: whatever the roster, the steering bias returned by
    [calculateAvoidanceSteering] is a finite number of magnitude at
    most 0.55, and the throttle it returns is 0. *)
Theorem avoidance_steer_bounded ship allShips :
  exists v,
    steer (snd (calculateAvoidanceSteering ship allShips)) = Num v /\
    Rabs v <= 55 / 100 /\
    steerThrottle (snd (calculateAvoidanceSteering ship allShips)) = 0.
Proof.
  unfold calculateAvoidanceSteering.
  destruct (avoid_fold_num ship allShips 0 None) as (v & al & ->).
  cbn [snd steer steerThrottle].
  exists (clamp v (- (55 / 100)) (55 / 100)).
  split; [reflexivity|]. split; [|reflexivity].
  apply clamp_abs. lra.
Qed.

Lemma avoid_fold_alert ship l acc :
  match snd (fold_left (avoidOne ship) l acc) with
  | None => snd acc = None /\ forall o, In o l -> threat ship o = None
  | Some al =>
      snd acc = Some al \/
      exists o u ct, In o l /\ threat ship o = Some (u, ct) /\
                     withShip al = sid o /\ alertUrgency al = u /\
                     alertTime al = ct
  end.
Proof.
  revert acc; induction l as [|o l IH]; intros acc; cbn [fold_left].
  - destruct (snd acc); [left; reflexivity | split; [reflexivity | intros o []]].
  - specialize (IH (avoidOne ship acc o)).
    destruct (snd (fold_left (avoidOne ship) l (avoidOne ship acc o)))
      as [al|].
    + destruct IH as [H|(o' & u & ct & Ho' & Hrest)].
      * unfold avoidOne in H.
        destruct (threat ship o) as [[u ct]|] eqn:E; [|left; exact H].
        cbn [snd] in H. injection H as <-.
        right. exists o, u, ct. cbn. auto.
      * right. exists o', u, ct. split; [right; exact Ho' | exact Hrest].
    + destruct IH as [H Hall]. unfold avoidOne in H.
      destruct (threat ship o) as [[u ct]|] eqn:E; [discriminate|].
      split; [exact H|]. intros o' [<-|Ho']; [exact E | auto].
Qed.

(** X13: the alert that [calculateAvoidanceSteering] leaves on the ship
    replaces any earlier one; it is absent exactly when no vessel of the
    roster passes the gates of the loop, and otherwise names a vessel
    that does, with that vessel's urgency and time. *)
Theorem avoidance_alert ship allShips :
  match collisionPredicted (fst (calculateAvoidanceSteering ship allShips)) with
  | None => forall o, In o allShips -> threat ship o = None
  | Some al =>
      exists o u ct, In o allShips /\ threat ship o = Some (u, ct) /\
                     withShip al = sid o /\ alertUrgency al = u /\
                     alertTime al = ct
  end.
Proof.
  unfold calculateAvoidanceSteering.
  pose proof (avoid_fold_alert ship allShips (Num 0, None)) as H.
  destruct (fold_left (avoidOne ship) allShips (Num 0, None)) as [ts al].
  cbn [snd fst collisionPredicted set_collisionPredicted] in *.
  destruct al as [al|].
  - destruct H as [H|H]; [discriminate | exact H].
  - apply H.
Qed.

End PredictorFacts.

(** ** The sorted collision report *)

Section ReportFacts.
Import Config Collision Nav.

Lemma insertByUrgency_In p l q :
  In q (insertByUrgency p l) <-> q = p \/ In q l.
Proof.
  induction l as [|h l IH]; cbn [insertByUrgency].
  - cbn. intuition congruence.
  - destruct (_ <=? _)%js; cbn [In]; [intuition congruence|].
    rewrite IH. intuition congruence.
Qed.

Lemma sortByUrgency_In l q : In q (sortByUrgency l) <-> In q l.
Proof.
  unfold sortByUrgency. induction l as [|h l IH]; cbn [fold_right];
    [reflexivity|].
  rewrite insertByUrgency_In, IH. cbn [In]. intuition congruence.
Qed.

Lemma insertByUrgency_descending p l a :
  urgency p = Num a ->
  Forall (fun q => exists b, urgency q = Num b) l ->
  descending l -> descending (insertByUrgency p l).
Proof.
  intros Hp. induction l as [|h l IH]; intros Hn Hd; cbn [insertByUrgency].
  - cbn. auto.
  - inversion Hn as [|? ? [b Hb] Hn']; subst.
    rewrite Hp, Hb. cbn [jle cmp2]. unfold Rleb.
    destruct (Rle_dec b a) as [Hle|Hgt].
    + cbn [descending]. split; [|exact Hd].
      constructor; [exists a, b; auto|].
      destruct Hd as [Hh _]. eapply Forall_impl; [|exact Hh].
      cbv beta. intros q (a' & b' & Ha' & Hb' & Hle').
      rewrite Hb in Ha'. injection Ha' as <-.
      exists a, b'. repeat split; auto. lra.
    + cbn [descending]. destruct Hd as [Hh Hd]. split; [|apply IH; assumption].
      apply Forall_forall. intros q Hq. apply insertByUrgency_In in Hq.
      destruct Hq as [->|Hq].
      * exists b, a. repeat split; auto. lra.
      * rewrite Forall_forall in Hh. apply Hh. exact Hq.
Qed.

Lemma sortByUrgency_descending l :
  Forall (fun q => exists b, urgency q = Num b) l ->
  descending (sortByUrgency l).
Proof.
  unfold sortByUrgency. induction l as [|h l IH]; intros Hn;
    cbn [fold_right]; [exact I|].
  inversion Hn as [|? ? [b Hb] Hn']; subst.
  apply (insertByUrgency_descending h _ b Hb).
  - apply Forall_forall. intros q Hq.
    apply (proj1 (sortByUrgency_In l q)) in Hq.
    rewrite Forall_forall in Hn'. apply Hn'. exact Hq.
  - apply IH. exact Hn'.
Qed.

(** X11: for a positive look-ahead, [checkAllCollisions] reports exactly
    the predictions that [predictCollision] makes about the living
    vessels of the ship's own team other than the ship itself, the most
    urgent first. *)
Theorem checkAllCollisions_sorted ship allShips lookAhead :
  0 < lookAhead ->
  let report := checkAllCollisionsSorted ship allShips lookAhead in
  (forall p,
     In p report <->
     exists other,
       In other allShips /\ alive other = true /\ sid other <> sid ship /\
       team other = team ship /\
       predictCollision ship other lookAhead = Some p) /\
  descending report.
Proof.
  intros Hla. cbv zeta. unfold checkAllCollisionsSorted.
  assert (Hin : forall p,
             In p (checkAllCollisions ship allShips lookAhead) <->
             exists other,
               In other allShips /\ alive other = true /\
               sid other <> sid ship /\ team other = team ship /\
               predictCollision ship other lookAhead = Some p).
  { intros p. unfold checkAllCollisions. rewrite in_flat_map. split.
    - intros (other & Hin & Hp). exists other. split; [exact Hin|].
      destruct (alive other); [|destruct Hp]. cbn [negb orb] in Hp.
      destruct (Nat.eqb (sid other) (sid ship)) eqn:Eid; [destruct Hp|].
      apply Nat.eqb_neq in Eid.
      destruct (Team_eqb (team other) (team ship)) eqn:Et; [|destruct Hp].
      cbn [negb] in Hp.
      destruct (predictCollision ship other lookAhead) as [c|]; [|destruct Hp].
      destruct Hp as [<-|[]].
      repeat split; auto.
      destruct (team other), (team ship); try reflexivity; discriminate.
    - intros (other & Hin & Ha & Hid & Ht & Hp). exists other.
      split; [exact Hin|]. rewrite Ha. cbn [negb orb].
      apply Nat.eqb_neq in Hid. rewrite Hid, Ht, Hp.
      destruct (team ship); cbn; auto. }
  split.
  - intros p. rewrite sortByUrgency_In. apply Hin.
  - apply sortByUrgency_descending. apply Forall_forall. intros q Hq.
    apply Hin in Hq. destruct Hq as (other & _ & _ & _ & _ & Hp).
    destruct (predictCollision_report ship other lookAhead q Hla Hp)
      as (_ & _ & _ & _ & _ & t & u & _ & _ & Hu & _).
    exists u. exact Hu.
Qed.

Lemma checkAllCollisions_sorted_witness :
  let report := checkAllCollisionsSorted nearA [nearA; nearB] defaultLookAhead in
  (forall p,
     In p report <->
     exists other,
       In other [nearA; nearB] /\ alive other = true /\
       sid other <> sid nearA /\ team other = team nearA /\
       predictCollision nearA other defaultLookAhead = Some p) /\
  descending report.
Proof.
  apply (checkAllCollisions_sorted nearA [nearA; nearB] defaultLookAhead).
  unfold defaultLookAhead. lra.
Defined.

End ReportFacts.

(** ** Helm and hull *)

Section HelmFacts.
Import Config Dynamics.

Lemma sign_abs v : sign v * Rabs v = v.
Proof.
  unfold sign. destruct (Rlt_dec 0 v); [rewrite Rabs_right by lra; lra|].
  destruct (Rlt_dec v 0); [rewrite Rabs_left by lra; lra|].
  replace v with 0 by lra. rewrite Rabs_R0. lra.
Qed.

Lemma sign_cases v :
  (0 < v /\ sign v = 1) \/ (v < 0 /\ sign v = -1) \/ (v = 0 /\ sign v = 0).
Proof.
  unfold sign. destruct (Rlt_dec 0 v); [left; split; [lra|reflexivity]|].
  destruct (Rlt_dec v 0); [right; left; split; [lra|reflexivity]|].
  right; right. split; [lra | reflexivity].
Qed.

(** One update of the AI throttle, on a vessel whose throttle is in
    range. *)
Lemma updateAIThrottle_value s tgt dt th :
  throttle s = Num th -> 0 <= th <= 100 -> 0 <= tgt <= 100 -> 0 <= dt ->
  throttle (updateAIThrottle s tgt dt) =
  Num (if Rle_dec (Rabs (tgt - th)) (THROTTLE_CHANGE_RATE * dt) then tgt
       else th + sign (tgt - th) * (THROTTLE_CHANGE_RATE * dt)).
Proof.
  intros Hth Hr Ht Hdt. unfold updateAIThrottle. rewrite Hth.
  assert (Hc : 0 <= THROTTLE_CHANGE_RATE * dt)
    by (unfold THROTTLE_CHANGE_RATE; lra).
  cbn [isNaN isUndefined orb throttle set_throttle jsub jabs jle jsign jadd
       jmul lift1 lift2 cmp2].
  unfold Rleb.
  destruct (Rle_dec (Rabs (tgt - th)) (THROTTLE_CHANGE_RATE * dt)) as [Hle|Hgt].
  - rewrite jclamp_Num. f_equal. apply clamp_id. lra.
  - rewrite jclamp_Num. f_equal. apply clamp_id.
    apply Rnot_le_lt in Hgt.
    destruct (sign_cases (tgt - th)) as [[Hs ->]|[[Hs ->]|[Hs ->]]].
    + rewrite Rabs_right in Hgt by lra. lra.
    + rewrite Rabs_left in Hgt by lra. lra.
    + lra.
Qed.

(** X14: one update of the AI throttle moves it toward the target by the
    change rate times the time step, and lands exactly on the target
    when that is within reach. *)
Theorem updateAIThrottle_step s tgt dt th :
  throttle s = Num th -> 0 <= th <= 100 -> 0 <= tgt <= 100 -> 0 <= dt ->
  exists th',
    throttle (updateAIThrottle s tgt dt) = Num th' /\
    (Rabs (tgt - th) <= THROTTLE_CHANGE_RATE * dt -> th' = tgt) /\
    (THROTTLE_CHANGE_RATE * dt < Rabs (tgt - th) ->
     Rabs (th' - th) = THROTTLE_CHANGE_RATE * dt /\
     Rabs (tgt - th') = Rabs (tgt - th) - THROTTLE_CHANGE_RATE * dt).
Proof.
  intros Hth Hr Ht Hdt.
  rewrite (updateAIThrottle_value s tgt dt th Hth Hr Ht Hdt).
  eexists. split; [reflexivity|].
  assert (Hc : 0 <= THROTTLE_CHANGE_RATE * dt)
    by (unfold THROTTLE_CHANGE_RATE; lra).
  destruct (Rle_dec _ _) as [Hle|Hgt]; split; try lra; try reflexivity.
  intros Hlt.
  destruct (sign_cases (tgt - th)) as [[Hs ->]|[[Hs ->]|[Hs ->]]].
  - rewrite Rabs_right in Hlt by lra.
    rewrite (Rabs_right (tgt - th)) by lra.
    split; [rewrite Rabs_right by lra; lra|].
    rewrite Rabs_right by lra. lra.
  - rewrite Rabs_left in Hlt by lra.
    rewrite (Rabs_left (tgt - th)) by lra.
    split; [rewrite Rabs_left1 by lra; lra|].
    rewrite Rabs_left by lra. lra.
  - rewrite Hs, Rabs_R0 in Hlt. lra.
Qed.

Lemma updateAIThrottle_step_witness :
  exists th',
    throttle (updateAIThrottle (mkShip 0 P DD 0 0 0) 100 (1 / 30)) = Num th' /\
    Rabs (th' - 50) = THROTTLE_CHANGE_RATE * (1 / 30).
Proof.
  destruct (updateAIThrottle_step (mkShip 0 P DD 0 0 0) 100 (1 / 30) 50
              eq_refl ltac:(lra) ltac:(lra) ltac:(lra))
    as (th' & Hth & _ & Hfar).
  exists th'. split; [exact Hth|].
  apply Hfar. unfold THROTTLE_CHANGE_RATE.
  rewrite Rabs_right by lra. lra.
Defined.

(** X15: held on one target, the AI throttle reaches it after as many
    updates as the distance divided by the change per update, and then
    stays there. *)
Theorem updateAIThrottle_reaches s tgt dt th n :
  throttle s = Num th -> 0 <= th <= 100 -> 0 <= tgt <= 100 -> 0 <= dt ->
  Rabs (tgt - th) <= INR n * (THROTTLE_CHANGE_RATE * dt) ->
  throttle (Nat.iter n (fun u => updateAIThrottle u tgt dt) s) = Num tgt.
Proof.
  intros Hth Hr Ht Hdt. revert s th Hth Hr.
  assert (Hc : 0 <= THROTTLE_CHANGE_RATE * dt)
    by (unfold THROTTLE_CHANGE_RATE; lra).
  induction n as [|n IH]; intros s th Hth Hr Hn.
  - unfold Nat.iter. cbn [nat_rect INR] in *. rewrite Hth. f_equal.
    rewrite Rmult_0_l in Hn. pose proof (Rabs_pos (tgt - th)).
    assert (Hz : Rabs (tgt - th) = 0) by lra.
    destruct (Req_dec (tgt - th) 0) as [E|E]; [lra|].
    apply Rabs_no_R0 in E. lra.
  - rewrite Nat.iter_succ_r. rewrite S_INR in Hn.
    pose proof (updateAIThrottle_value s tgt dt th Hth Hr Ht Hdt) as Hv.
    destruct (updateAIThrottle_throttle s tgt dt) as (t' & Ht' & Hr').
    apply (IH _ t' Ht' Hr').
    rewrite Hv in Ht'. injection Ht' as <-.
    destruct (Rle_dec _ _) as [Hle|Hgt].
    + replace (tgt - tgt) with 0 by ring. rewrite Rabs_R0.
      apply Rmult_le_pos; [apply pos_INR | exact Hc].
    + apply Rnot_le_lt in Hgt.
      destruct (sign_cases (tgt - th)) as [[Hs ->]|[[Hs ->]|[Hs ->]]].
      * rewrite Rabs_right in Hgt, Hn by lra. rewrite Rabs_right by lra. lra.
      * rewrite Rabs_left in Hgt, Hn by lra. rewrite Rabs_left by lra. lra.
      * rewrite Hs, Rabs_R0 in Hgt. lra.
Qed.

Lemma updateAIThrottle_reaches_witness :
  throttle (Nat.iter 40 (fun u => updateAIThrottle u 100 (1 / 30))
                     (mkShip 0 P DD 0 0 0)) = Num 100.
Proof.
  apply (updateAIThrottle_reaches (mkShip 0 P DD 0 0 0) 100 (1 / 30) 50 40).
  - reflexivity.
  - lra.
  - lra.
  - lra.
  - unfold THROTTLE_CHANGE_RATE.
    replace (INR 40) with 40 by (rewrite INR_IZR_INZ; reflexivity).
    rewrite Rabs_right by lra. lra.
Defined.

Lemma Rabs_le_between v m : Rabs v <= m -> - m <= v <= m.
Proof. unfold Rabs. destruct (Rcase_abs v); lra. Qed.

Lemma turnRate_pos k : 0 < turnRate k.
Proof. destruct k; cbn; lra. Qed.

(** [applyRudder] on a vessel whose helm fields are numbers. *)
Lemma applyRudder_num s turn dt r av h :
  rudderAngle s = Num r -> angularVel s = Num av -> heading s = Num h ->
  let target := clamp turn (- MAX_RUDDER_ANGLE) MAX_RUDDER_ANGLE in
  let r1 :=
    if Rgtb (Rabs (target - r)) (1 / 100) then
      r + clamp (target - r) (- (3 / 10 * dt)) (3 / 10 * dt)
    else if Rltb (Rabs target) (2 / 100) then
      if Rltb (Rabs r) (2 / 10 * dt) then 0 else r - sign r * (2 / 10 * dt)
    else r in
  let r2 := clamp r1 (- MAX_RUDDER_ANGLE) MAX_RUDDER_ANGLE in
  let tt := turnRate (kind s) * (Rabs r2 / MAX_RUDDER_ANGLE) * sign r2 in
  let av2 :=
    (av + clamp ((tt - av) * (6 / 10) * dt)
                (- (turnRate (kind s) * dt * (8 / 10)))
                (turnRate (kind s) * dt * (8 / 10))) * (98 / 100) in
  rudderAngle (applyRudder s turn dt) = Num r2 /\
  angularVel (applyRudder s turn dt) = Num av2 /\
  heading (applyRudder s turn dt) = Num (h + av2 * dt).
Proof.
  intros Hr Hav Hh. cbv zeta. unfold applyRudder.
  cbn [rudderAngle angularVel heading set_rudderAngle set_heading
       set_angularVel].
  rewrite Hr, Hav, Hh. cbn [orZero isUndefined isNaN orb].
  destruct (Rgtb _ _);
    [|destruct (Rltb (Rabs (clamp turn _ _)) _); [destruct (Rltb _ _)|]];
    cbn [jclamp jmax jmin jabs jsign jdiv jmul jsub jadd lift1 lift2
         isUndefined isNaN orb];
    repeat split; reflexivity.
Qed.

(** X16: on a vessel whose rudder is within the maximum deflection, one
    call of [applyRudder] moves the rudder by at most 0.3 rad/s times
    the time step. *)
Theorem applyRudder_rate_limit s turn dt r av h :
  rudderAngle s = Num r -> angularVel s = Num av -> heading s = Num h ->
  Rabs r <= MAX_RUDDER_ANGLE -> 0 <= dt ->
  exists r', rudderAngle (applyRudder s turn dt) = Num r' /\
             Rabs (r' - r) <= 3 / 10 * dt.
Proof.
  intros Hr Hav Hh Hm Hdt.
  destruct (applyRudder_num s turn dt r av h Hr Hav Hh) as (-> & _ & _).
  eexists. split; [reflexivity|].
  pose proof MAX_RUDDER_pos as HM.
  apply Rabs_le_between in Hm.
  set (M := MAX_RUDDER_ANGLE) in *.
  set (target := clamp turn (- M) M).
  assert (Hstep : forall r1, Rabs (r1 - r) <= 3 / 10 * dt ->
                             Rabs (clamp r1 (- M) M - r) <= 3 / 10 * dt).
  { intros r1 H1. apply Rabs_le_between in H1. apply Rabs_le.
    unfold clamp, Rmax, Rmin.
    destruct (Rle_dec M r1); destruct (Rle_dec (- M) _); lra. }
  apply Hstep.
  destruct (Rgtb _ _).
  - replace (r + clamp (target - r) (- (3 / 10 * dt)) (3 / 10 * dt) - r)
      with (clamp (target - r) (- (3 / 10 * dt)) (3 / 10 * dt)) by ring.
    apply clamp_abs. lra.
  - destruct (Rltb (Rabs target) _).
    + unfold Rltb. destruct (Rlt_dec (Rabs r) (2 / 10 * dt)) as [Hlt|Hge].
      * replace (0 - r) with (- r) by ring. rewrite Rabs_Ropp. lra.
      * replace (r - sign r * (2 / 10 * dt) - r)
          with (- (sign r * (2 / 10 * dt))) by ring.
        rewrite Rabs_Ropp.
        destruct (sign_cases r) as [[_ ->]|[[_ ->]|[_ ->]]];
          apply Rabs_le; lra.
    + replace (r - r) with 0 by ring. rewrite Rabs_R0. lra.
Qed.

Lemma applyRudder_rate_limit_witness :
  exists r', rudderAngle (applyRudder (mkShip 0 P DD 0 0 0) 1 (1 / 30))
             = Num r' /\ Rabs (r' - 0) <= 3 / 10 * (1 / 30).
Proof.
  apply (applyRudder_rate_limit (mkShip 0 P DD 0 0 0) 1 (1 / 30) 0 0 0);
    try reflexivity.
  - rewrite Rabs_R0. pose proof MAX_RUDDER_pos. lra.
  - lra.
Defined.

(** X17: with a time step of at most one second, [applyRudder] keeps the
    angular velocity within the class's turn rate, and turns the
    heading by at most the turn rate times the time step. *)
Theorem applyRudder_turn_rate s turn dt r av h :
  rudderAngle s = Num r -> angularVel s = Num av -> heading s = Num h ->
  Rabs av <= turnRate (kind s) -> 0 <= dt <= 1 ->
  exists av' h',
    angularVel (applyRudder s turn dt) = Num av' /\
    heading (applyRudder s turn dt) = Num h' /\
    Rabs av' <= turnRate (kind s) /\
    Rabs (h' - h) <= turnRate (kind s) * dt.
Proof.
  intros Hr Hav Hh Hb Hdt.
  destruct (applyRudder_num s turn dt r av h Hr Hav Hh) as (_ & -> & ->).
  do 2 eexists. split; [reflexivity|]. split; [reflexivity|].
  pose proof MAX_RUDDER_pos as HM. pose proof (turnRate_pos (kind s)) as HT.
  set (T := turnRate (kind s)) in *. set (M := MAX_RUDDER_ANGLE) in *.
  match goal with
  | |- context [clamp ?v (- M) M] => set (r2 := clamp v (- M) M)
  end.
  assert (Hr2 : - M <= r2 <= M) by (apply clamp_bounds; lra).
  set (tt := T * (Rabs r2 / M) * sign r2).
  assert (Htt : - T <= tt <= T).
  { unfold tt.
    replace (T * (Rabs r2 / M) * sign r2) with (T * (sign r2 * Rabs r2 / M))
      by (field; lra).
    rewrite sign_abs.
    assert (- 1 <= r2 / M <= 1).
    { split.
      - apply (Rmult_le_reg_r M); [lra|]. unfold Rdiv.
        rewrite Rmult_assoc, Rinv_l by lra. lra.
      - apply (Rmult_le_reg_r M); [lra|]. unfold Rdiv.
        rewrite Rmult_assoc, Rinv_l by lra. lra. }
    nra. }
  apply Rabs_le_between in Hb.
  set (c := clamp ((tt - av) * (6 / 10) * dt) (- (T * dt * (8 / 10)))
                  (T * dt * (8 / 10))).
  assert (Hc : - T <= av + c <= T).
  { assert (Hk : 0 <= 6 / 10 * dt <= 1) by lra.
    assert (Hfull : - T <= av + (tt - av) * (6 / 10) * dt <= T) by nra.
    unfold c, clamp, Rmax, Rmin.
    destruct (Rle_dec (T * dt * (8 / 10)) _);
      destruct (Rle_dec (- (T * dt * (8 / 10))) _); nra. }
  assert (Hav2 : Rabs ((av + c) * (98 / 100)) <= T) by (apply Rabs_le; lra).
  split; [exact Hav2|].
  replace (h + (av + c) * (98 / 100) * dt - h)
    with ((av + c) * (98 / 100) * dt) by ring.
  rewrite Rabs_mult, (Rabs_right dt) by lra.
  apply Rmult_le_compat_r; lra.
Qed.

Lemma applyRudder_turn_rate_witness :
  exists av' h',
    angularVel (applyRudder (mkShip 0 P DD 0 0 0) 1 (1 / 30)) = Num av' /\
    heading (applyRudder (mkShip 0 P DD 0 0 0) 1 (1 / 30)) = Num h' /\
    Rabs av' <= turnRate DD /\ Rabs (h' - 0) <= turnRate DD * (1 / 30).
Proof.
  apply (applyRudder_turn_rate (mkShip 0 P DD 0 0 0) 1 (1 / 30) 0 0 0);
    try reflexivity.
  - rewrite Rabs_R0. cbn. lra.
  - lra.
Defined.

Lemma resolveShipLand_position land s a b :
  x s = Num a -> y s = Num b ->
  exists a' b', x (resolveShipLand land s) = Num a' /\
                y (resolveShipLand land s) = Num b'.
Proof.
  intros Hx Hy. unfold resolveShipLand. rewrite Hx, Hy.
  destruct (inLand _ _ _ _) as [hit|]; [|eauto].
  cbv zeta. cbn [jsub jhypot lift2 orElse jdiv jmul jadd].
  destruct (_ <? 0)%js; cbn [x y set_x set_y set_vx set_vy]; eauto.
Qed.

(** X18: [physicsStep] leaves a living vessel whose position, velocity,
    heading and speed are numbers inside the world, at least its hull
    radius from every edge. *)
Theorem physicsStep_in_world land s dt a b u v h c :
  alive s = true ->
  x s = Num a -> y s = Num b -> vx s = Num u -> vy s = Num v ->
  heading s = Num h -> currentSpeed s = Num c ->
  exists a' b',
    x (physicsStep land s dt) = Num a' /\
    y (physicsStep land s dt) = Num b' /\
    radius (kind s) <= a' <= WORLD_w - radius (kind s) /\
    radius (kind s) <= b' <= WORLD_h - radius (kind s).
Proof.
  intros Ha Hx Hy Hu Hv Hh Hc. unfold physicsStep. rewrite Ha.
  cbn [negb]. cbv zeta. rewrite Hx, Hy, Hu, Hv, Hh, Hc.
  cbn [isUndefined jcos jsin jmul jadd jhypot jdiv lift1 lift2].
  assert (Hfin : forall s1 a1 b1,
             x s1 = Num a1 -> y s1 = Num b1 ->
             exists a' b',
               x (withinWorld (resolveShipLand land s1) (radius (kind s)))
               = Num a' /\
               y (withinWorld (resolveShipLand land s1) (radius (kind s)))
               = Num b' /\
               radius (kind s) <= a' <= WORLD_w - radius (kind s) /\
               radius (kind s) <= b' <= WORLD_h - radius (kind s)).
  { intros s1 a1 b1 Hx1 Hy1.
    destruct (resolveShipLand_position land s1 a1 b1 Hx1 Hy1)
      as (a2 & b2 & Hx2 & Hy2).
    generalize dependent (resolveShipLand land s1).
    intros s2 Hx2 Hy2. unfold withinWorld.
    cbn [x y set_x set_y]. rewrite Hx2, Hy2.
    pose proof (radius_bounds (kind s)) as Hk.
    exists (clamp a2 (radius (kind s)) (WORLD_w - radius (kind s))),
           (clamp b2 (radius (kind s)) (WORLD_h - radius (kind s))).
    split; [reflexivity|]. split; [reflexivity|].
    unfold WORLD_w, WORLD_h. split; apply clamp_bounds; lra. }
  destruct (_ >? _)%js; cbv iota beta; eapply Hfin;
    cbn [x y set_x set_y set_vx set_vy set_currentSpeed]; reflexivity.
Qed.

Lemma physicsStep_in_world_witness :
  exists a' b',
    x (physicsStep oneIsland (mkShip 0 P DD 5 5 0) (1 / 30)) = Num a' /\
    y (physicsStep oneIsland (mkShip 0 P DD 5 5 0) (1 / 30)) = Num b' /\
    radius DD <= a' <= WORLD_w - radius DD /\
    radius DD <= b' <= WORLD_h - radius DD.
Proof.
  apply (physicsStep_in_world oneIsland (mkShip 0 P DD 5 5 0) (1 / 30)
           5 5 0 0 0 0); reflexivity.
Defined.

(** X19: a vessel that [resolveShipLand] finds aground, anywhere but on
    the very centre of the island, is put back on the circle half a
    unit outside the island's coast plus its hull radius, and is left
    with no velocity toward the island; a vessel that is not aground is
    left as it is. *)
Theorem resolveShipLand_pushes_out land s a b u v :
  x s = Num a -> y s = Num b -> vx s = Num u -> vy s = Num v ->
  match inLand (Num a) (Num b) (radius (kind s)) land with
  | None => resolveShipLand land s = s
  | Some hit =>
      0 <= cr hit -> hypot (a - cx hit) (b - cy hit) <> 0 ->
      exists a' b' u' v',
        x (resolveShipLand land s) = Num a' /\
        y (resolveShipLand land s) = Num b' /\
        vx (resolveShipLand land s) = Num u' /\
        vy (resolveShipLand land s) = Num v' /\
        hypot (a' - cx hit) (b' - cy hit)
        = cr hit + radius (kind s) + 5 / 10 /\
        0 <= u' * (a' - cx hit) + v' * (b' - cy hit)
  end.
Proof.
  intros Hx Hy Hu Hv. unfold resolveShipLand. rewrite Hx, Hy.
  destruct (inLand _ _ _ _) as [hit|]; [|reflexivity].
  intros Hr Hd. cbv zeta. rewrite Hu, Hv.
  cbn [jsub jhypot lift2 orElse jdiv jmul jadd jlt cmp2].
  unfold Ror. destruct (Req_dec_T _ 0) as [E|_]; [contradiction|].
  pose proof (radius_bounds (kind s)) as Hk.
  set (dx := a - cx hit) in *. set (dy := b - cy hit) in *.
  set (d := hypot dx dy) in *. set (want := cr hit + radius (kind s) + 5 / 10).
  pose proof (hypot_nonneg dx dy) as Hd0. fold d in Hd0.
  pose proof (hypot_sqr dx dy) as Hsq. fold d in Hsq.
  assert (Hn : dx / d * (dx / d) + dy / d * (dy / d) = 1).
  { replace (dx / d * (dx / d) + dy / d * (dy / d))
      with ((dx * dx + dy * dy) / (d * d)) by (field; exact Hd).
    rewrite <- Hsq. field. exact Hd. }
  assert (Hring : hypot (cx hit + dx / d * want - cx hit)
                        (cy hit + dy / d * want - cy hit) = want).
  { apply hypot_eq; [unfold want; lra|]. nra. }
  set (vn := u * (dx / d) + v * (dy / d)).
  unfold Rltb. destruct (Rlt_dec vn 0) as [Hneg|Hpos];
    cbn [x y vx vy set_x set_y set_vx set_vy].
  - do 4 eexists. do 4 (split; [reflexivity|]). split; [exact Hring|].
    replace ((u - vn * (dx / d) * (18 / 10)) * (35 / 100)
             * (cx hit + dx / d * want - cx hit)
             + (v - vn * (dy / d) * (18 / 10)) * (35 / 100)
               * (cy hit + dy / d * want - cy hit))
      with (35 / 100 * want
            * (vn - vn * (18 / 10)
                    * (dx / d * (dx / d) + dy / d * (dy / d))))
      by (unfold vn; ring).
    rewrite Hn. unfold want. nra.
  - do 4 eexists. do 4 (split; [first [reflexivity | eassumption]|]).
    split; [exact Hring|].
    replace (u * (cx hit + dx / d * want - cx hit)
             + v * (cy hit + dy / d * want - cy hit))
      with (want * vn) by (unfold vn; ring).
    unfold want. nra.
Qed.

Lemma resolveShipLand_pushes_out_witness :
  exists a' b' u' v',
    x (resolveShipLand oneIsland (underway 0 P DD 500 810 0 20 0)) = Num a' /\
    y (resolveShipLand oneIsland (underway 0 P DD 500 810 0 20 0)) = Num b' /\
    vx (resolveShipLand oneIsland (underway 0 P DD 500 810 0 20 0)) = Num u' /\
    vy (resolveShipLand oneIsland (underway 0 P DD 500 810 0 20 0)) = Num v' /\
    hypot (a' - 500) (b' - 1000) = 200 + radius DD + 5 / 10 /\
    0 <= u' * (a' - 500) + v' * (b' - 1000).
Proof.
  pose proof (resolveShipLand_pushes_out oneIsland
                (underway 0 P DD 500 810 0 20 0) 500 810 0 20
                eq_refl eq_refl eq_refl eq_refl) as H.
  assert (E : inLand (Num 500) (Num 810)
                     (radius (kind (underway 0 P DD 500 810 0 20 0)))
                     oneIsland = Some theIsland).
  { unfold oneIsland. rewrite inLand_Num_cons.
    cbn [cx cy cr theIsland kind underway set_vx set_vy mkShip radius].
    rewrite Rleb_true by lra. reflexivity. }
  rewrite E in H. cbn [cx cy cr theIsland kind underway set_vx set_vy mkShip]
    in H.
  apply H; [lra|].
  intros Hz. apply hypot_zero in Hz. lra.
Defined.

(** X20: the simulation never moves a sunk vessel: whatever the ticks, its
    position, heading and helm stay as they were and it stays sunk. *)
Theorem sunk_vessel_stays land ticks s :
  alive s = false ->
  let s' := runTicks land ticks s in
  alive s' = false /\ x s' = x s /\ y s' = y s /\ heading s' = heading s /\
  throttle s' = throttle s /\ rudderAngle s' = rudderAngle s.
Proof.
  cbv zeta. unfold runTicks. revert s.
  induction ticks as [|t ticks IH]; intros s Hd; cbn [fold_left];
    [repeat split; exact Hd || reflexivity|].
  assert (Hstep : alive (shipTick land s t) = false /\
                  x (shipTick land s t) = x s /\
                  y (shipTick land s t) = y s /\
                  heading (shipTick land s t) = heading s /\
                  throttle (shipTick land s t) = throttle s /\
                  rudderAngle (shipTick land s t) = rudderAngle s).
  { unfold shipTick. rewrite Hd. cbv zeta. unfold physicsStep.
    rewrite Hd. cbn. repeat split; exact Hd || reflexivity. }
  destruct Hstep as (H1 & H2 & H3 & H4 & H5 & H6).
  destruct (IH _ H1) as (G1 & G2 & G3 & G4 & G5 & G6).
  repeat split; congruence.
Qed.

Lemma sunk_vessel_stays_witness :
  let s := set_alive false (underway 0 P DD 500 500 10 0 0) in
  let s' := runTicks oneIsland [(NavSteer 1 100 5 5, 1 / 30); (NavIdle, 1 / 30)]
                     s in
  alive s' = false /\ x s' = x s /\ y s' = y s /\ heading s' = heading s /\
  throttle s' = throttle s /\ rudderAngle s' = rudderAngle s.
Proof.
  apply (sunk_vessel_stays oneIsland). reflexivity.
Defined.

End HelmFacts.

(** ** Commander election, again *)

Section ElectionFacts.
Import Config Formation Stations.

Lemma nth_error_updateAt_other {A} (f : A -> A) l c j :
  j <> c -> nth_error (updateAt c f l) j = nth_error l j.
Proof.
  revert c j; induction l as [|a l IH]; intros c j Hne; [destruct c; reflexivity|].
  destruct c as [|c], j as [|j]; cbn; try reflexivity; try lia.
  apply IH. lia.
Qed.

Lemma findIndex_unique {A} (p : A -> bool) l c a :
  nth_error l c = Some a -> p a = true ->
  (forall j b, (j < c)%nat -> nth_error l j = Some b -> p b = false) ->
  findIndex p l = Some c.
Proof.
  revert c; induction l as [|h l IH]; intros c Hn Hp Hlt;
    [destruct c; discriminate|].
  destruct c as [|c]; cbn in *.
  - injection Hn as ->. rewrite Hp. reflexivity.
  - rewrite (Hlt 0%nat h) by (cbn; lia || reflexivity).
    rewrite (IH c Hn Hp); [reflexivity|].
    intros j b Hj Hb. apply (Hlt (S j) b); [lia | exact Hb].
Qed.

Lemma elected_roster arr c s :
  nth_error arr c = Some s -> alive s = true ->
  let arr' := updateAt c promote (map (set_isCommander false) arr) in
  findIndex (fun u => alive u && isCommander u) arr' = Some c /\
  exists first, findIndex alive arr' = Some first.
Proof.
  intros Hn Ha arr'.
  assert (Hc : nth_error arr' c = Some (promote (set_isCommander false s))).
  { unfold arr'. apply nth_error_updateAt. apply nth_error_map_Some. exact Hn. }
  split.
  - apply (findIndex_unique _ _ _ _ Hc).
    + destruct s; cbn in *. rewrite Ha. reflexivity.
    + intros j b Hj Hb. unfold arr' in Hb.
      rewrite nth_error_updateAt_other in Hb by lia.
      rewrite nth_error_map in Hb.
      destruct (nth_error arr j) as [u|]; [|discriminate].
      injection Hb as <-. destruct u; cbn. apply andb_false_r.
  - apply (findIndex_exists alive arr' (promote (set_isCommander false s))).
    + eapply nth_error_In. exact Hc.
    + destruct s; exact Ha.
Qed.

(** X21: electing twice is electing once: a second call of
    [pickCapitalLeader] returns the same vessel and changes nothing. *)
Theorem pickCapitalLeader_idempotent arr :
  pickCapitalLeader (fst (pickCapitalLeader arr)) = pickCapitalLeader arr.
Proof.
  unfold pickCapitalLeader at 2 3.
  destruct (findIndex alive arr) as [first|] eqn:Ef.
  - destruct (findIndex (fun s => alive s && isCommander s) arr) as [c|] eqn:Ec.
    + cbn [fst]. unfold pickCapitalLeader. rewrite Ef, Ec. reflexivity.
    + destruct (findIndex_Some _ _ _ Ef) as (s0 & Hn0 & Ha0 & _).
      destruct (electFrom_total arr s0 (nth_error_In _ _ Hn0) Ha0)
        as [[arr' c] Ee].
      rewrite Ee. cbn [fst].
      destruct (electFrom_Some _ _ _ _ Ee) as (s & t & Hn & Ha & _ & _ & ->).
      destruct (elected_roster arr c s Hn Ha) as [Hc [f' Hf']].
      unfold pickCapitalLeader. rewrite Hf', Hc. reflexivity.
  - cbn [fst]. unfold pickCapitalLeader. rewrite Ef. reflexivity.
Qed.

Lemma sameHull_clear s : sameHull s (set_isCommander false s).
Proof. destruct s; reflexivity. Qed.

Lemma Forall2_updateAt {A} (R : A -> A -> Prop) (f : A -> A) l l' c :
  Forall2 R l l' ->
  (forall a b, R a b -> R a (f b)) ->
  Forall2 R l (updateAt c f l').
Proof.
  intros H Hf. revert c; induction H as [|a b l l' Hab Hl IH]; intros c;
    [destruct c; constructor|].
  destruct c as [|c]; cbn; constructor; auto.
Qed.

Lemma Forall2_map_r {A} (R : A -> A -> Prop) (g : A -> A) l :
  (forall a, R a (g a)) -> Forall2 R l (map g l).
Proof. intros H. induction l; cbn; constructor; auto. Qed.

Lemma Forall2_refl {A} (R : A -> A -> Prop) l :
  (forall a, R a a) -> Forall2 R l l.
Proof. intros H. induction l; constructor; auto. Qed.

(** X22: [pickCapitalLeader] touches nothing but the commander flag, the
    planned path and the route state of the vessels, and it returns
    [null], leaving the roster as it is, exactly when no vessel of the
    roster is alive. *)
Theorem pickCapitalLeader_frame arr :
  Forall2 sameHull arr (fst (pickCapitalLeader arr)) /\
  (snd (pickCapitalLeader arr) = None <->
   forall s, In s arr -> alive s = false) /\
  (snd (pickCapitalLeader arr) = None -> fst (pickCapitalLeader arr) = arr).
Proof.
  assert (Hrefl : forall a, sameHull a a) by (intros a; destruct a; reflexivity).
  unfold pickCapitalLeader.
  destruct (findIndex alive arr) as [first|] eqn:Ef.
  - destruct (findIndex_Some _ _ _ Ef) as (s0 & Hn0 & Ha0 & _).
    assert (Hno : ~ forall s, In s arr -> alive s = false).
    { intros H. rewrite (H s0 (nth_error_In _ _ Hn0)) in Ha0. discriminate. }
    destruct (findIndex (fun s => alive s && isCommander s) arr) as [c|].
    + cbn [fst snd]. split; [apply Forall2_refl; exact Hrefl|].
      split; [split; [discriminate | intros H; contradiction]|discriminate].
    + destruct (electFrom priority arr) as [[arr' c]|] eqn:Ee; cbn [fst snd].
      * destruct (electFrom_Some _ _ _ _ Ee) as (s & t & _ & _ & _ & _ & ->).
        split.
        -- apply Forall2_updateAt.
           ++ apply Forall2_map_r. apply sameHull_clear.
           ++ intros a b Hab. unfold sameHull in *. rewrite <- Hab at 4.
              destruct b; reflexivity.
        -- split; [split; [discriminate | intros H; contradiction]
                  |discriminate].
      * split.
        -- apply Forall2_updateAt; [apply Forall2_refl; exact Hrefl|].
           intros a b Hab. unfold sameHull in *. rewrite <- Hab at 4.
           destruct b; reflexivity.
        -- split; [split; [discriminate | intros H; contradiction]
                  |discriminate].
  - cbn [fst snd]. split; [apply Forall2_refl; exact Hrefl|].
    split; [|reflexivity]. split; [|reflexivity].
    intros _. apply (findIndex_None alive arr Ef).
Qed.

End ElectionFacts.

(** ** Target throttle and land danger *)

Section NavFacts.
Import Config Planner Nav.


(** X24: in formation with no enemy in sight, the throttle asked for
    never falls when the distance to the station grows. *)
Theorem formation_throttle_monotone radar ship d1 d2 :
  d1 <= d2 ->
  calculateAITargetThrottle radar ship (Num d1) true false
  <= calculateAITargetThrottle radar ship (Num d2) true false.
Proof.
  intros H. unfold calculateAITargetThrottle. cbv zeta.
  cbn [isUndefined negb andb jgt cmp2 orZero].
  unfold Rgtb, Rltb.
  destruct (Rlt_dec 300 d1); destruct (Rlt_dec 300 d2);
    destruct (Rlt_dec 120 d1); destruct (Rlt_dec 120 d2); lra.
Qed.

Lemma formation_throttle_monotone_witness :
  calculateAITargetThrottle 400 (mkShip 0 P DD 0 0 0) (Num 100) true false
  <= calculateAITargetThrottle 400 (mkShip 0 P DD 0 0 0) (Num 200) true false.
Proof.
  apply formation_throttle_monotone. lra.
Defined.

Lemma landTouched_spec s a b land :
  x s = Num a -> y s = Num b ->
  match landTouched s (radius (kind s) + 15) land with
  | None =>
      forall c, In c land ->
                cr c + (radius (kind s) + 15) <= hypot (a - cx c) (b - cy c)
  | Some d =>
      In (dangerIsland d) land /\ critical d = true /\ dangerUrgency d = 1 /\
      dangerAngle d = Num (atan2 (b - cy (dangerIsland d))
                                 (a - cx (dangerIsland d))) /\
      hypot (a - cx (dangerIsland d)) (b - cy (dangerIsland d))
      < cr (dangerIsland d) + (radius (kind s) + 15)
  end.
Proof.
  intros Hx Hy. induction land as [|c land IH]; cbn [landTouched].
  - intros c [].
  - cbv zeta. rewrite Hx, Hy.
    cbn [jsub jhypot jatan2 jadd lift2 jlt cmp2]. unfold Rltb.
    destruct (Rlt_dec _ _) as [Hlt|Hge].
    + cbn. repeat split; auto.
    + destruct (landTouched s (radius (kind s) + 15) land) as [d|].
      * destruct IH as (Hi & Hrest). split; [right; exact Hi | exact Hrest].
      * intros c' [<-|Hc']; [lra | auto].
Qed.

Lemma landAhead_spec s fx fy land :
  match landAhead s (radius (kind s) + 15) (Num fx) (Num fy) land with
  | None =>
      forall c, In c land ->
                cr c + (radius (kind s) + 15) + 30
                <= hypot (fx - cx c) (fy - cy c)
  | Some d =>
      In (dangerIsland d) land /\ critical d = false /\
      dangerUrgency d = 4 / 10 /\
      hypot (fx - cx (dangerIsland d)) (fy - cy (dangerIsland d))
      < cr (dangerIsland d) + (radius (kind s) + 15) + 30
  end.
Proof.
  induction land as [|c land IH]; cbn [landAhead].
  - intros c [].
  - cbv zeta. cbn [jsub jhypot jadd lift2 jlt cmp2]. unfold Rltb.
    destruct (Rlt_dec _ _) as [Hlt|Hge].
    + cbn. repeat split; auto.
    + destruct (landAhead s _ _ _ land) as [d|].
      * destruct IH as (Hi & Hrest). split; [right; exact Hi | exact Hrest].
      * intros c' [<-|Hc']; [lra | auto].
Qed.

(** X25: [checkLandDanger] raises a critical emergency, steering straight
    away from the island, exactly when the vessel is within 15 of a
    coast; failing that it raises a gentle one exactly when the point it
    reaches in 1.5 seconds is within 45 of a coast; and it reports no
    emergency only when both are clear of every island. *)
Theorem checkLandDanger_spec land s a b u v :
  x s = Num a -> y s = Num b -> vx s = Num u -> vy s = Num v ->
  let near c := cr c + (radius (kind s) + 15) in
  let now c := hypot (a - cx c) (b - cy c) in
  let soon c :=
    hypot (a + u * (15 / 10) - cx c) (b + v * (15 / 10) - cy c) in
  match checkLandDanger land s with
  | None =>
      forall c, In c land -> near c <= now c /\ near c + 30 <= soon c
  | Some d =>
      In (dangerIsland d) land /\
      if critical d then
        now (dangerIsland d) < near (dangerIsland d) /\
        dangerUrgency d = 1 /\
        dangerAngle d = Num (atan2 (b - cy (dangerIsland d))
                                   (a - cx (dangerIsland d)))
      else
        (forall c, In c land -> near c <= now c) /\
        soon (dangerIsland d) < near (dangerIsland d) + 30 /\
        dangerUrgency d = 4 / 10
  end.
Proof.
  intros Hx Hy Hu Hv. cbv zeta. unfold checkLandDanger. cbv zeta.
  pose proof (landTouched_spec s a b land Hx Hy) as H1.
  destruct (landTouched s (radius (kind s) + 15) land) as [d|].
  - destruct H1 as (Hi & -> & Hur & Han & Hlt). auto.
  - rewrite Hx, Hy, Hu, Hv. cbn [jadd jmul lift2].
    pose proof (landAhead_spec s (a + u * (15 / 10)) (b + v * (15 / 10)) land)
      as H2.
    destruct (landAhead s _ _ _ land) as [d|].
    + destruct H2 as (Hi & -> & Hur & Hlt). auto.
    + intros c Hc. split; [apply H1 | apply H2]; exact Hc.
Qed.

Lemma checkLandDanger_spec_witness :
  exists d,
    checkLandDanger oneIsland (mkShip 0 P DD 500 780 0) = Some d /\
    critical d = true /\ dangerIsland d = theIsland /\ dangerUrgency d = 1.
Proof.
  pose proof (checkLandDanger_spec oneIsland (mkShip 0 P DD 500 780 0)
                500 780 0 0 eq_refl eq_refl eq_refl eq_refl) as H.
  cbv zeta in H.
  destruct (checkLandDanger oneIsland (mkShip 0 P DD 500 780 0)) as [d|].
  - exists d. split; [reflexivity|].
    destruct H as [[<-|[]] H]. destruct (critical d).
    + destruct H as (_ & Hu & _). auto.
    + exfalso. destruct H as (Hall & _).
      specialize (Hall theIsland (or_introl eq_refl)).
      cbn [cx cy cr theIsland kind mkShip radius] in Hall.
      assert (hypot (500 - 500) (780 - 1000) < 229) by (apply hypot_lt; lra).
      lra.
  - exfalso. destruct (H theIsland (or_introl eq_refl)) as [Hn _].
    cbn [cx cy cr theIsland kind mkShip radius] in Hn.
    assert (hypot (500 - 500) (780 - 1000) < 229) by (apply hypot_lt; lra).
    lra.
Defined.

End NavFacts.

(** ** Spawn formations and escort stations *)

Section StationFacts.
Import Config Stations.

Lemma SPAWN_SEP_value : SPAWN_SEP = 252.
Proof. unfold SPAWN_SEP, MAP_SCALE. lra. Qed.

Lemma SPAWN_SIDE_value : SPAWN_SIDE = 196.
Proof. unfold SPAWN_SIDE, MAP_SCALE. lra. Qed.

(** The offset of the [i]-th vessel at spawn. *)
Lemma spawn_offset formKey count i :
  (i < Nat.max 1 count)%nat ->
  nth_error (formationOffsets formKey count true) i =
  Some (match i with
        | O => (0, 0)
        | _ =>
            match formKey with
            | screen =>
                (- INR (Nat.div2 (S i)) * SPAWN_SEP,
                 (if Nat.odd i then -1 else 1) * SPAWN_SIDE)
            | lineAhead => (- INR i * SPAWN_SEP, 0)
            end
        end).
Proof.
  intros Hi. unfold formationOffsets. cbv zeta.
  rewrite nth_error_map, nth_error_seq.
  destruct (Nat.ltb_spec i (Nat.max 1 count)) as [_|H]; [|lia].
  cbn [option_map Nat.add]. reflexivity.
Qed.

(** Two different offsets at spawn are at least [SPAWN_SEP] apart. *)
Lemma spawn_offsets_apart formKey i j :
  i <> j ->
  let off k :=
    match k with
    | O => (0, 0)
    | _ =>
        match formKey with
        | screen =>
            (- INR (Nat.div2 (S k)) * SPAWN_SEP,
             (if Nat.odd k then -1 else 1) * SPAWN_SIDE)
        | lineAhead => (- INR k * SPAWN_SEP, 0)
        end
    end in
  SPAWN_SEP <= hypot (fst (off i) - fst (off j)) (snd (off i) - snd (off j)).
Proof.
  intros Hne. cbv zeta. rewrite SPAWN_SEP_value, SPAWN_SIDE_value.
  assert (Hline : forall a b : nat, a <> b ->
                    252 <= Rabs (- INR a * 252 - - INR b * 252)).
  { intros a b Hab.
    replace (- INR a * 252 - - INR b * 252) with ((INR b - INR a) * 252)
      by ring.
    destruct (Nat.lt_ge_cases a b) as [Hlt|Hge].
    - assert (INR a + 1 <= INR b)
        by (rewrite <- S_INR; apply le_INR; lia).
      rewrite Rabs_right by lra. lra.
    - assert (INR b + 1 <= INR a)
        by (rewrite <- S_INR; apply le_INR; lia).
      rewrite Rabs_left by lra. lra. }
  assert (Hrow : forall k, (1 <= k)%nat -> (1 <= Nat.div2 (S k))%nat).
  { intros [|k] Hk; [lia|].
    change (Nat.div2 (S (S k))) with (S (Nat.div2 k)).
    apply le_n_S, Nat.le_0_l. }
  destruct formKey.
  - (* line ahead *)
    destruct i as [|i], j as [|j]; try lia; cbn [fst snd].
    + pose proof (Hline 0%nat (S j) ltac:(lia)) as H.
      replace (- INR 0 * 252) with 0 in H by (cbn; ring).
      eapply Rle_trans; [exact H | apply hypot_abs_l].
    + pose proof (Hline (S i) 0%nat ltac:(lia)) as H.
      replace (- INR 0 * 252) with 0 in H by (cbn; ring).
      eapply Rle_trans; [exact H | apply hypot_abs_l].
    + eapply Rle_trans; [apply (Hline (S i) (S j)); lia | apply hypot_abs_l].
  - (* screen *)
    destruct i as [|i], j as [|j]; try lia; cbn [fst snd].
    + pose proof (Hline 0%nat (Nat.div2 (S (S j)))
                    ltac:(pose proof (Hrow (S j)); lia)) as H.
      replace (- INR 0 * 252) with 0 in H by (cbn; ring).
      eapply Rle_trans; [exact H | apply hypot_abs_l].
    + pose proof (Hline (Nat.div2 (S (S i))) 0%nat
                    ltac:(pose proof (Hrow (S i)); lia)) as H.
      replace (- INR 0 * 252) with 0 in H by (cbn; ring).
      eapply Rle_trans; [exact H | apply hypot_abs_l].
    + destruct (Nat.eq_dec (Nat.div2 (S (S i))) (Nat.div2 (S (S j))))
        as [Erow|Nrow].
      * (* same row: one on each side *)
        assert (Hodd : Nat.odd (S i) <> Nat.odd (S j)).
        { intros Ho.
          pose proof (Nat.div2_odd (S (S i))) as Hi.
          pose proof (Nat.div2_odd (S (S j))) as Hj.
          rewrite (Nat.odd_succ (S i)), <- Nat.negb_odd in Hi.
          rewrite (Nat.odd_succ (S j)), <- Nat.negb_odd in Hj.
          rewrite Ho, Erow in Hi. lia. }
        eapply Rle_trans; [|apply hypot_abs_r].
        destruct (Nat.odd (S i)), (Nat.odd (S j)); try congruence.
        -- rewrite Rabs_left by lra. lra.
        -- rewrite Rabs_right by lra. lra.
      * eapply Rle_trans; [apply (Hline _ _ Nrow) | apply hypot_abs_l].
Qed.

(** Turning and shifting the offsets keeps their distances. *)
Lemma place_isometry x0 y0 a0 f1 r1 f2 r2 :
  hypot ((x0 + cos a0 * f1 + - sin a0 * r1) - (x0 + cos a0 * f2 + - sin a0 * r2))
        ((y0 + sin a0 * f1 + cos a0 * r1) - (y0 + sin a0 * f2 + cos a0 * r2))
  = hypot (f1 - f2) (r1 - r2).
Proof.
  apply hypot_eq; [apply hypot_nonneg|]. rewrite hypot_sqr.
  pose proof (sin2_cos2 a0) as H. unfold Rsqr in H.
  set (df := f1 - f2). set (dr := r1 - r2).
  replace (x0 + cos a0 * f1 + - sin a0 * r1
           - (x0 + cos a0 * f2 + - sin a0 * r2))
    with (cos a0 * df - sin a0 * dr) by (unfold df, dr; ring).
  replace (y0 + sin a0 * f1 + cos a0 * r1
           - (y0 + sin a0 * f2 + cos a0 * r2))
    with (sin a0 * df + cos a0 * dr) by (unfold df, dr; ring).
  replace ((cos a0 * df - sin a0 * dr) * (cos a0 * df - sin a0 * dr)
           + (sin a0 * df + cos a0 * dr) * (sin a0 * df + cos a0 * dr))
    with ((sin a0 * sin a0 + cos a0 * cos a0) * (df * df + dr * dr)) by ring.
  rewrite H. ring.
Qed.

(** X28: [formationSpawns] gives one spawn point per vessel, the first of
    them the anchor itself, all with the anchor's heading, and any two
    of them at least [SPAWN_SEP] = 252 apart. *)
Theorem formationSpawns_apart x0 y0 a0 formKey count :
  let spawns := formationSpawns x0 y0 a0 formKey count in
  length spawns = count /\
  (forall p, In p spawns -> snd p = a0) /\
  ((0 < count)%nat -> nth_error spawns 0 = Some (x0, y0, a0)) /\
  forall i j p q,
    i <> j -> nth_error spawns i = Some p -> nth_error spawns j = Some q ->
    SPAWN_SEP <= hypot (fst (fst p) - fst (fst q)) (snd (fst p) - snd (fst q)).
Proof.
  cbv zeta. unfold formationSpawns. cbv zeta.
  assert (Hlen : length (formationOffsets formKey count true)
                 = Nat.max 1 count).
  { unfold formationOffsets. cbv zeta. rewrite length_map, length_seq.
    reflexivity. }
  assert (Hnth : forall i p,
             nth_error
               (map (fun o =>
                       (x0 + cos a0 * fst o + - sin a0 * snd o,
                        y0 + sin a0 * fst o + cos a0 * snd o, a0))
                    (firstn count (formationOffsets formKey count true))) i
             = Some p ->
             exists o, (i < count)%nat /\
               nth_error (formationOffsets formKey count true) i = Some o /\
               p = (x0 + cos a0 * fst o + - sin a0 * snd o,
                    y0 + sin a0 * fst o + cos a0 * snd o, a0)).
  { intros i p H. rewrite nth_error_map in H.
    destruct (nth_error (firstn count _) i) as [o|] eqn:E; [|discriminate].
    injection H as <-. exists o.
    assert (Hi : (i < count)%nat).
    { assert (Hs : nth_error
                     (firstn count (formationOffsets formKey count true)) i
                   <> None) by congruence.
      apply nth_error_Some in Hs. rewrite length_firstn in Hs. lia. }
    split; [exact Hi|]. split; [|reflexivity].
    rewrite nth_error_firstn in E.
    destruct (Nat.ltb_spec i count); [exact E | lia]. }
  split; [rewrite length_map, length_firstn, Hlen; lia|].
  split.
  { intros p Hp. apply in_map_iff in Hp. destruct Hp as (o & <- & _).
    reflexivity. }
  split.
  { intros Hc. rewrite nth_error_map, nth_error_firstn.
    destruct (Nat.ltb_spec 0 count); [|lia].
    rewrite (spawn_offset formKey count 0) by lia.
    cbn [option_map fst snd]. repeat f_equal; ring. }
  intros i j p q Hne Hp Hq.
  destruct (Hnth i p Hp) as (oi & Hi & Hoi & ->).
  destruct (Hnth j q Hq) as (oj & Hj & Hoj & ->).
  rewrite spawn_offset in Hoi by lia. rewrite spawn_offset in Hoj by lia.
  injection Hoi as <-. injection Hoj as <-.
  cbn [fst snd]. rewrite place_isometry.
  apply (spawn_offsets_apart formKey i j Hne).
Qed.

Lemma map_add_seq a n : map (fun i => (a + i)%nat) (seq 0 n) = seq a n.
Proof.
  revert a; induction n as [|n IH]; intros a; [reflexivity|].
  cbn [seq map]. rewrite Nat.add_0_r. f_equal.
  rewrite <- seq_shift, map_map.
  rewrite <- (IH (S a)). apply map_ext. intros i. lia.
Qed.

(** X29: [getEscortPositions] hands out exactly [numPositions] stations,
    numbered in order of priority from 0; each lies on the ring of its
    zone (4, 3.6 or 3.4 times the separation from the centre) and the
    front stations lie ahead of the centre. *)
Theorem getEscortPositions_spec numPositions sep :
  0 < sep ->
  let slots := getEscortPositions numPositions sep in
  map slotPriority slots = seq 0 numPositions /\
  Forall (fun s =>
            hypot (slotF s) (slotR s) = ringFactor (slotZone s) * (sep * 4) /\
            (slotZone s = zoneFront -> 0 < slotF s))
         slots.
Proof.
  intros Hsep. cbv zeta. unfold getEscortPositions. cbv zeta.
  set (fc := Nat.min 6 numPositions).
  set (sc := Nat.min 4 (numPositions - fc)).
  set (bc := (numPositions - fc - sc)%nat).
  split.
  - rewrite !map_app, !map_map. cbn [slotPriority].
    rewrite map_id.
    rewrite (map_add_seq fc sc), (map_add_seq (fc + sc) bc).
    rewrite <- !seq_app. f_equal. unfold bc, sc, fc. lia.
  - assert (Hring : forall a k, 0 <= k ->
               hypot (cos a * (sep * 4) * k) (sin a * (sep * 4) * k)
               = k * (sep * 4)).
    { intros a k Hk.
      replace (cos a * (sep * 4) * k) with (cos a * (k * (sep * 4))) by ring.
      replace (sin a * (sep * 4) * k) with (sin a * (k * (sep * 4))) by ring.
      apply hypot_polar. nra. }
    repeat rewrite Forall_app. repeat split.
    + apply Forall_map, Forall_forall. intros i Hi. apply in_seq in Hi.
      cbn [slotF slotR slotZone ringFactor]. split.
      * rewrite hypot_polar by lra. ring.
      * intros _. apply Rmult_lt_0_compat; [|lra].
        pose proof PI_RGT_0 as Hpi.
        assert (Hq : 0 <= INR i / INR (Nat.max 1 (fc - 1)) <= 1).
        { destruct (Nat.eq_dec i 0) as [->|Hi0].
          - cbn [INR]. unfold Rdiv. rewrite Rmult_0_l. lra.
          - apply sample_in_unit; lia. }
        apply cos_gt_0; nra.
    + apply Forall_map, Forall_forall. intros i _.
      cbn [slotF slotR slotZone ringFactor]. split; [|discriminate].
      apply Hring. lra.
    + apply Forall_map, Forall_forall. intros i _.
      cbn [slotF slotR slotZone ringFactor]. split; [|discriminate].
      apply Hring. lra.
Qed.

Lemma getEscortPositions_spec_witness :
  map slotPriority (getEscortPositions 8 FORM_SEP) = seq 0 8 /\
  Forall (fun s =>
            hypot (slotF s) (slotR s)
            = ringFactor (slotZone s) * (FORM_SEP * 4) /\
            (slotZone s = zoneFront -> 0 < slotF s))
         (getEscortPositions 8 FORM_SEP).
Proof.
  apply (getEscortPositions_spec 8 FORM_SEP).
  unfold FORM_SEP, MAP_SCALE. lra.
Defined.

End StationFacts.

(** ** The wake and the target picker *)

Section WakeFacts.
Import Config Planner Nav Wake.

Lemma ascending_snoc trail p :
  ascending trail -> Forall (fun q => trailT q <= trailT p) trail ->
  ascending (trail ++ [p]).
Proof.
  induction trail as [|q trail IH]; cbn [ascending app];
    [intros _ _; split; [constructor | exact I]|].
  intros [Hq Ha] Hle. inversion Hle as [|? ? Hqp Hrest]; subst.
  split; [|apply IH; assumption].
  apply Forall_app. split; [exact Hq | constructor; [exact Hqp | constructor]].
Qed.

Lemma ascending_tl trail : ascending trail -> ascending (tl trail).
Proof. destruct trail as [|p rest]; cbn; [auto | intros [_ H]; exact H]. Qed.

Lemma dropStale_spec time trail :
  ascending trail ->
  let res := dropStale time trail in
  (length res <= length trail)%nat /\ ascending res /\
  Forall (fun p => time - trailT p <= 52 / 10) res /\
  exists gone, trail = gone ++ res.
Proof.
  cbv zeta. induction trail as [|p rest IH]; cbn [dropStale]; intros Ha.
  - repeat split; auto. exists []. reflexivity.
  - unfold Rgtb, Rltb. destruct (Rlt_dec (52 / 10) (time - trailT p)) as [Hs|Hf].
    + destruct Ha as [_ Ha]. destruct (IH Ha) as (Hl & Has & Hfr & gone & Hg).
      split; [cbn [length]; lia|]. split; [exact Has|]. split; [exact Hfr|].
      exists (p :: gone). cbn [app]. rewrite <- Hg. reflexivity.
    + split; [lia|]. split; [exact Ha|]. split; [|exists []; reflexivity].
      destruct Ha as [Hp _]. constructor; [lra|].
      eapply Forall_impl; [|exact Hp]. cbv beta. intros q Hq. lra.
Qed.

(** X30: [trailStep] never lets the wake of a living vessel grow beyond
    120 points, keeps its points in order of time, and leaves no point
    older than 5.2 seconds; the wake of a sunk vessel is left as it
    is. *)
Theorem trailStep_spec time ship trail :
  (length trail <= 120)%nat -> ascending trail ->
  Forall (fun p => trailT p <= time) trail ->
  let res := trailStep time ship trail in
  (length res <= 120)%nat /\ ascending res /\
  (alive ship = false -> res = trail) /\
  (alive ship = true -> Forall (fun p => time - trailT p <= 52 / 10) res).
Proof.
  intros Hl Ha Ht. cbv zeta. unfold trailStep.
  destruct (alive ship); cbn [negb].
  2: { repeat split; auto. discriminate. }
  cbv zeta.
  set (pushed := trail ++ [mkTrailPoint (x ship) (y ship) time]).
  assert (Hp : ascending pushed /\ length pushed = S (length trail)).
  { split; [apply ascending_snoc; assumption|].
    unfold pushed. rewrite length_app. cbn [length]. lia. }
  destruct Hp as [Hpa Hpl].
  set (trail1 := if match last (map Some trail) None with
                    | Some l => _
                    | None => true
                    end then _ else trail).
  assert (H1 : (length trail1 <= 120)%nat /\ ascending trail1).
  { unfold trail1. destruct (match last (map Some trail) None with
                             | Some l => _
                             | None => true
                             end); [|auto].
    destruct (Nat.ltb_spec 120 (length pushed)) as [Hlt|Hge].
    - split; [|apply ascending_tl; exact Hpa].
      destruct pushed; cbn [tl length] in *; lia.
    - auto. }
  destruct H1 as [Hl1 Ha1].
  destruct (dropStale_spec time trail1 Ha1) as (Hl2 & Ha2 & Hf & _).
  split; [lia|]. split; [exact Ha2|]. split; [discriminate | intros _; exact Hf].
Qed.

Lemma trailStep_spec_witness :
  let trail := [mkTrailPoint 0 0 0; mkTrailPoint 10 0 3] in
  let res := trailStep 6 (mkShip 0 P DD 20 0 0) trail in
  (length res <= 120)%nat /\ ascending res /\
  (alive (mkShip 0 P DD 20 0 0) = false -> res = trail) /\
  (alive (mkShip 0 P DD 20 0 0) = true ->
   Forall (fun p => 6 - trailT p <= 52 / 10) res).
Proof.
  apply (trailStep_spec 6 (mkShip 0 P DD 20 0 0)).
  - cbn [length]. lia.
  - cbn [ascending trailT]. repeat split; repeat constructor; cbn; lra.
  - repeat constructor; cbn; lra.
Defined.

Lemma pick_fold (canSee : Team -> Ship -> bool) fromShip cands best bd :
  let f := fun (acc : option Ship * option R) t =>
             if negb (alive t) then acc
             else if negb (canSee (team fromShip) t) then acc
             else
               let d2 := jdist2 (x fromShip) (y fromShip) (x t) (y t) in
               match d2, snd acc with
               | Num d, None => (Some t, Some d)
               | Num d, Some bestD2 =>
                   if Rltb d bestD2 then (Some t, Some d) else acc
               | _, _ => acc
               end in
  let seen c dc :=
    alive c = true /\ canSee (team fromShip) c = true /\
    jdist2 (x fromShip) (y fromShip) (x c) (y c) = Num dc in
  match fold_left f cands (best, bd) with
  | (r, None) =>
      r = best /\ bd = None /\ forall c dc, In c cands -> ~ seen c dc
  | (r, Some d) =>
      ((r = best /\ bd = Some d) \/
       exists t, r = Some t /\ In t cands /\ seen t d) /\
      (forall d0, bd = Some d0 -> d <= d0) /\
      forall c dc, In c cands -> seen c dc -> d <= dc
  end.
Proof.
  cbv zeta. revert best bd.
  induction cands as [|t cands IH]; intros best bd; cbn [fold_left].
  - destruct bd as [d|].
    + split; [left; auto|]. split; [intros d0 H; injection H as <-; lra|].
      intros c dc [].
    + repeat split; auto.
  - set (step := if negb (alive t) then (best, bd) else _).
    assert (Hstep :
      (step = (best, bd) /\
       forall dc, ~ (alive t = true /\ canSee (team fromShip) t = true /\
                     jdist2 (x fromShip) (y fromShip) (x t) (y t) = Num dc /\
                     forall d0, bd = Some d0 -> dc < d0)) \/
      exists d, step = (Some t, Some d) /\
                alive t = true /\ canSee (team fromShip) t = true /\
                jdist2 (x fromShip) (y fromShip) (x t) (y t) = Num d /\
                forall d0, bd = Some d0 -> d < d0).
    { unfold step. destruct (alive t); cbn [negb].
      2: { left. split; [reflexivity|]. intros dc (H & _). discriminate. }
      destruct (canSee (team fromShip) t); cbn [negb].
      2: { left. split; [reflexivity|]. intros dc (_ & H & _). discriminate. }
      cbv zeta. cbn [snd].
      destruct (jdist2 _ _ _ _) as [d| |].
      - destruct bd as [b|].
        + unfold Rltb. destruct (Rlt_dec d b) as [Hlt|Hge].
          * right. exists d. repeat split; auto.
            intros d0 H; injection H as <-. exact Hlt.
          * left. split; [reflexivity|].
            intros dc (_ & _ & H & Hlt). injection H as <-.
            specialize (Hlt b eq_refl). lra.
        + right. exists d. repeat split; auto. discriminate.
      - left. split; [reflexivity|]. intros dc (_ & _ & H & _). discriminate.
      - left. split; [reflexivity|]. intros dc (_ & _ & H & _). discriminate. }
    clearbody step.
    destruct Hstep as [[-> Hno]|(d & -> & Hal & Hcs & Hd & Hlt)].
    + specialize (IH best bd).
      destruct (fold_left _ cands (best, bd)) as [r [dr|]].
      * destruct IH as (Hsrc & Hle & Hmin). split; [|split; [exact Hle|]].
        -- destruct Hsrc as [H|(t' & Hr & Hin & Hs)]; [left; exact H|].
           right. exists t'. split; [exact Hr|]. split; [right; exact Hin|exact Hs].
        -- intros c dc [<-|Hc] (Ha & Hv & Hdc); [|apply (Hmin c dc Hc); auto].
           destruct (Rle_dec dr dc) as [|Hgt]; [assumption|]. exfalso.
           apply (Hno dc). repeat split; auto.
           intros d0 Hd0. specialize (Hle d0 Hd0). lra.
      * destruct IH as (Hr & Hbd & Hnone). repeat split; auto.
        intros c dc [<-|Hc] (Ha & Hv & Hdc); [|apply (Hnone c dc Hc); auto].
        apply (Hno dc). repeat split; auto. intros d0 Hd0. congruence.
    + specialize (IH (Some t) (Some d)).
      destruct (fold_left _ cands (Some t, Some d)) as [r [dr|]].
      * destruct IH as (Hsrc & Hle & Hmin).
        specialize (Hle d eq_refl).
        split; [|split].
        -- right. destruct Hsrc as [[-> H]|(t' & Hr & Hin & Hs)].
           ++ injection H as <-. exists t. repeat split; auto. left; reflexivity.
           ++ exists t'. split; [exact Hr|]. split; [right; exact Hin|exact Hs].
        -- intros d0 Hd0. specialize (Hlt d0 Hd0). lra.
        -- intros c dc [<-|Hc] (Ha & Hv & Hdc); [|apply (Hmin c dc Hc); auto].
           rewrite Hd in Hdc. injection Hdc as <-. exact Hle.
      * destruct IH as (_ & H & _). discriminate.
Qed.

(** X27: [pickTargetDetectable] returns a living candidate that the ship
    can see and none of the others that qualify is nearer; it returns
    [null] only when no living candidate in sight has a finite
    distance. *)
Theorem pickTargetDetectable_nearest canSee fromShip candidates :
  let d2 c := jdist2 (x fromShip) (y fromShip) (x c) (y c) in
  match pickTargetDetectable canSee fromShip candidates with
  | Some t =>
      In t candidates /\ alive t = true /\
      canSee (team fromShip) t = true /\
      exists d, d2 t = Num d /\
        forall c dc, In c candidates -> alive c = true ->
                     canSee (team fromShip) c = true -> d2 c = Num dc ->
                     d <= dc
  | None =>
      forall c dc, In c candidates -> alive c = true ->
                   canSee (team fromShip) c = true -> d2 c <> Num dc
  end.
Proof.
  cbv zeta. unfold pickTargetDetectable.
  pose proof (pick_fold canSee fromShip candidates None None) as H.
  cbv zeta in H.
  destruct (fold_left _ candidates (None, None)) as [r [d|]]; cbn [fst].
  - destruct H as ([[_ H]|(t & -> & Hin & Ha & Hv & Hd)] & _ & Hmin);
      [discriminate|].
    repeat split; auto. exists d. split; [exact Hd|].
    intros c dc Hc Hac Hvc Hdc. apply (Hmin c dc Hc). auto.
  - destruct H as (-> & _ & Hnone).
    intros c dc Hc Ha Hv Hd. apply (Hnone c dc Hc). auto.
Qed.

End WakeFacts.

(** ** Paths around other vessels *)

Section ShipPathFacts.
Import Config Nav.

Lemma jclamp_within v lo hi : lo <= hi -> within lo hi (jclamp v lo hi).
Proof.
  intros H. destruct v as [r| |]; cbn; auto. apply clamp_bounds. exact H.
Qed.

Lemma pathAround_spec n ship cx0 cy0 dx dy allShips :
  (length (pathAround n ship cx0 cy0 dx dy allShips) <= n)%nat /\
  Forall (fun p => within 100 (WORLD_w - 100) (jx p) /\
                   within 100 (WORLD_h - 100) (jy p))
         (pathAround n ship cx0 cy0 dx dy allShips).
Proof.
  revert cx0 cy0; induction n as [|n IH]; intros cx0 cy0; cbn [pathAround];
    [split; [cbn; lia | constructor]|].
  cbv zeta.
  destruct (doesPathCrossShipTrajectory _ _ _ _ _ _ _ _) as [[blocker time]|];
    [|split; [cbn; lia | constructor]].
  match goal with
  | |- context [pathAround n ship ?a ?b dx dy allShips] =>
      destruct (IH a b) as [Hl Hf]
  end.
  split; [cbn [length]; lia|].
  constructor; [|exact Hf]. cbn [jx jy].
  unfold WORLD_w, WORLD_h. split; apply jclamp_within; lra.
Qed.

Lemma firstShipNear_none qx qy ships excludeShip lookAhead margin :
  (forall o, In o ships -> alive o = false \/ sid o = sid excludeShip) ->
  firstShipNear qx qy ships excludeShip lookAhead margin = None.
Proof.
  induction ships as [|o ships IH]; intros H; cbn [firstShipNear];
    [reflexivity|].
  assert (Hskip : negb (alive o) || Nat.eqb (sid o) (sid excludeShip) = true).
  { destruct (H o (or_introl eq_refl)) as [-> | ->];
      [reflexivity | rewrite Nat.eqb_refl; apply orb_true_r]. }
  rewrite Hskip. apply IH. intros o' Ho'. apply H. right; exact Ho'.
Qed.

(** X26: [planPathAroundShips] returns at most three waypoints, every one
    of them clamped into the world box that keeps 100 from the edge,
    and none at all when no living vessel other than the ship itself is
    about. *)
Theorem planPathAroundShips_spec ship targetX targetY allShips :
  let path := planPathAroundShips ship targetX targetY allShips in
  (length path <= 3)%nat /\
  Forall (fun p => within 100 (WORLD_w - 100) (jx p) /\
                   within 100 (WORLD_h - 100) (jy p)) path /\
  ((forall o, In o allShips -> alive o = false \/ sid o = sid ship) ->
   path = []).
Proof.
  cbv zeta. unfold planPathAroundShips.
  destruct (pathAround_spec 3 ship (x ship) (y ship) targetX targetY allShips)
    as [Hl Hf].
  split; [exact Hl|]. split; [exact Hf|].
  intros Hnone. cbn [pathAround]. cbv zeta.
  unfold doesPathCrossShipTrajectory.
  destruct (jhypot _ _); [|reflexivity|reflexivity].
  rewrite firstSome_None; [reflexivity|].
  intros i _. cbv beta zeta. apply firstShipNear_none. exact Hnone.
Qed.

End ShipPathFacts.
